(** * zedd-downloader: the video-URL extraction pipeline of the server

    A shallow embedding of [FacebookVideoExtractor] (the class of the
    Express server) and of the [/extract-videos] handler, with the
    properties of the extraction pipeline stated and proved over it.

    JavaScript strings are sequences of UTF-16 code units; a code unit is
    represented by its number.  Regular expressions are embedded as
    syntax trees run by a backtracking matcher that follows the
    ECMAScript matching rules (leftmost match, ordered alternation,
    greedy and lazy quantifiers, captures). *)

From Stdlib Require Import NArith ZArith List String Ascii Bool Lia QArith.
From Stdlib Require Import Permutation Sorted.
From stdpp Require Import base decidable countable gmap sets list.

Local Open Scope N_scope.
Local Open Scope nat_scope.
Local Open Scope list_scope.

(** ** JavaScript strings *)

Module JsString.

Definition char := N.
Definition jsstring := list char.

Definition code (a : ascii) : char := N_of_ascii a.

(** An ASCII literal of the source as a JavaScript string. *)
Fixpoint js (s : string) : jsstring :=
  match s with
  | EmptyString => []
  | String a t => code a :: js t
  end.

Definition dquote : char := 34%N.
Definition squote : char := 39%N.
Definition backslash : char := 92%N.

Definition char_eqb (a b : char) : bool := N.eqb a b.

Fixpoint str_eqb (s t : jsstring) : bool :=
  match s, t with
  | [], [] => true
  | a :: s', b :: t' => char_eqb a b && str_eqb s' t'
  | _, _ => false
  end.

(** [String.prototype.startsWith] *)
Fixpoint startsWith (s p : jsstring) : bool :=
  match p, s with
  | [], _ => true
  | b :: p', a :: s' => char_eqb a b && startsWith s' p'
  | _ :: _, [] => false
  end.

(** [String.prototype.includes] *)
Fixpoint includes (s p : jsstring) : bool :=
  startsWith s p ||
  match s with
  | [] => false
  | _ :: s' => includes s' p
  end.

(** [substring(0, n)] for a non-negative integer [n] *)
Definition substring0 (n : nat) (s : jsstring) : jsstring := firstn n s.

(** WhiteSpace and LineTerminator code units: what [trim] strips and what
    the class escape [\s] matches. *)
Definition is_space (c : char) : bool :=
  ((9 <=? c) && (c <=? 13) || (c =? 32) || (c =? 160) || (c =? 5760)
   || (8192 <=? c) && (c <=? 8202) || (c =? 8232) || (c =? 8233)
   || (c =? 8239) || (c =? 8287) || (c =? 12288) || (c =? 65279))%N.

Fixpoint trimStart (s : jsstring) : jsstring :=
  match s with
  | c :: t => if is_space c then trimStart t else s
  | [] => []
  end.

Fixpoint trimEnd (s : jsstring) : jsstring :=
  match s with
  | [] => []
  | c :: t =>
      match trimEnd t with
      | [] => if is_space c then [] else [c]
      | t' => c :: t'
      end
  end.

(** [String.prototype.trim] *)
Definition trim (s : jsstring) : jsstring := trimEnd (trimStart s).

(** [s.split(sep)] for a one-character separator: the pieces between the
    separators, at least one piece. *)
Fixpoint split (sep : char) (s : jsstring) : jsstring * list jsstring :=
  match s with
  | [] => ([], [])
  | c :: t =>
      let '(p, ps) := split sep t in
      if char_eqb c sep then ([], p :: ps) else (c :: p, ps)
  end.

Definition split_first (sep : char) (s : jsstring) : jsstring :=
  fst (split sep s).

Definition split_last (sep : char) (s : jsstring) : jsstring :=
  let '(p, ps) := split sep s in List.last ps p.

Lemma char_eqb_eq a b : char_eqb a b = true <-> a = b.
Proof. apply N.eqb_eq. Qed.

Lemma str_eqb_eq s t : str_eqb s t = true <-> s = t.
Proof.
  revert t. induction s as [|a s IH]; intros [|b t]; simpl; split;
    try congruence; try discriminate.
  - rewrite andb_true_iff, char_eqb_eq, IH. intros [-> ->]. reflexivity.
  - intros [= -> ->]. rewrite andb_true_iff, char_eqb_eq, IH. auto.
Qed.

End JsString.
Export JsString.

(** ** Regular expressions

    The syntax the patterns of the source use, and a backtracking matcher
    in continuation-passing style after the ECMAScript specification
    (22.2.2, without the [u] and [m] flags, which no pattern of the source
    sets). *)

Module Regex.

Inductive regex : Type :=
| REmpty                                        (* the empty pattern *)
| RChar (c : char)                              (* a literal character *)
| RAny                                          (* [.] *)
| RClass (neg : bool) (ranges : list (char * char))  (* [[...]] and [[^...]] *)
| RSeq (a b : regex)
| RAlt (a b : regex)                            (* [a|b] *)
| RRep (min : nat) (max : option nat) (greedy : bool) (a : regex)
| RGroup (n : nat) (a : regex)                  (* capture group number [n] *)
| RBol                                          (* [^] *)
| REol.                                         (* [$] *)

Record flags := { global : bool; ignoreCase : bool; dotAll : bool }.

Record RegExp := { source : regex; rflags : flags }.

(** A position of the match in progress: the input left to read, the index
    of its first character, and the captures so far. *)
Record mstate := {
  rest : jsstring;
  pos : nat;
  caps : list (nat * jsstring)
}.

Definition cont := mstate -> option mstate.

Definition is_line_terminator (c : char) : bool :=
  ((c =? 10) || (c =? 13) || (c =? 8232) || (c =? 8233))%N.

(** Canonicalize (22.2.5.6) restricted to what the source's patterns need:
    every letter they mention is ASCII, and a code unit from 128 on is never
    folded onto an ASCII one, so only [a-z] and [A-Z] are identified. *)
Definition swap_case (c : char) : char :=
  if ((65 <=? c) && (c <=? 90))%N then (c + 32)%N
  else if ((97 <=? c) && (c <=? 122))%N then (c - 32)%N
  else c.

Definition in_range (c : char) (r : char * char) : bool :=
  ((fst r <=? c) && (c <=? snd r))%N.

Definition class_has (ic : bool) (ranges : list (char * char)) (c : char) : bool :=
  existsb (in_range c) ranges || (ic && existsb (in_range (swap_case c)) ranges).

Definition lit_eq (ic : bool) (p c : char) : bool :=
  char_eqb p c || (ic && char_eqb p (swap_case c)).

Definition step (s : mstate) (t : jsstring) : mstate :=
  {| rest := t; pos := S (pos s); caps := caps s |}.

Definition one_char (ok : char -> bool) (k : cont) (s : mstate) : option mstate :=
  match rest s with
  | c :: t => if ok c then k (step s t) else None
  | [] => None
  end.

Fixpoint groups_of (r : regex) : list nat :=
  match r with
  | RSeq a b | RAlt a b => groups_of a ++ groups_of b
  | RRep _ _ _ a => groups_of a
  | RGroup n a => n :: groups_of a
  | _ => []
  end.

Definition clear_caps (gs : list nat) (s : mstate) : mstate :=
  {| rest := rest s; pos := pos s;
     caps := List.filter (fun e => negb (existsb (Nat.eqb (fst e)) gs)) (caps s) |}.

Definition set_cap (n : nat) (v : jsstring) (s : mstate) : mstate :=
  {| rest := rest s; pos := pos s;
     caps := (n, v) :: List.filter (fun e => negb (Nat.eqb (fst e) n)) (caps s) |}.

Definition get_cap (n : nat) (cs : list (nat * jsstring)) : option jsstring :=
  match List.find (fun e => Nat.eqb (fst e) n) cs with
  | Some e => Some (snd e)
  | None => None
  end.

Definition or_else (a : option mstate) (b : unit -> option mstate) : option mstate :=
  match a with
  | Some z => Some z
  | None => b tt
  end.

(** RepeatMatcher (22.2.2.3.1).  [m] is the matcher of the quantified atom.
    An iteration beyond the minimum that consumes nothing is refused, so
    every call either lowers [min] or shortens the input: [fuel] is
    [min + 1 + length of the input left]. *)
Fixpoint repeat_matcher (m : cont -> cont) (gs : list nat) (fuel : nat)
    (min : nat) (max : option nat) (greedy : bool) (k : cont) (x : mstate)
    : option mstate :=
  match fuel with
  | 0 => None
  | S fuel' =>
      match max with
      | Some 0 => k x
      | _ =>
          let d : cont := fun y =>
            if Nat.eqb min 0 && Nat.eqb (pos y) (pos x) then None
            else repeat_matcher m gs fuel' (Nat.pred min) (option_map Nat.pred max) greedy k y in
          let xr := clear_caps gs x in
          if negb (Nat.eqb min 0) then m d xr
          else if greedy then or_else (m d xr) (fun _ => k x)
          else or_else (k x) (fun _ => m d xr)
      end
  end.

Fixpoint rmatch (ic ds : bool) (r : regex) (k : cont) (s : mstate) : option mstate :=
  match r with
  | REmpty => k s
  | RChar p => one_char (lit_eq ic p) k s
  | RAny => one_char (fun c => ds || negb (is_line_terminator c)) k s
  | RClass neg ranges => one_char (fun c => xorb neg (class_has ic ranges c)) k s
  | RSeq a b => rmatch ic ds a (rmatch ic ds b k) s
  | RAlt a b => or_else (rmatch ic ds a k s) (fun _ => rmatch ic ds b k s)
  | RRep min max greedy a =>
      repeat_matcher (rmatch ic ds a) (groups_of a)
        (min + S (length (rest s))) min max greedy k s
  | RGroup n a =>
      rmatch ic ds a (fun s' => k (set_cap n (firstn (pos s' - pos s) (rest s)) s')) s
  | RBol => if Nat.eqb (pos s) 0 then k s else None
  | REol => match rest s with [] => k s | _ => None end
  end.

(** The result of a successful match: [index] and [matched] are
    [match.index] and [match[0]]; [endIndex] is where the match stops
    (the next [lastIndex] of a global pattern) and [after] the input from
    there. *)
Record rmatch_result := {
  index : nat;
  matched : jsstring;
  groups : list (nat * jsstring);
  endIndex : nat;
  after : jsstring
}.

Definition match_at (re : RegExp) (s : jsstring) (i : nat) : option rmatch_result :=
  match rmatch (ignoreCase (rflags re)) (dotAll (rflags re)) (source re) Some
          {| rest := s; pos := i; caps := [] |} with
  | Some e =>
      Some {| index := i; matched := firstn (pos e - i) s; groups := caps e;
              endIndex := pos e; after := rest e |}
  | None => None
  end.

(** RegExpBuiltinExec from [lastIndex = i], where [s] is the input from
    index [i] on: the leftmost position at which the pattern matches. *)
Fixpoint search (re : RegExp) (s : jsstring) (i : nat) : option rmatch_result :=
  match match_at re s i with
  | Some m => Some m
  | None =>
      match s with
      | [] => None
      | _ :: t => search re t (S i)
      end
  end.

(** [re.test(s)] and [s.match(re)] for a pattern without the [g] flag. *)
Definition test (re : RegExp) (s : jsstring) : bool :=
  match search re s 0 with Some _ => true | None => false end.

Definition match_first (re : RegExp) (s : jsstring) : option rmatch_result :=
  search re s 0.

(** The loop [while ((match = re.exec(s)) !== null)] over a fresh global
    pattern: the successive matches, each search starting where the last
    match stopped.  [exec] does not step over an empty match, so on one the
    loop of the source would never leave it; no pattern of the source can
    match the empty string (see [never_empty]), and the embedding stops
    there. *)
Fixpoint exec_loop (re : RegExp) (fuel : nat) (s : jsstring) (i : nat)
    : list rmatch_result :=
  match fuel with
  | 0 => []
  | S fuel' =>
      match search re s i with
      | None => []
      | Some m =>
          m :: (if Nat.eqb (endIndex m) (index m) then []
                else exec_loop re fuel' (after m) (endIndex m))
      end
  end.

Definition exec_all (re : RegExp) (s : jsstring) : list rmatch_result :=
  exec_loop re (S (length s)) s 0.

(** [s.replace(re, f)] for a global pattern: every match, left to right,
    is replaced by [f match]; after an empty match the search moves on by
    one character (AdvanceStringIndex). *)
Fixpoint replace_loop (re : RegExp) (f : rmatch_result -> jsstring) (fuel : nat)
    (s : jsstring) (i : nat) : jsstring :=
  match fuel with
  | 0 => s
  | S fuel' =>
      match search re s i with
      | None => s
      | Some m =>
          firstn (index m - i) s ++ f m ++
          (if Nat.eqb (endIndex m) (index m) then
             match after m with
             | [] => []
             | c :: t => c :: replace_loop re f fuel' t (S (endIndex m))
             end
           else replace_loop re f fuel' (after m) (endIndex m))
      end
  end.

Definition replace (re : RegExp) (f : rmatch_result -> jsstring) (s : jsstring) : jsstring :=
  replace_loop re f (S (length s)) s 0.

Definition replace_with (re : RegExp) (by_ : jsstring) (s : jsstring) : jsstring :=
  replace re (fun _ => by_) s.

(** *** Notation for writing the patterns of the source *)

Definition g : flags := {| global := true; ignoreCase := false; dotAll := false |}.
Definition gi : flags := {| global := true; ignoreCase := true; dotAll := false |}.
Definition gis : flags := {| global := true; ignoreCase := true; dotAll := true |}.
Definition i_ : flags := {| global := false; ignoreCase := true; dotAll := false |}.
Definition no_flags : flags := {| global := false; ignoreCase := false; dotAll := false |}.

Fixpoint lit (s : string) : regex :=
  match s with
  | EmptyString => REmpty
  | String a EmptyString => RChar (code a)
  | String a t => RSeq (RChar (code a)) (lit t)
  end.

Fixpoint seq (rs : list regex) : regex :=
  match rs with
  | [] => REmpty
  | [r] => r
  | r :: rs' => RSeq r (seq rs')
  end.

Fixpoint alt (rs : list regex) : regex :=
  match rs with
  | [] => REmpty
  | [r] => r
  | r :: rs' => RAlt r (alt rs')
  end.

Definition star (r : regex) : regex := RRep 0 None true r.        (* [r*] *)
Definition plus (r : regex) : regex := RRep 1 None true r.        (* [r+] *)
Definition opt (r : regex) : regex := RRep 0 (Some 1) true r.     (* [r?] *)
Definition lazy_star (r : regex) : regex := RRep 0 None false r.  (* [r*?] *)
Definition at_least (n : nat) (r : regex) : regex := RRep n None true r.  (* [r{n,}] *)
Definition exactly (n : nat) (r : regex) : regex := RRep n (Some n) true r.  (* [r{n}] *)

Definition ch (c : char) : char * char := (c, c).
Definition rng (a b : ascii) : char * char := (code a, code b).
Definition chars (s : string) : list (char * char) := List.map ch (js s).

(** [\s] inside a class *)
Definition space_ranges : list (char * char) :=
  [(9, 13); (32, 32); (160, 160); (5760, 5760); (8192, 8202); (8232, 8233);
   (8239, 8239); (8287, 8287); (12288, 12288); (65279, 65279)]%N.

Definition digit_ranges : list (char * char) := [rng "0" "9"].          (* [\d] *)
Definition DQ : regex := RChar dquote.
Definition SQ : regex := RChar squote.
Definition BSL : regex := RChar backslash.

End Regex.
Import Regex.

(** ** What the server takes from its environment

    [decodeURIComponent] is the ECMAScript one (19.2.6.3) and is embedded
    in full.  The WHATWG URL parser behind [new URL], the HTML parser and
    selectors of cheerio, [JSON.parse] and [Math.random] are libraries the
    server only calls: they are parameters, and every theorem below holds
    whatever they return.  So is the size of the engine's call stack, which
    bounds the one recursion of the server that follows its input
    ([findVideoUrlsInObject]). *)

Module Env.

Definition hex_val (c : char) : option N :=
  (if (48 <=? c) && (c <=? 57) then Some (c - 48)
   else if (65 <=? c) && (c <=? 70) then Some (c - 55)
   else if (97 <=? c) && (c <=? 102) then Some (c - 87)
   else None)%N.

(** ParseHexOctet: [%XY] at the head of [s]. *)
Definition hex_octet (s : jsstring) : option (N * jsstring) :=
  match s with
  | p :: a :: b :: t =>
      if (p =? 37)%N then
        match hex_val a, hex_val b with
        | Some x, Some y => Some (16 * x + y, t)%N
        | _, _ => None
        end
      else None
  | _ => None
  end.

(** The [n] continuation octets that must follow, each escaped and of the
    form 10xxxxxx; [acc] collects the payload bits. *)
Fixpoint continuation (n : nat) (acc : N) (s : jsstring) : option (N * jsstring) :=
  match n with
  | 0 => Some (acc, s)
  | S n' =>
      match hex_octet s with
      | Some (b, t) =>
          if ((128 <=? b) && (b <=? 191))%N
          then continuation n' (acc * 64 + (b - 128))%N t
          else None
      | None => None
      end
  end.

Definition utf16 (v : N) : jsstring :=
  (if v <? 65536 then [v]
   else [55296 + (v - 65536) / 1024; 56320 + (v - 65536) mod 1024])%N.

(** One escape sequence: the code point it encodes in UTF-8, refused when
    the octets are not a well-formed encoding (overlong, a surrogate, or
    beyond U+10FFFF). *)
Definition decode_escape (s : jsstring) : option (jsstring * jsstring) :=
  match hex_octet s with
  | None => None
  | Some (b, t) =>
      (if b <? 128 then Some ([b], t)
       else if b <? 192 then None
       else if b <? 224 then
         match continuation 1 (b - 192) t with
         | Some (v, t') => if 128 <=? v then Some (utf16 v, t') else None
         | None => None
         end
       else if b <? 240 then
         match continuation 2 (b - 224) t with
         | Some (v, t') =>
             if (2048 <=? v) && negb ((55296 <=? v) && (v <=? 57343))
             then Some (utf16 v, t') else None
         | None => None
         end
       else if b <? 248 then
         match continuation 3 (b - 240) t with
         | Some (v, t') =>
             if (65536 <=? v) && (v <=? 1114111) then Some (utf16 v, t') else None
         | None => None
         end
       else None)%N
  end.

Fixpoint decode_loop (fuel : nat) (s : jsstring) : option jsstring :=
  match s with
  | [] => Some []
  | c :: t =>
      match fuel with
      | 0 => None
      | S fuel' =>
          if (c =? 37)%N then
            match decode_escape s with
            | Some (u, t') => option_map (app u) (decode_loop fuel' t')
            | None => None
            end
          else option_map (cons c) (decode_loop fuel' t)
      end
  end.

(** [decodeURIComponent]: [None] is the URIError it throws. *)
Definition decodeURIComponent (s : jsstring) : option jsstring :=
  decode_loop (length s) s.

(** What the server reads off a document loaded by cheerio: the [src]
    attribute of each [video] element and of each [source] element inside
    one ([None]: no such attribute), and the [html()] of each [script]
    element ([None]: null), all in document order. *)
Record cheerio_doc := {
  video_src : list (option jsstring);
  video_source_src : list (option jsstring);
  script_html : list (option jsstring)
}.

(** A parsed JSON text.  The members of an object and the elements of an
    array are listed in the order in which [for ... in] visits them. *)
#[local] Unset Elimination Schemes.
Inductive json : Type :=
| JNull
| JBoolean (b : bool)
| JNumber
| JString (s : jsstring)
| JArray (elements : list json)
| JObject (members : list (jsstring * json)).
#[local] Set Elimination Schemes.

Record Libs := {
  (** [new URL(s)] returns (rather than throws) *)
  URL_parses : jsstring -> bool;
  (** [cheerio.load(html)]; [None]: it throws *)
  cheerio_load : jsstring -> option cheerio_doc;
  (** [JSON.parse(text)]; [None]: it throws *)
  JSON_parse : jsstring -> option json;
  (** [Math.random()], the n-th call of an invocation: a number in [0, 1) *)
  Math_random : nat -> Q;
  (** the room on the call stack where [extractFromStructuredData] calls
      [findVideoUrlsInObject], counted in frames of that function: a call
      the stack has no room for throws a RangeError *)
  call_stack : nat;
  (** the room a call of [isValidVideoUrl] on a string takes, with the
      calls it makes in turn, in the same unit *)
  validator_frames : jsstring -> nat
}.

(** The libraries [L] with [r] for [Math.random]: another invocation. *)
Definition with_random (r : nat -> Q) (L : Libs) : Libs :=
  {| URL_parses := URL_parses L; cheerio_load := cheerio_load L;
     JSON_parse := JSON_parse L; Math_random := r;
     call_stack := call_stack L; validator_frames := validator_frames L |}.

(** A JavaScript value as far as [typeof] and truthiness tell it apart
    from a string. *)
Inductive value : Type :=
| Str (s : jsstring)
| Undefined
| Null
| Boolean (b : bool)
| Number (q : Q)
| Object.

End Env.
Import Env.

(** ** [class FacebookVideoExtractor] *)

Module Extractor.

(** *** The pattern tables of the constructor *)

Definition not_dq : regex := RClass true [ch dquote].                       (* no double quote *)
Definition not_q : regex := RClass true [ch squote; ch dquote].             (* neither quote *)
Definition url_char : regex := RClass true ([ch dquote; ch squote] ++ space_ranges).
Definition any_q : regex := RClass false [ch squote; ch dquote].            (* either quote *)

(** A JSON member [key: value] with the value captured: the key in double
    quotes, a colon, and a non-empty value free of double quotes. *)
Definition member (key : string) : regex :=
  seq [DQ; lit key; DQ; lit ":"; DQ; RGroup 1 (plus not_dq); DQ].

(** [https://] ... [word] ... [.mp4] with an optional query *)
Definition mp4_url (words : list regex) : regex :=
  seq ([lit "https://"] ++ words ++
       [star url_char; lit ".mp4"; opt (seq [lit "?"; star url_char])]).

(** A member whose value (after optional space) contains [.mp4] *)
Definition mp4_member (key : string) : regex :=
  seq [DQ; lit key; DQ; lit ":"; star (RClass false space_ranges); DQ;
       RGroup 1 (seq [star not_dq; lit ".mp4"; star not_dq]); DQ].

(** An attribute [name=] with a quoted value that contains [.mp4] *)
Definition mp4_attr (name : string) : regex :=
  seq [lit name; lit "="; any_q;
       RGroup 1 (seq [star not_q; lit ".mp4"; star not_q]); any_q].

(** [this.videoPatterns], lines 66-122, in order; all carry the flag [g]. *)
Definition videoPatterns : list RegExp :=
  List.map (fun r => {| source := r; rflags := g |})
  [ member "hd_src";                                   (* 0 *)
    member "sd_src";
    member "hd_src_no_ratelimit";
    member "sd_src_no_ratelimit";
    member "playable_url";                             (* 4 *)
    member "playable_url_quality_hd";
    member "browser_native_hd_url";
    member "browser_native_sd_url";
    member "playback_url";                             (* 8 *)
    member "video_url";
    member "videoUrl";
    member "videoSrc";
    member "playbackUrl";                              (* 12 *)
    (* 13: progressive, an opening bracket, lazily anything, a url member,
       lazily anything, a closing bracket *)
    seq [DQ; lit "progressive"; DQ; lit ":["; lazy_star RAny;
         DQ; lit "url"; DQ; lit ":"; DQ; RGroup 1 (plus not_dq); DQ;
         lazy_star RAny; lit "]"];
    (* 14: a url member followed, before any closing brace, by a quality member *)
    seq [DQ; lit "url"; DQ; lit ":"; DQ; RGroup 1 (plus not_dq); DQ;
         star (RClass true (chars "}"));
         DQ; lit "quality"; DQ; lit ":"; DQ; star not_dq; DQ];
    mp4_url [];                                        (* 15 *)
    mp4_url [star url_char; lit "video"];              (* 16 *)
    mp4_url [star url_char; lit "scontent"];
    mp4_url [star url_char; lit "fbcdn"];
    mp4_url [star url_char; lit "cdninstagram"];
    mp4_url [lit "video"; star url_char; lit ".facebook.com"];   (* 20 *)
    mp4_url [star url_char; lit ".fbcdn.net"];
    mp4_member "src";                                  (* 22 *)
    mp4_member "source";
    mp4_member "video";
    mp4_attr "data-src";                               (* 25 *)
    mp4_attr "src";
    member "dash_manifest";                            (* 27 *)
    member "download_url";
    seq [lit "blob:http"; opt (lit "s"); lit "://"; plus url_char];   (* 29 *)
    (* 30: two escaped slashes written backslash-u002F *)
    seq [lit "\u002F\u002F"; star not_dq; lit ".mp4"; star not_dq];
    (* 31: a quoted string with two backslash-escaped slashes and .mp4 *)
    seq [DQ; star not_dq; lit "\/\/"; star not_dq; lit ".mp4"; star not_dq; DQ]
  ].

Inductive quality_label := Q4K | Q2K | HD | SD | Low | UnknownQuality.

Definition quality_label_eqb (a b : quality_label) : bool :=
  match a, b with
  | Q4K, Q4K | Q2K, Q2K | HD, HD | SD, SD | Low, Low
  | UnknownQuality, UnknownQuality => true
  | _, _ => false
  end.

(** [this.qualityPatterns], lines 124-130; all carry the flag [i]. *)
Definition qualityPatterns : list (RegExp * quality_label) :=
  List.map (fun p => ({| source := alt (List.map lit (fst p)); rflags := i_ |}, snd p))
  [ (["hd"; "720p"; "1080p"; "high"]%string, HD);
    (["sd"; "480p"; "medium"]%string, SD);
    (["low"; "240p"; "360p"]%string, Low);
    (["4k"; "2160p"; "ultra"]%string, Q4K);
    (["2k"; "1440p"]%string, Q2K) ].

(** *** [cleanHtml], lines 241-251 *)

Definition hex_digit : regex := RClass false [rng "0" "9"; rng "a" "f"; rng "A" "F"].

(** [parseInt(code, 16)] on four hexadecimal digits *)
Definition parseInt16 (s : jsstring) : N :=
  fold_left (fun acc c => match hex_val c with Some d => 16 * acc + d | None => acc end)%N s 0%N.

Definition unicode_escape : RegExp :=                 (* backslash, u, four hex digits *)
  {| source := seq [lit "\u"; RGroup 1 (exactly 4 hex_digit)]; rflags := g |}.

Definition global (s : string) : RegExp := {| source := lit s; rflags := g |}.

Definition escaped_quote : RegExp :=                  (* backslash, double quote *)
  {| source := seq [BSL; DQ]; rflags := g |}.

Definition cleanHtml (html : jsstring) : jsstring :=
  let s := replace unicode_escape
             (fun m => match get_cap 1 (groups m) with
                       | Some code => [parseInt16 code]
                       | None => []
                       end) html in
  let s := replace_with escaped_quote [dquote] s in
  let s := replace_with (global "\\") [backslash] s in
  let s := replace_with (global "&quot;") [dquote] s in
  let s := replace_with (global "&amp;") (js "&") s in
  let s := replace_with (global "&lt;") (js "<") s in
  replace_with (global "&gt;") (js ">") s.

(** *** [decodeUrl], lines 253-283 *)

Definition wrapping_quote : RegExp :=                 (* a quote first or last *)
  {| source := alt [seq [RBol; any_q]; seq [any_q; REol]]; rflags := g |}.

Definition up_to_BaseURL : RegExp :=
  {| source := seq [RBol; star (RClass true (chars "h")); lit "<BaseURL>"]; rflags := gi |}.

Definition from_BaseURL_end : RegExp :=
  {| source := seq [lit "</BaseURL>"; star RAny]; rflags := gi |}.

Definition BaseURL_fragment : RegExp :=
  {| source := lit "><BaseURL>"; rflags := gi |}.

Definition xml_tag : RegExp :=
  {| source := seq [lit "<"; plus (RClass true (chars ">")); lit ">"]; rflags := g |}.

Definition a_backslash : RegExp := {| source := BSL; rflags := g |}.

(** The cleanup of the [catch] branch, line 281. *)
Definition basic_cleanup (url : jsstring) : jsstring :=
  trim (replace_with wrapping_quote [] (replace_with a_backslash [] url)).

(** Lines 260-266 of the [try] block: the wrapping quotes go, then the
    manifest tags and any other tag. *)
Definition strip_markup (url : jsstring) : jsstring :=
  let url := replace_with wrapping_quote [] url in
  let url := replace_with up_to_BaseURL [] url in
  let url := replace_with from_BaseURL_end [] url in
  let url := replace_with BaseURL_fragment [] url in
  replace_with xml_tag [] url.

Definition decodeUrl (arg : value) : jsstring :=
  match arg with
  | Str [] => []
  | Str url =>
      let url := strip_markup url in
      match decodeURIComponent (replace_with a_backslash [] url) with
      | Some url =>
          let url := replace_with (global "\u002F") (js "/") url in
          let url := replace_with (global "\/") (js "/") url in
          trim url
      | None =>
          (* the catch branch reads [url] as the try block left it *)
          basic_cleanup url
      end
  | _ => []
  end.

Section WithLibs.

Variable L : Libs.

(** *** [isValidVideoUrl], lines 285-352 *)

Definition word_char : regex :=
  RClass false [rng "A" "Z"; rng "a" "z"; rng "0" "9"; ch (code "_"); ch (code "-")].

(** forty or more word characters, then [.mp4] *)
Definition long_hash_mp4 : RegExp :=
  {| source := seq [at_least 40 word_char; lit ".mp4"]; rflags := no_flags |}.

Definition isValidVideoUrl (arg : value) : bool :=
  match arg with
  | Str [] => false
  | Str url =>
      if length url <? 200 then false
      else if negb (startsWith url (js "http://")) && negb (startsWith url (js "https://"))
      then false
      else if negb (URL_parses L url) then false
      else if negb (includes url (js ".mp4")) then false
      else
        let hasFacebookVideoIndicator :=
          (includes url (js "scontent") && includes url (js ".fna.fbcdn.net")) &&
          (includes url (js "/o1/v/") || includes url (js "/o2/v/")) &&
          includes url (js ".mp4?") &&
          (includes url (js "_nc_cat=") || includes url (js "&_nc_cat=")) &&
          test long_hash_mp4 url in
        let isDashOrSegment :=
          includes url (js ".mpd") || includes url (js "segment") ||
          includes url (js "manifest") || includes url (js "init.mp4") ||
          includes url (js "dash") in
        if isDashOrSegment then false
        else if hasFacebookVideoIndicator then true
        else false
  | _ => false
  end.

(** *** The classifier, lines 354-452 *)

Inductive video_type := MP4 | M4V | MOV | DASH.

Record ContentType := {
  ct_hasVideo : bool;
  ct_hasAudio : bool;
  description : string
}.

Record video := {
  url : jsstring;
  quality : quality_label;
  type : video_type;
  size_ : string;                (* the field [size] *)
  contentType : ContentType;
  hasVideo : bool;
  hasAudio : bool;
  resolution : string;
  thumbnail : unit               (* always null *)
}.

Definition detectQuality (url : jsstring) : quality_label :=
  match List.find (fun p => test (fst p) url) qualityPatterns with
  | Some p => snd p
  | None =>
      if includes url (js "hd") || includes url (js "720") || includes url (js "1080")
      then HD
      else if includes url (js "sd") || includes url (js "480") then SD
      else UnknownQuality
  end.

Definition detectType (url : jsstring) : video_type :=
  if includes url (js ".mp4") then MP4
  else if includes url (js ".m4v") then M4V
  else if includes url (js ".mov") then MOV
  else if includes url (js "dash") then DASH
  else MP4.

Definition estimateSize (q : quality_label) : string :=
  match q with
  | Q4K => "~500MB"
  | Q2K => "~200MB"
  | HD => "~100MB"
  | SD => "~50MB"
  | Low => "~20MB"
  | UnknownQuality => "Unknown"
  end.

(** Code that calls [Math.random] threads the number of calls made so far. *)
Definition Rand (A : Type) : Type := nat -> A * nat.
Definition ret {A} (a : A) : Rand A := fun n => (a, n).
Definition bind {A B} (m : Rand A) (f : A -> Rand B) : Rand B :=
  fun n => let '(a, n') := m n in f a n'.
Definition Math_random_call : Rand Q := fun n => (Math_random L n, S n).

(** The double nearest to 0.3, the constant of line 419. *)
Definition zero_point_three : Q := 5404319552844595 # 18014398509481984.

Definition describe (hasVideo hasAudio : bool) : string :=
  if hasVideo && hasAudio then "Video + Audio"
  else if hasVideo then "Video Only"
  else if hasAudio then "Audio Only"
  else "Unknown".

Definition detectContentType (url : jsstring) : Rand ContentType :=
  let hasVideo := true in
  bind
    (if includes url (js "/m78/") || includes url (js "/m69/") ||
        includes url (js "/m366/") || includes url (js "/m412/")
     then
       if includes url (js "/m69/")
       then bind Math_random_call (fun r => ret (negb (Qle_bool r zero_point_three)))
       else ret true
     else ret true)
    (fun hasAudio =>
       ret {| ct_hasVideo := hasVideo; ct_hasAudio := hasAudio;
              description := describe hasVideo hasAudio |}).

Definition detectResolution (url : jsstring) : string :=
  if includes url (js "1080") || includes url (js "hd") then "1080p"
  else if includes url (js "720") then "720p"
  else if includes url (js "480") then "480p"
  else if includes url (js "360") then "360p"
  else if includes url (js "/m78/") then "720p+"
  else if includes url (js "/m412/") then "1080p+"
  else if includes url (js "/m366/") then "480p"
  else if includes url (js "/m69/") then "360p"
  else "Auto".

Definition generateThumbnail (url : jsstring) : unit := tt.

Definition createVideoObject (url : jsstring) : Rand video :=
  let quality := detectQuality url in
  let type := detectType url in
  bind (detectContentType url) (fun contentType =>
  ret {| url := url;
         quality := quality;
         type := type;
         size_ := estimateSize quality;
         contentType := contentType;
         hasVideo := ct_hasVideo contentType;
         hasAudio := ct_hasAudio contentType;
         resolution := detectResolution url;
         thumbnail := generateThumbnail url |}).

(** *** The scan of [extractVideos], lines 133-239 *)

(** [videos], [foundUrls] and the number of [Math.random] calls so far. *)
Record scan := {
  videos : list video;
  foundUrls : gset jsstring;
  calls : nat
}.

(** [foundUrls.add(url); videos.push(this.createVideoObject(url))] *)
Definition add_video (url : jsstring) (st : scan) : scan :=
  let '(v, n) := createVideoObject url (calls st) in
  {| videos := videos st ++ [v]; foundUrls := {[url]} ∪ foundUrls st; calls := n |}.

Definition has (s : gset jsstring) (url : jsstring) : bool := bool_decide (url ∈ s).

(** [match[1]] when it is truthy, else [match[0]], decoded (lines 153-157). *)
Definition candidate (m : rmatch_result) : jsstring :=
  match get_cap 1 (groups m) with
  | Some (c :: s) => decodeUrl (Str (c :: s))
  | _ => decodeUrl (Str (matched m))
  end.

(** The guards of lines 159-175: the candidate is long enough, free of
    markup and manifest markers, and starts with the http or https scheme. *)
Definition passes_guards (url : jsstring) : bool :=
  negb (length url <? 20) &&
  negb (includes url (js "<") || includes url (js ">") || includes url (js "BaseURL") ||
        includes url (js "SegmentBase") || includes url (js "indexRange")) &&
  negb (negb (startsWith url (js "http://")) && negb (startsWith url (js "https://"))).

(** The signature that lets a match of pattern 31 in without validation. *)
Definition permissive (url : jsstring) : bool :=
  includes url (js "scontent") && includes url (js ".mp4").

(** One turn of the [while] loop of lines 148-195. *)
Definition visit (index : nat) (st : scan) (m : rmatch_result) : scan :=
  let url := candidate m in
  if negb (passes_guards url) then st
  else if Nat.eqb index 31 && permissive url then
    if has (foundUrls st) url then st else add_video url st
  else if isValidVideoUrl (Str url) && negb (has (foundUrls st) url)
  then add_video url st
  else st.

Definition indexed {A} (l : list A) : list (nat * A) :=
  List.combine (List.seq 0 (length l)) l.

(** [this.videoPatterns.forEach((pattern, index) => ...)], lines 143-200 *)
Definition scan_patterns (cleanHtml : jsstring) (st : scan) : scan :=
  fold_left
    (fun st p => fold_left (visit (fst p)) (exec_all (snd p) cleanHtml) st)
    (indexed videoPatterns) st.

(** *** [fallbackVideoSearch], lines 1026-1067 *)

Definition loose_char : regex :=
  RClass true (space_ranges ++ [ch dquote; ch squote; ch (code "<"); ch (code ">")]).

Definition loose_mp4_url (words : list regex) : regex :=
  seq ([lit "http"; opt (lit "s"); lit "://"] ++ words ++
       [star loose_char; lit ".mp4"; star loose_char]).

Definition quoted_mp4_url (q : char) : regex :=
  seq [RChar q;
       RGroup 1 (seq [lit "http"; opt (lit "s"); lit "://"; star (RClass true [ch q]);
                      lit ".mp4"; star (RClass true [ch q])]);
       RChar q].

Definition fallbackPatterns : list RegExp :=
  List.map (fun r => {| source := r; rflags := gi |})
  [ loose_mp4_url [];
    loose_mp4_url [star loose_char; lit "video"];
    loose_mp4_url [star loose_char; lit "scontent"];
    loose_mp4_url [star loose_char; lit "fbcdn"];
    quoted_mp4_url dquote;
    quoted_mp4_url squote ].

(** [match[1] || match[0]], decoded (lines 1049-1050) *)
Definition fallback_candidate (m : rmatch_result) : jsstring :=
  match get_cap 1 (groups m) with
  | Some (c :: s) => decodeUrl (Str (c :: s))
  | _ => decodeUrl (Str (matched m))
  end.

Definition fallback_visit (st : scan) (m : rmatch_result) : scan :=
  let url := fallback_candidate m in
  if isValidVideoUrl (Str url) && negb (has (foundUrls st) url)
  then add_video url st
  else st.

Definition fallbackVideoSearch (html : jsstring) (st : scan) : scan :=
  fold_left (fun st p => fold_left fallback_visit (exec_all p html) st)
    fallbackPatterns st.

(** *** [extractWithCheerio], lines 936-981 *)

(** [videos.push(...)] for every url of the list that is valid *)
Fixpoint push_valid (urls : list jsstring) (acc : list video) : Rand (list video) :=
  match urls with
  | [] => ret acc
  | u :: rest =>
      if isValidVideoUrl (Str u)
      then bind (createVideoObject u) (fun v => push_valid rest (acc ++ [v]))
      else push_valid rest acc
  end.

(** [src && this.isValidVideoUrl(src)]: an absent attribute is skipped (an
    empty one is not a valid url either). *)
Definition present (srcs : list (option jsstring)) : list jsstring :=
  List.flat_map (fun o => match o with Some s => [s] | None => [] end) srcs.

(** [this.decodeUrl(match[1])], line 967: [match[1]] is undefined for a
    pattern without a group. *)
Definition script_candidate (m : rmatch_result) : jsstring :=
  match get_cap 1 (groups m) with
  | Some s => decodeUrl (Str s)
  | None => decodeUrl Undefined
  end.

Definition script_candidates (content : jsstring) : list jsstring :=
  if includes content (js "video")
  then List.flat_map (fun p => List.map script_candidate (exec_all p content)) videoPatterns
  else [].

Definition extractWithCheerio (html : jsstring) : Rand (list video) :=
  match cheerio_load L html with
  | None => ret []
  | Some doc =>
      bind (push_valid (present (video_src doc)) []) (fun videos =>
      bind (push_valid (present (video_source_src doc)) videos) (fun videos =>
      push_valid (List.flat_map script_candidates (present (script_html doc))) videos))
  end.

(** *** [extractFromStructuredData] and [findVideoUrlsInObject], lines 983-1024 *)

Definition jsonLdRegex : RegExp :=
  {| source :=
       seq [lit "<script"; star (RClass true (chars ">"));
            lit "type="; any_q; lit "application/ld+json"; any_q;
            star (RClass true (chars ">")); lit ">";
            RGroup 1 (lazy_star RAny); lit "</script>"];
     rflags := gis |}.

(** One turn of the loop [for (const key in obj)], lines 1015-1021, for the
    value [obj[key]]: a string is handed to [isValidVideoUrl], an array, an
    object and null ([typeof null] is ['object']) to the function itself,
    one frame further down the stack, with the same array [urls].  [room]
    is what the stack has left under the frame of the loop, and [None] the
    RangeError of a call it has no room for; nothing in the walk catches
    it. *)
Definition visit_value (walk : json -> option (list jsstring)) (room : nat)
    (urls : option (list jsstring)) (value : json) : option (list jsstring) :=
  match urls with
  | None => None
  | Some urls =>
      match value with
      | JString s =>
          if validator_frames L s <=? room
          then Some (if isValidVideoUrl (Str s) then urls ++ [s] else urls)
          else None
      | JArray _ | JObject _ | JNull => option_map (app urls) (walk value)
      | JBoolean _ | JNumber => Some urls
      end
  end.

(** Lines 1012-1024.  [stack] is the room on the call stack when the
    function is called: with none, the call itself is the RangeError
    (Maximum call stack size exceeded); otherwise its frame takes one, and
    what is not an array or an object (null included) returns [urls] as it
    is. *)
Fixpoint findVideoUrlsInObject (stack : nat) (obj : json) : option (list jsstring) :=
  match stack with
  | 0 => None
  | S room =>
      match obj with
      | JArray elements =>
          fold_left (visit_value (findVideoUrlsInObject room) room) elements (Some [])
      | JObject members =>
          fold_left (visit_value (findVideoUrlsInObject room) room)
            (List.map snd members) (Some [])
      | _ => Some []
      end
  end.

(** The body of the loop of lines 991-1003 for one match: a block that
    [JSON.parse] refuses, or whose walk overflows the stack, is skipped by
    the [catch] of line 1000. *)
Definition structured_urls (m : rmatch_result) : list jsstring :=
  match get_cap 1 (groups m) with
  | Some text =>
      match JSON_parse L text with
      | Some jsonData =>
          match findVideoUrlsInObject (call_stack L) jsonData with
          | Some videoUrls => videoUrls
          | None => []
          end
      | None => []
      end
  | None => []
  end.

Definition extractFromStructuredData (html : jsstring) : Rand (list video) :=
  push_valid (List.flat_map structured_urls (exec_all jsonLdRegex html)) [].

(** *** [sortVideosByQuality], lines 1069-1077 *)

(** [Array.prototype.sort] is stable; for a comparator that orders by a
    key, it returns the one stable arrangement, which insertion computes:
    [a] stays before [b] unless [compare a b > 0]. *)
Section Sort.
Context {A : Type} (compare : A -> A -> Z).

Fixpoint insert (a : A) (l : list A) : list A :=
  match l with
  | [] => [a]
  | b :: l' => if (0 <? compare a b)%Z then b :: insert a l' else a :: l
  end.

Definition sort (l : list A) : list A := fold_right insert [] l.
End Sort.

Definition qualityOrder (q : quality_label) : Z :=
  match q with
  | Q4K => 0 | Q2K => 1 | HD => 2 | SD => 3 | Low => 4 | UnknownQuality => 5
  end%Z.

(** [qualityOrder[q] || 5]: the number 0 is falsy. *)
Definition order_or_5 (q : quality_label) : Z :=
  if (qualityOrder q =? 0)%Z then 5%Z else qualityOrder q.

Definition sortVideosByQuality (videos : list video) : list video :=
  sort (fun a b => order_or_5 (quality a) - order_or_5 (quality b))%Z videos.

(** *** [extractVideos] *)

Definition add_if_new (st : scan) (v : video) : scan :=
  if has (foundUrls st) (url v) then st
  else {| videos := videos st ++ [v]; foundUrls := {[url v]} ∪ foundUrls st;
          calls := calls st |}.

(** [others.forEach(video => ...)], lines 212-217 and 223-228, for the
    videos [others] that [extract] returns. *)
Definition merge (extract : Rand (list video)) (st : scan) : scan :=
  let '(others, n) := extract (calls st) in
  fold_left add_if_new others
    {| videos := videos st; foundUrls := foundUrls st; calls := n |}.

(** The state after the pattern loop and the fallback search. *)
Definition scanned (cleanHtml : jsstring) : scan :=
  let st := scan_patterns cleanHtml {| videos := []; foundUrls := ∅; calls := 0 |} in
  if Nat.eqb (length (videos st)) 0 then fallbackVideoSearch cleanHtml st else st.

(** The state before the final sort. *)
Definition collected (html : jsstring) : scan :=
  let cleanHtml := cleanHtml html in
  let st := scanned cleanHtml in
  let st := merge (extractWithCheerio cleanHtml) st in
  merge (extractFromStructuredData cleanHtml) st.

Definition extractVideos (html : jsstring) : list video :=
  sortVideosByQuality (videos (collected html)).

(** *** Scores and content types by format code, lines 862-934 *)

Definition path_code (codes : list string) : RegExp :=     (* a slash, m, one of the codes *)
  {| source := seq [lit "/m"; RGroup 1 (alt (List.map lit codes))]; rflags := no_flags |}.

Definition plain (s : string) : RegExp := {| source := lit s; rflags := no_flags |}.

Definition highQualityVideoAudio : RegExp := path_code ["412"; "540"; "720"; "1080"]%string.
Definition standardQualityVideoAudio : RegExp := plain "/m366".
Definition audioOptimized : RegExp := plain "/m78".
Definition lowerQuality : RegExp := plain "/m69".

Definition getQualityScore (url : jsstring) : Z :=
  (if test highQualityVideoAudio url then 100
   else if test standardQualityVideoAudio url then 80
   else if test audioOptimized url then 60
   else if test lowerQuality url then 20
   else if includes url (js "1080") || includes url (js "hd") then 90
   else if includes url (js "720") then 85
   else if includes url (js "480") then 70
   else if includes url (js "360") then 50
   else 40)%Z.

Inductive quality_band := high | standard | audio_optimized | low | unknown.

Record Analysis := {
  a_hasVideo : bool;
  a_hasAudio : bool;
  a_quality : quality_band;
  a_description : string
}.

Definition analyzeContentType (url : jsstring) : Analysis :=
  if test highQualityVideoAudio url then
    {| a_hasVideo := true; a_hasAudio := true; a_quality := high;
       a_description := "High Quality Video + Audio" |}
  else if test standardQualityVideoAudio url then
    {| a_hasVideo := true; a_hasAudio := true; a_quality := standard;
       a_description := "Standard Quality Video + Audio" |}
  else if test audioOptimized url then
    {| a_hasVideo := true; a_hasAudio := true; a_quality := audio_optimized;
       a_description := "Audio Optimized Video" |}
  else if test lowerQuality url then
    {| a_hasVideo := true; a_hasAudio := false; a_quality := low;
       a_description := "Video Only (Low Quality)" |}
  else
    {| a_hasVideo := true; a_hasAudio := true; a_quality := unknown;
       a_description := "Video + Audio" |}.

(** *** Grouping, lines 537-628 *)

Definition main_hash : RegExp :=        (* a slash, forty or more word characters, a dot *)
  {| source := seq [lit "/"; RGroup 1 (at_least 40 word_char); lit "."];
     rflags := no_flags |}.

Definition f2_path : RegExp :=          (* /f2/ and the word characters after it *)
  {| source := seq [lit "/f2/"; RGroup 1 (plus word_char)]; rflags := no_flags |}.

Definition group1 (m : option rmatch_result) : option jsstring :=
  match m with
  | Some r => get_cap 1 (groups r)
  | None => None
  end.

Definition extractBaseVideoId (url : jsstring) : jsstring :=
  match group1 (match_first main_hash url) with
  | Some hash => substring0 30 hash
  | None =>
      match group1 (match_first f2_path url) with
      | Some id => id
      | None =>
          let filename :=
            split_first (code ".") (split_first (code "?") (split_last (code "/") url)) in
          substring0 20 filename
      end
  end.

(** The [Map] from base id to group: its entries in insertion order, which
    is the order in which [forEach] visits them. *)
Definition videoMap := list (jsstring * list video).

(** [if (!videoMap.has(baseId)) videoMap.set(baseId, []);
    videoMap.get(baseId).push(video)] *)
Fixpoint push_to_group (baseId : jsstring) (v : video) (m : videoMap) : videoMap :=
  match m with
  | [] => [(baseId, [v])]
  | (k, group) :: m' =>
      if str_eqb k baseId then (k, group ++ [v]) :: m'
      else (k, group) :: push_to_group baseId v m'
  end.

Definition has_high_quality_code (url : jsstring) : bool :=
  includes url (js "/m412/") || includes url (js "/m540/") || includes url (js "/m366/").

(** The set [formats] of lines 592-598 is filled and never read. *)
Definition isMainVideoGroup (group : list video) : bool :=
  if length group <? 1 then false
  else existsb (fun v => has_high_quality_code (url v)) group.

Definition by_score_descending (a b : video) : Z :=
  (getQualityScore (url b) - getQualityScore (url a))%Z.

Definition is_low (q : quality_band) : bool :=
  match q with low => true | _ => false end.

Definition content_complete (v : video) : bool :=
  let contentType := analyzeContentType (url v) in
  a_hasVideo contentType && a_hasAudio contentType && negb (is_low (a_quality contentType)).

Definition selectBestVideoFromGroup (group : list video) : option video :=
  let validVideos := List.filter content_complete group in
  match sort by_score_descending validVideos with
  | [] => None
  | best :: _ => Some best
  end.

Definition identifyMainVideos (videos : list video) : list video :=
  let videoMap :=
    fold_left (fun m v => push_to_group (extractBaseVideoId (url v)) v m) videos [] in
  List.flat_map
    (fun entry =>
       if isMainVideoGroup (snd entry) then
         match selectBestVideoFromGroup (snd entry) with
         | Some bestVideo => [bestVideo]
         | None => []
         end
       else [])
    videoMap.

(** *** [limitResults], lines 839-853 *)

Definition limitResults (videos : list video) (maxVideos : nat) : list video :=
  if length videos <=? maxVideos then videos
  else firstn maxVideos (sort by_score_descending videos).

(** *** [contextualVideoFiltering], lines 678-857 *)

Definition spaces : regex := star (RClass false space_ranges).
Definition digits : regex := plus (RClass false digit_ranges).
Definition quoted_value : regex := seq [DQ; plus not_dq; DQ].

(** A member whose value is an object that mentions the key [video] before
    its first closing brace. *)
Definition object_with_video (key : string) : regex :=
  seq [DQ; lit key; DQ; lit ":"; spaces; lit "{"; star (RClass true (chars "}"));
       DQ; lit "video"; DQ].

Definition string_member (key : string) : regex :=
  seq [DQ; lit key; DQ; lit ":"; quoted_value].

Definition videoPostPatterns : list RegExp :=
  List.map (fun r => {| source := r; rflags := g |})
  [ seq [DQ; lit "video_post"; DQ];
    seq [DQ; lit "story_attachment"; DQ];
    object_with_video "attachment";
    object_with_video "media";
    seq [DQ; lit "video_id"; DQ; lit ":"; spaces; quoted_value];
    string_member "playable_url";
    string_member "playable_url_quality_hd";
    string_member "browser_native_hd_url";
    string_member "browser_native_sd_url";
    string_member "permalink_url";
    string_member "permalinkUrl" ].

(** [sourceCode.substring(start, end)] around a match, lines 702-704 *)
Definition context_of (sourceCode : jsstring) (m : rmatch_result) : jsstring :=
  let start := Nat.max 0 (index m - 2000) in
  let end_ := Nat.min (length sourceCode) (index m + 2000) in
  firstn (end_ - start) (skipn start sourceCode).

Definition numeric_member (key : string) : regex :=
  seq [DQ; lit key; DQ; lit ":"; DQ; RGroup 1 digits; DQ].

Definition videoIdPatterns : list RegExp :=
  List.map (fun r => {| source := r; rflags := g |})
  [ numeric_member "video_id";
    numeric_member "videoId";
    seq [numeric_member "id"; lit ","; DQ; lit "is_video"; DQ; lit ":true"];
    seq [lit "data-video-id="; DQ; RGroup 1 digits; DQ] ].

Definition extractVideoIdsFromContext (sourceCode : jsstring) : gset jsstring :=
  fold_left
    (fun ids p =>
       fold_left
         (fun ids m =>
            match get_cap 1 (groups m) with
            | Some (c :: id) => if 5 <? length (c :: id) then {[c :: id]} ∪ ids else ids
            | _ => ids
            end)
         (exec_all p sourceCode) ids)
    videoIdPatterns ∅.

Definition urlIdPatterns : list RegExp :=
  List.map (fun r => {| source := r; rflags := no_flags |})
  [ seq [lit "/videos/"; RGroup 1 digits];
    seq [lit "/video_redirect/?video_id="; RGroup 1 digits];
    seq [lit "video_id="; RGroup 1 digits] ].

Definition extractVideoId (url : jsstring) : option jsstring :=
  List.fold_right
    (fun p later =>
       match group1 (match_first p url) with
       | Some (c :: id) => Some (c :: id)
       | _ => later
       end)
    None urlIdPatterns.

Definition hash_in_path : RegExp :=     (* a slash, thirty or more word characters, a dot *)
  {| source := seq [lit "/"; RGroup 1 (at_least 30 word_char); lit "."];
     rflags := no_flags |}.

Definition extractVideoHash (url : jsstring) : jsstring :=
  match group1 (match_first hash_in_path url) with
  | Some h => h
  | None => []
  end.

Definition isHighQualityVideo (url : jsstring) : bool :=
  includes url (js "/m412/") || includes url (js "/m540/") || includes url (js "/m366/").

Definition isMainContentVideo (url : jsstring) : bool :=
  (includes url (js "/m412/") || includes url (js "/m540/") || includes url (js "/m366/")) &&
  (includes url (js "_nc_cat=") || includes url (js "&_nc_cat=")) &&
  (includes url (js "efg=") || includes url (js "&efg=")) &&
  (includes url (js "oh=") || includes url (js "_nc_ohc=")) &&
  (includes url (js "_nc_ht=") || includes url (js "&_nc_ht=")) &&
  (350 <? length url) &&
  test long_hash_mp4 url &&
  negb (includes url (js "preview")) &&
  negb (includes url (js "thumb")) &&
  negb (includes url (js "dash")) &&
  negb (includes url (js "segment")) &&
  negb (includes url (js "manifest")) &&
  negb (includes url (js "init.mp4")).

(** The flag [hasMainVideoIndicators] of lines 713-716 is computed and
    never read. *)
Definition contextualVideoFiltering (videos : list video) (sourceCode : jsstring)
    : list video :=
  let videoPostContexts :=
    List.flat_map (fun p => List.map (context_of sourceCode) (exec_all p sourceCode))
      videoPostPatterns in
  let videoIds := extractVideoIdsFromContext sourceCode in
  let contextualVideos :=
    List.filter
      (fun video =>
         let videoHash := extractVideoHash (url video) in
         let videoId := extractVideoId (url video) in
         let matchesContext :=
           existsb (fun context => includes context videoHash) videoPostContexts in
         let matchesVideoId :=
           match videoId with
           | Some id => has videoIds id
           | None => false
           end in
         (matchesContext || matchesVideoId) && isMainContentVideo (url video))
      videos in
  if Nat.eqb (length contextualVideos) 0 && (0 <? length videos) then
    limitResults
      (List.filter (fun video => isHighQualityVideo (url video) && isMainContentVideo (url video))
         videos)
      15
  else limitResults contextualVideos 15.

End WithLibs.

End Extractor.
Import Extractor.

(** ** The route [POST /extract-videos], lines 1088-1208 *)

Module Server.

Section WithLibs.

Variable L : Libs.

Inductive client_error :=
| not_a_string          (* Source code is required and must be a string. *)
| too_short             (* Source code seems too short. ... *)
| too_large             (* Source code is too large. ... *)
| not_html.             (* The provided content does not appear to be valid HTML ... *)

Inductive message_kind :=
| extracted             (* Successfully extracted n Facebook video(s) from the page *)
| specific_pattern      (* Found n Facebook video(s) using specific pattern matching *)
| none_found.           (* No Facebook videos found in the source code. ... *)

Record body := {
  resp_videos : list video;
  count : nat;
  message : message_kind;
  totalFound : nat;
  filteredCount : nat
}.

Inductive response :=
| status_400 (error : client_error)
| status_200 (reply : body).

Definition is_facebook_video (video : video) : bool :=
  let u := url video in
  let isFacebookVideo :=
    includes u (js "facebook.com") || includes u (js "fbcdn.net") ||
    includes u (js "scontent") || includes u (js "fbvideo") in
  let hasFacebookStructure :=
    includes u (js "?") &&
    (includes u (js "dlid=") || includes u (js "format=") || includes u (js "quality=") ||
     includes u (js "v/") || includes u (js "/v/") || includes u (js "/videos/")) in
  isFacebookVideo || hasFacebookStructure.

Definition fbVideoPattern : RegExp :=
  {| source :=
       seq [RAlt DQ SQ;
            RGroup 1 (seq [lit "http"; opt (lit "s"); lit "://"; star not_q; lit "scontent";
                           star not_q; lit ".mp4"; star not_q]);
            RAlt DQ SQ];
     rflags := gi |}.

(** [additionalUrls.add(url)]: a [Set] keeps its members in insertion
    order, the order in which [Array.from] lists them. *)
Definition set_add (urls : list jsstring) (url : jsstring) : list jsstring :=
  if existsb (str_eqb url) urls then urls else urls ++ [url].

Definition additional_urls (sourceCode : jsstring) : list jsstring :=
  fold_left
    (fun urls m =>
       let url := decodeUrl (match get_cap 1 (groups m) with
                             | Some s => Str s
                             | None => Undefined
                             end) in
       if isValidVideoUrl L (Str url) then set_add urls url else urls)
    (exec_all fbVideoPattern sourceCode) [].

Fixpoint create_all (urls : list jsstring) : Rand (list video) :=
  match urls with
  | [] => ret []
  | u :: rest =>
      bind (createVideoObject L u) (fun v =>
      bind (create_all rest) (fun vs => ret (v :: vs)))
  end.

(** The handler behind the rate limiter, for the value of
    [req.body.sourceCode].  [extractVideos] does not throw on a string, so
    the status 500 of the [catch] branch is never sent. *)
Definition extract_videos_route (sourceCode : value) : response :=
  match sourceCode with
  | Str [] => status_400 not_a_string
  | Str src =>
      if length src <? 1000 then status_400 too_short
      else if (50 * 1024 * 1024 <? N.of_nat (length src))%N then status_400 too_large
      else if negb (includes src (js "<html")) && negb (includes src (js "<!DOCTYPE"))
      then status_400 not_html
      else
        let videos := extractVideos L src in
        let facebookVideos := List.filter is_facebook_video videos in
        if 0 <? length facebookVideos then
          status_200 {| resp_videos := facebookVideos;
                        count := length facebookVideos;
                        message := extracted;
                        totalFound := length videos;
                        filteredCount := length facebookVideos |}
        else
          let additionalUrls := additional_urls src in
          if 0 <? length additionalUrls then
            let additionalVideos := fst (create_all additionalUrls (calls (collected L src))) in
            status_200 {| resp_videos := additionalVideos;
                          count := length additionalVideos;
                          message := specific_pattern;
                          totalFound := length videos;
                          filteredCount := length additionalVideos |}
          else
            status_200 {| resp_videos := [];
                          count := 0;
                          message := none_found;
                          totalFound := length videos;
                          filteredCount := 0 |}
  | _ => status_400 not_a_string
  end.

End WithLibs.

End Server.

(** ** The strict filter of the class, lines 455-534 and 631-675

    [filterUniqueHighQualityVideos] with [isLikelyMainVideo],
    [limitToMainContent] and [getVideoFormatKey]. *)

Module MainContent.

Definition good_quality_path : RegExp :=     (* a slash, m, one of 366, 412, 540, a slash *)
  {| source := seq [lit "/m"; RGroup 1 (alt (List.map lit ["366"; "412"; "540"]%string));
                    lit "/"];
     rflags := no_flags |}.

Definition preview_words : RegExp :=
  {| source := alt (List.map lit ["preview"; "thumb"; "segment"; "chunk"; "short";
                                  "snippet"; "dash"; "manifest"]%string);
     rflags := i_ |}.

(** scontent, anything, [.fna.fbcdn.net], anything, [/o], a digit, [/v/t],
    a digit, [/f2/] *)
Definition fb_structure : RegExp :=
  {| source := seq [lit "scontent"; star RAny; lit ".fna.fbcdn.net"; star RAny;
                    lit "/o"; RClass false digit_ranges; lit "/v/t";
                    RClass false digit_ranges; lit "/f2/"];
     rflags := no_flags |}.

Definition isLikelyMainVideo (url : jsstring) : bool :=
  let hasGoodQuality := test good_quality_path url in
  if negb hasGoodQuality then false
  else if length url <? 300 then false
  else
    let isPreview := test preview_words url in
    if isPreview then false
    else
      let hasFBStructure := test fb_structure url in
      if negb hasFBStructure then false
      else
        let hasVideoParams :=
          includes url (js "_n.mp4") &&
          (includes url (js "_nc_cat=") || includes url (js "&_nc_cat=")) &&
          (includes url (js "efg=") || includes url (js "&efg=")) in
        if negb hasVideoParams then false
        else
          let hasRealVideoIndicators :=
            test long_hash_mp4 url &&
            (includes url (js "_nc_ht=") || includes url (js "&_nc_ht=")) &&
            (includes url (js "oh=") || includes url (js "&oh=") ||
             includes url (js "_nc_ohc=")) in
          if negb hasRealVideoIndicators then false
          else if includes url (js ".mpd") || includes url (js "segment") ||
                  includes url (js "init.mp4")
          then false
          else true.

Definition getVideoFormatKey (url : jsstring) : jsstring :=
  if includes url (js "/m412/") then js "hd-m412"
  else if includes url (js "/m540/") then js "hd-m540"
  else if includes url (js "/m366/") then js "sd-m366"
  else if includes url (js "/m78/") then js "audio-m78"
  else if includes url (js "1080") then js "hd-1080"
  else if includes url (js "720") then js "hd-720"
  else if includes url (js "480") then js "sd-480"
  else js "other".

(** The [Map] [videoGroups] is filled in the order of the sorted array and
    read in insertion order; [slice(0, 3)] takes the first three of a group. *)
Definition limitToMainContent (videos : list video) : list video :=
  if length videos <=? 20 then videos
  else
    let videos := sort by_score_descending videos in
    let videoGroups :=
      fold_left (fun m v => push_to_group (getVideoFormatKey (url v)) v m) videos [] in
    List.flat_map (fun entry => firstn 3 (snd entry)) videoGroups.

Definition id_char : regex :=
  RClass false [rng "a" "z"; rng "A" "Z"; rng "0" "9"; ch (code "_"); ch (code "-")].

Definition alphanumeric : regex := RClass false [rng "a" "z"; rng "A" "Z"; rng "0" "9"].

(** a slash, thirty or more id characters, a dot, letters or digits, a
    question mark *)
Definition proper_format : RegExp :=
  {| source := seq [lit "/"; at_least 30 id_char; lit "."; plus alphanumeric; lit "?"];
     rflags := no_flags |}.

Definition filterUniqueHighQualityVideos (videos : list video) : list video :=
  let mainVideos := identifyMainVideos videos in
  let filteredVideos :=
    List.filter
      (fun video =>
         let contentType := analyzeContentType (url video) in
         let isMainVideo := isLikelyMainVideo (url video) in
         let isHighQuality := isHighQualityVideo (url video) in
         let isProperLength := 300 <? length (url video) in
         let hasProperFormat := test proper_format (url video) in
         a_hasVideo contentType && a_hasAudio contentType && isMainVideo &&
         isHighQuality && isProperLength && hasProperFormat)
      mainVideos in
  limitToMainContent filteredVideos.

End MainContent.

(** ** The route [GET /proxy-video], lines 1211-1264, up to the request it
    sends upstream *)

Module Proxy.

(** [req.query.url] as the query parser hands it over: absent, a string,
    an array (the parameter repeated) or an object (the parameter with a
    bracketed key). *)
#[local] Unset Elimination Schemes.
Inductive query_value :=
| absent
| text (s : jsstring)
| array (items : list query_value)
| nested.
#[local] Set Elimination Schemes.

Inductive proxy_error :=
| url_required            (* 400, URL parameter is required *)
| only_facebook           (* 400, Only Facebook video URLs are allowed *)
| failed_to_proxy.        (* 500, Failed to proxy video *)

(** Either an error reply, or the call [fetch(url, { headers })] with the
    [Range] header it carries; what the upstream server answers is beyond
    the handler. *)
Inductive proxy_step :=
| reply_error (e : proxy_error)
| fetch (url : query_value) (range : jsstring).

Definition is_text (p : jsstring) (v : query_value) : bool :=
  match v with
  | text s => str_eqb s p
  | _ => false
  end.

(** [req.headers.range || 'bytes=0-'] *)
Definition range_header (range : option jsstring) : jsstring :=
  match range with
  | Some (c :: s) => c :: s
  | _ => js "bytes=0-"
  end.

(** On an array [url.includes] is [Array.prototype.includes]; an object
    has no method [includes], and the [TypeError] is caught. *)
Definition proxy_video (url : query_value) (range : option jsstring) : proxy_step :=
  match url with
  | absent | text [] => reply_error url_required
  | text s =>
      if negb (includes s (js "fbcdn.net")) && negb (includes s (js "facebook.com"))
      then reply_error only_facebook
      else fetch url (range_header range)
  | array items =>
      if negb (existsb (is_text (js "fbcdn.net")) items) &&
         negb (existsb (is_text (js "facebook.com")) items)
      then reply_error only_facebook
      else fetch url (range_header range)
  | nested => reply_error failed_to_proxy
  end.

End Proxy.

(** ** The form of the page, [script.js] lines 38-55 *)

Module Client.

Inductive form_error :=
| nothing_pasted          (* Please paste the Facebook page source code. *)
| seems_too_short.        (* The source code seems too short. ... *)

(** What the submit handler does with the text of the textarea: it shows
    an error, or posts [{ sourceCode }] to [/extract-videos]. *)
Inductive submission :=
| showError (e : form_error)
| extractVideoLinks (sourceCode : jsstring).

Definition submit (value : jsstring) : submission :=
  let sourceCode := trim value in
  match sourceCode with
  | [] => showError nothing_pasted
  | _ :: _ =>
      if length sourceCode <? 1000 then showError seems_too_short
      else extractVideoLinks sourceCode
  end.

End Client.

(** * Properties *)

(** ** The matcher

    A successful match hands its continuation a position further on in
    the same input; a pattern that is not [nullable] consumes at least one
    character. *)

Module RegexFacts.

Fixpoint nullable (r : regex) : bool :=
  match r with
  | RChar _ | RAny | RClass _ _ => false
  | RSeq a b => nullable a && nullable b
  | RAlt a b => nullable a || nullable b
  | RRep min max _ a =>
      Nat.eqb min 0 || match max with Some 0 => true | _ => false end || nullable a
  | RGroup _ a => nullable a
  | REmpty | RBol | REol => true
  end.

(** [reach n s s']: [s'] is [s] after reading at least [n] characters. *)
Definition reach (n : nat) (s s' : mstate) : Prop :=
  exists w, rest s = w ++ rest s' /\ pos s' = pos s + length w /\ n <= length w.

Lemma reach_refl s : reach 0 s s.
Proof. exists []. simpl. repeat split; lia. Qed.

Lemma reach_trans n m s1 s2 s3 :
  reach n s1 s2 -> reach m s2 s3 -> reach (n + m) s1 s3.
Proof.
  intros (w1 & H1 & P1 & L1) (w2 & H2 & P2 & L2).
  exists (w1 ++ w2). rewrite H1, H2, P2, P1, length_app, <- app_assoc.
  repeat split; lia.
Qed.

Lemma reach_weaken n m s s' : m <= n -> reach n s s' -> reach m s s'.
Proof. intros Hle (w & H1 & H2 & H3). exists w. repeat split; auto; lia. Qed.

Lemma reach_same_position a b s s' :
  rest a = rest s -> pos a = pos s -> rest b = rest s' -> pos b = pos s' ->
  forall n, reach n s s' -> reach n a b.
Proof. intros Ha Pa Hb Pb n (w & H1 & H2 & H3). exists w. rewrite Ha, Pa, Hb, Pb. auto. Qed.

(** What a matcher [m] promises: it succeeds only through its continuation,
    called at least [n] characters further on. *)
Definition advances (n : nat) (m : cont -> cont) : Prop :=
  forall k s z, m k s = Some z -> exists s', reach n s s' /\ k s' = Some z.

Lemma one_char_advances ok : advances 1 (one_char ok).
Proof.
  intros k s z. unfold one_char.
  destruct (rest s) as [|c t] eqn:E; [discriminate|].
  destruct (ok c); [|discriminate]. intros H.
  exists (step s t). split; [|exact H].
  exists [c]. simpl. repeat split; auto; lia.
Qed.

Lemma or_else_Some a b z :
  or_else a b = Some z -> a = Some z \/ b tt = Some z.
Proof. destruct a; simpl; auto. Qed.

Lemma advances_weaken n m f : m <= n -> advances n f -> advances m f.
Proof.
  intros Hle Hf k s z H. apply Hf in H. destruct H as (s' & Hr & H).
  exists s'. split; [eapply reach_weaken; eauto|exact H].
Qed.

Lemma repeat_matcher_advances_0 m gs :
  advances 0 m ->
  forall fuel min max greedy, advances 0 (repeat_matcher m gs fuel min max greedy).
Proof.
  intros Hm fuel. induction fuel as [|fuel IH]; intros min max greedy k x z; simpl.
  - discriminate.
  - set (d := fun y : mstate => _).
    assert (Hk : k x = Some z -> exists s', reach 0 x s' /\ k s' = Some z).
    { intros H. exists x. split; [apply reach_refl|exact H]. }
    assert (Hd : m d (clear_caps gs x) = Some z ->
                 exists s', reach 0 x s' /\ k s' = Some z).
    { intros H. apply Hm in H. destruct H as (y & Hy & H). subst d. simpl in H.
      destruct (Nat.eqb min 0 && Nat.eqb (pos y) (pos x)); [discriminate|].
      apply IH in H. destruct H as (s' & Hs' & H).
      exists s'. split; [|exact H].
      assert (Hxy : reach 0 x y) by (eapply reach_same_position; eauto).
      apply (reach_trans 0 0 x y s'); assumption. }
    destruct max as [[|mx]|]; auto;
      (destruct (negb (Nat.eqb min 0)); auto;
       destruct greedy; intros H; apply or_else_Some in H; destruct H; auto).
Qed.

Lemma repeat_matcher_advances m gs n :
  advances n m ->
  forall fuel min max greedy,
    min <> 0 -> max <> Some 0 ->
    advances n (repeat_matcher m gs fuel min max greedy).
Proof.
  intros Hm fuel min max greedy Hmin Hmax k x z.
  destruct fuel as [|fuel]; simpl; [discriminate|].
  destruct max as [[|mx]|]; try congruence;
    (destruct (Nat.eqb_spec min 0) as [|_]; [contradiction|]; simpl;
     intros H; apply Hm in H; destruct H as (y & Hy & H);
     apply repeat_matcher_advances_0 in H;
     [|eapply advances_weaken; [|exact Hm]; lia];
     destruct H as (s' & Hs' & H);
     exists s'; split; [|exact H];
     assert (Hxy : reach n x y) by (eapply reach_same_position; eauto);
     eapply reach_weaken; [|eapply reach_trans; eauto]; lia).
Qed.

Definition least (r : regex) : nat := if nullable r then 0 else 1.

Lemma rmatch_advances ic ds r : advances (least r) (rmatch ic ds r).
Proof.
  unfold least. induction r as [| c | | neg rs | a IHa b IHb | a IHa b IHb
                                | min max greedy a IHa | n a IHa | | ]; simpl.
  - intros k s z H. exists s. split; [apply reach_refl|exact H].
  - apply one_char_advances.
  - apply one_char_advances.
  - apply one_char_advances.
  - intros k s z H. apply IHa in H. destruct H as (s1 & H1 & H).
    apply IHb in H. destruct H as (s2 & H2 & H).
    exists s2. split; [|exact H].
    eapply reach_weaken; [|eapply reach_trans; eauto].
    destruct (nullable a), (nullable b); simpl; lia.
  - intros k s z H. apply or_else_Some in H. destruct H as [H|H].
    + apply IHa in H. destruct H as (s' & Hr & H). exists s'. split; [|exact H].
      eapply reach_weaken; [|exact Hr]. destruct (nullable a), (nullable b); simpl; lia.
    + apply IHb in H. destruct H as (s' & Hr & H). exists s'. split; [|exact H].
      eapply reach_weaken; [|exact Hr]. destruct (nullable a), (nullable b); simpl; lia.
  - intros k s z H.
    destruct (Nat.eqb_spec min 0) as [E|E]; simpl.
    + eapply repeat_matcher_advances_0; [|exact H].
      eapply advances_weaken; [|exact IHa]. lia.
    + assert (Hcase : max = Some 0 \/ max <> Some 0).
      { destruct max as [[|?]|]; auto; right; congruence. }
      destruct Hcase as [->|Hmax]; simpl.
      * eapply repeat_matcher_advances_0; [|exact H].
        eapply advances_weaken; [|exact IHa]. lia.
      * replace (match max with Some 0 => true | _ => false end) with false
          by (destruct max as [[|?]|]; congruence).
        simpl. eapply repeat_matcher_advances; eauto.
  - intros k s z H. apply IHa in H. destruct H as (s' & Hr & H).
    exists (set_cap n (firstn (pos s' - pos s) (rest s)) s'). split; [|exact H].
    eapply reach_same_position; [reflexivity|reflexivity| | |exact Hr]; reflexivity.
  - intros k s z H. destruct (Nat.eqb (pos s) 0); [|discriminate].
    exists s. split; [apply reach_refl|exact H].
  - intros k s z H. destruct (rest s); [|discriminate].
    exists s. split; [apply reach_refl|exact H].
Qed.

(** A match reported at index [i] of input [s]: it ends at [endIndex m],
    [matched m] is the text in between and [after m] the input left. *)
Definition match_ok (n : nat) (s : jsstring) (i : nat) (m : rmatch_result) : Prop :=
  index m = i /\ s = matched m ++ after m /\
  endIndex m = i + length (matched m) /\ n <= length (matched m).

Lemma match_at_ok re s i m :
  match_at re s i = Some m -> match_ok (least (source re)) s i m.
Proof.
  unfold match_at.
  destruct (rmatch _ _ _ _ _) as [e|] eqn:E; [|discriminate].
  intros [= <-]. apply rmatch_advances in E.
  destruct E as (s' & (w & H1 & H2 & H3) & [= ->]). simpl in *.
  unfold match_ok; simpl. rewrite H2, H1.
  replace (i + length w - i) with (length w) by lia.
  rewrite firstn_app, Nat.sub_diag, firstn_all. simpl. rewrite app_nil_r.
  repeat split; auto.
Qed.

(** [search] finds its match at some index [index m >= i]; the input from
    [i] on is what lies before the match, the match, and the rest. *)
Lemma search_ok re s i m :
  search re s i = Some m ->
  exists before,
    s = before ++ matched m ++ after m /\ index m = i + length before /\
    endIndex m = index m + length (matched m) /\
    least (source re) <= length (matched m).
Proof.
  revert i. induction s as [|c s IH]; intros i; simpl.
  - destruct (match_at re [] i) as [m'|] eqn:E; [|discriminate].
    intros [= ->]. apply match_at_ok in E. destruct E as (E1 & E2 & E3 & E4).
    exists []. simpl. rewrite E1. repeat split; auto.
  - destruct (match_at re (c :: s) i) as [m'|] eqn:E.
    + intros [= ->]. apply match_at_ok in E. destruct E as (E1 & E2 & E3 & E4).
      exists []. simpl. rewrite E1. repeat split; auto.
    + intros H. apply IH in H. destruct H as (before & H1 & H2 & H3 & H4).
      exists (c :: before). simpl. rewrite <- H1. repeat split; auto; lia.
Qed.

(** No pattern that the server runs in an [exec] loop can match the empty
    string: the loops of the source terminate, and [exec_loop] never takes
    its early exit. *)
Lemma never_empty re s i m :
  nullable (source re) = false -> search re s i = Some m ->
  Nat.eqb (endIndex m) (index m) = false.
Proof.
  intros Hn H. apply search_ok in H. destruct H as (b & _ & _ & H3 & H4).
  unfold least in H4. rewrite Hn in H4. apply Nat.eqb_neq. lia.
Qed.

Lemma exec_patterns_not_nullable :
  forallb (fun re => negb (nullable (source re)))
    (videoPatterns ++ fallbackPatterns ++ videoPostPatterns ++ videoIdPatterns ++
     [jsonLdRegex; Server.fbVideoPattern]) = true.
Proof. reflexivity. Qed.

(** *** The fuel of the loops is enough *)

(** A matcher reads its continuation only at positions further on. *)
Definition local (m : cont -> cont) : Prop :=
  forall k k' s, (forall y, reach 0 s y -> k y = k' y) -> m k s = m k' s.

Lemma reach_step s c t : rest s = c :: t -> reach 0 s (step s t).
Proof. intros H. exists [c]. simpl. rewrite H. repeat split; lia. Qed.

Lemma one_char_local ok : local (one_char ok).
Proof.
  intros k k' s H. unfold one_char.
  destruct (rest s) as [|c t] eqn:E; [reflexivity|].
  destruct (ok c); [|reflexivity]. apply H. apply reach_step with c; assumption.
Qed.

Lemma reach_clear_caps gs x y : reach 0 (clear_caps gs x) y -> reach 0 x y.
Proof. apply reach_same_position; reflexivity. Qed.

Lemma repeat_matcher_local m gs :
  local m -> forall fuel min max greedy, local (repeat_matcher m gs fuel min max greedy).
Proof.
  intros Hm fuel. induction fuel as [|fuel IH]; intros min max greedy k k' x H; simpl.
  - reflexivity.
  - assert (Hx : k x = k' x) by (apply H, reach_refl).
    assert (Hd : forall mx,
      m (fun y => if Nat.eqb min 0 && Nat.eqb (pos y) (pos x) then None
                  else repeat_matcher m gs fuel (Nat.pred min) mx greedy k y)
        (clear_caps gs x) =
      m (fun y => if Nat.eqb min 0 && Nat.eqb (pos y) (pos x) then None
                  else repeat_matcher m gs fuel (Nat.pred min) mx greedy k' y)
        (clear_caps gs x)).
    { intros mx. apply Hm. intros y Hy.
      destruct (Nat.eqb min 0 && Nat.eqb (pos y) (pos x)); [reflexivity|].
      apply IH. intros y' Hy'. apply H.
      apply (reach_trans 0 0 x y y'); [apply reach_clear_caps with gs|]; assumption. }
    destruct max as [[|mx]|]; auto; rewrite Hd, Hx; reflexivity.
Qed.

Lemma rmatch_local ic ds r : local (rmatch ic ds r).
Proof.
  induction r as [| c | | neg rs | a IHa b IHb | a IHa b IHb
                  | min max greedy a IHa | n a IHa | | ]; intros k k' s H; simpl.
  - apply H, reach_refl.
  - apply one_char_local, H.
  - apply one_char_local, H.
  - apply one_char_local, H.
  - apply IHa. intros y Hy. apply IHb. intros y' Hy'. apply H.
    apply (reach_trans 0 0 s y y'); assumption.
  - rewrite (IHa k k' s H), (IHb k k' s H). reflexivity.
  - apply repeat_matcher_local; assumption.
  - apply IHa. intros y Hy. apply H.
    eapply reach_same_position; [reflexivity|reflexivity| | |exact Hy]; reflexivity.
  - destruct (Nat.eqb (pos s) 0); [apply H, reach_refl|reflexivity].
  - destruct (rest s); [apply H, reach_refl|reflexivity].
Qed.

Lemma reach_length n s s' : reach n s s' -> length (rest s') + n <= length (rest s).
Proof. intros (w & H1 & _ & H3). rewrite H1, length_app. lia. Qed.

Lemma reach_same_pos s s' : reach 0 s s' -> pos s' = pos s \/ length (rest s') < length (rest s).
Proof.
  intros (w & H1 & H2 & _). destruct w as [|c w]; simpl in *.
  - left. lia.
  - right. rewrite H1. simpl. rewrite length_app. lia.
Qed.

(** [repeat_matcher] gives the same answer for any fuel above the bound
    its caller supplies: it never runs out. *)
Lemma repeat_matcher_fuel m gs :
  local m ->
  forall fuel fuel' min max greedy k x,
    min + length (rest x) < fuel -> min + length (rest x) < fuel' ->
    repeat_matcher m gs fuel min max greedy k x =
    repeat_matcher m gs fuel' min max greedy k x.
Proof.
  intros Hm fuel. induction fuel as [|fuel IH]; intros fuel' min max greedy k x H1 H2.
  - lia.
  - destruct fuel' as [|fuel']; [lia|]. simpl.
    assert (Hd : forall mx,
      m (fun y => if Nat.eqb min 0 && Nat.eqb (pos y) (pos x) then None
                  else repeat_matcher m gs fuel (Nat.pred min) mx greedy k y)
        (clear_caps gs x) =
      m (fun y => if Nat.eqb min 0 && Nat.eqb (pos y) (pos x) then None
                  else repeat_matcher m gs fuel' (Nat.pred min) mx greedy k y)
        (clear_caps gs x)).
    { intros mx. apply Hm. intros y Hy. apply reach_clear_caps in Hy.
      destruct (Nat.eqb_spec min 0) as [E|E]; simpl.
      - destruct (Nat.eqb_spec (pos y) (pos x)) as [E'|E']; [reflexivity|].
        apply reach_same_pos in Hy. destruct Hy as [Hy|Hy]; [contradiction|].
        apply IH; lia.
      - apply reach_length in Hy. apply IH; lia. }
    destruct max as [[|mx]|]; auto; rewrite Hd; reflexivity.
Qed.

(** Likewise the loop over the matches of a pattern that cannot match the
    empty string: every match shortens the input that is left. *)
Lemma exec_loop_fuel re :
  nullable (source re) = false ->
  forall fuel fuel' s i,
    length s < fuel -> length s < fuel' ->
    exec_loop re fuel s i = exec_loop re fuel' s i.
Proof.
  intros Hn fuel. induction fuel as [|fuel IH]; intros fuel' s i H1 H2.
  - lia.
  - destruct fuel' as [|fuel']; [lia|]. simpl.
    destruct (search re s i) as [m|] eqn:E; [|reflexivity].
    rewrite (never_empty re s i m Hn E). f_equal.
    apply search_ok in E. destruct E as (b & E1 & _ & _ & E4).
    unfold least in E4. rewrite Hn in E4.
    assert (length (after m) < length s).
    { rewrite E1. rewrite !length_app. lia. }
    apply IH; lia.
Qed.

(** *** What the tests of the source mean *)

(** [s] contains [p] / starts with [p] *)
Definition contains (s p : jsstring) : Prop := exists pre post, s = pre ++ p ++ post.
Definition begins (s p : jsstring) : Prop := exists post, s = p ++ post.

Lemma startsWith_spec s p : startsWith s p = true <-> begins s p.
Proof.
  unfold begins. revert s. induction p as [|b p IH]; intros s; simpl.
  - destruct s; split; eauto.
  - destruct s as [|a s]; simpl.
    + split; [discriminate|]. intros (t & H). discriminate.
    + rewrite andb_true_iff, char_eqb_eq, IH. split.
      * intros (-> & t & ->). eauto.
      * intros (t & [= -> ->]). eauto.
Qed.

Lemma includes_spec s p : includes s p = true <-> contains s p.
Proof.
  unfold contains. induction s as [|a s IH]; cbn [includes].
  - rewrite orb_false_r, startsWith_spec. split.
    + intros (t & H). exists [], t. exact H.
    + intros (pre & post & H). destruct pre; [|discriminate]. exists post. exact H.
  - rewrite orb_true_iff, IH, startsWith_spec. split.
    + intros [(t & H)|(pre & post & H)].
      * exists [], t. exact H.
      * exists (a :: pre), post. simpl. congruence.
    + intros ([|b pre] & post & H).
      * left. exists post. exact H.
      * right. injection H as -> ->. eauto.
Qed.

Lemma includes_false s p : includes s p = false <-> ~ contains s p.
Proof. rewrite <- includes_spec. destruct (includes s p); split; congruence. Qed.


(** The state [w] characters after [x], [t] being what is left. *)
Definition moved (x : mstate) (w t : jsstring) : mstate :=
  {| rest := t; pos := pos x + length w; caps := caps x |}.

Lemma moved_nil x : moved x [] (rest x) = x.
Proof. destruct x. unfold moved. simpl. f_equal. lia. Qed.

Lemma moved_step x c w t t' :
  moved (step x t') w t = moved x (c :: w) t.
Proof. unfold moved, step. simpl. f_equal. lia. Qed.

Lemma clear_caps_nil x : clear_caps [] x = x.
Proof.
  destruct x as [r p c]. unfold clear_caps. simpl. f_equal.
  induction c as [|e c IH]; simpl; congruence.
Qed.

(** A literal matches exactly when the input starts with it
    (case-sensitive patterns). *)
Lemma rmatch_lit ds s k x :
  rmatch false ds (lit s) k x =
  if startsWith (rest x) (js s)
  then k (moved x (js s) (skipn (length (js s)) (rest x)))
  else None.
Proof.
  revert k x. induction s as [|a s IH]; intros k x.
  - cbn [lit js rmatch startsWith length skipn]. rewrite moved_nil.
    destruct (rest x); reflexivity.
  - assert (Hone : forall k x,
      one_char (lit_eq false (code a)) k x =
      match rest x with
      | c :: t => if char_eqb c (code a) then k (step x t) else None
      | [] => None
      end).
    { intros k0 x0. unfold one_char, lit_eq, char_eqb.
      destruct (rest x0); [reflexivity|]. rewrite orb_false_r, N.eqb_sym. reflexivity. }
    destruct s as [|b s].
    + cbn [lit js rmatch length skipn]. rewrite Hone.
      destruct (rest x) as [|c t]; [reflexivity|]. cbn [startsWith].
      destruct (char_eqb c (code a)); [|reflexivity].
      replace (startsWith t []) with true by (destruct t; reflexivity).
      cbn [andb]. f_equal. unfold moved, step. simpl. f_equal. lia.
    + change (lit (String a (String b s))) with (RSeq (RChar (code a)) (lit (String b s))).
      cbn [rmatch]. rewrite Hone.
      change (js (String a (String b s))) with (code a :: js (String b s)).
      cbn [length skipn].
      destruct (rest x) as [|c t]; [reflexivity|]. cbn [startsWith].
      destruct (char_eqb c (code a)); [|reflexivity]. cbn [andb].
      rewrite IH. cbn [rest step].
      destruct (startsWith t (js (String b s))); [|reflexivity].
      f_equal. unfold moved, step. simpl. f_equal. lia.
Qed.

Lemma or_else_is_Some a b :
  is_Some (or_else a b) <-> is_Some a \/ is_Some (b tt).
Proof.
  destruct a; simpl; split; eauto.
  - intros [H|H]; [destruct H; discriminate|exact H].
Qed.

(** A quantified character class without upper bound, greedy or lazy,
    followed by [k]: it succeeds exactly when [k] succeeds after some run
    of at least [min] characters of the class. *)
Lemma repeat_class_is_Some ok greedy k :
  forall fuel min x,
    min + length (rest x) < fuel ->
    is_Some (repeat_matcher (one_char ok) [] fuel min None greedy k x) <->
    exists w t, rest x = w ++ t /\ min <= length w /\ forallb ok w = true /\
                is_Some (k (moved x w t)).
Proof.
  induction fuel as [|fuel IH]; intros min x Hfuel; [lia|].
  cbn [repeat_matcher]. rewrite clear_caps_nil.
  set (d := fun y : mstate => _).
  assert (Hd : is_Some (one_char ok d x) <->
               exists c w t, rest x = (c :: w) ++ t /\ Nat.pred min <= length w /\
                             forallb ok (c :: w) = true /\
                             is_Some (k (moved x (c :: w) t))).
  { unfold one_char. destruct (rest x) as [|c t'] eqn:E.
    - split; [intros [? H]; discriminate|]. intros (c & w & t & H & _). discriminate.
    - destruct (ok c) eqn:Hc.
      + subst d. cbn beta.
        replace (Nat.eqb min 0 && Nat.eqb (pos (step x t')) (pos x)) with false.
        2:{ symmetry. apply andb_false_iff. right. apply Nat.eqb_neq. simpl. lia. }
        rewrite IH by (simpl; simpl in Hfuel; lia). simpl. split.
        * intros (w & t & -> & Hm & Hw & Hk). exists c, w, t.
          rewrite Hc, Hw. rewrite (moved_step x c) in Hk. auto.
        * intros (c' & w & t & [= <- ->] & Hm & Hw & Hk). exists w, t.
          rewrite Hc in Hw. rewrite (moved_step x c). auto.
      + split; [intros [? H]; discriminate|].
        intros (c' & w & t & [= <- ->] & _ & Hw & _). simpl in Hw.
        rewrite Hc in Hw. discriminate. }
  destruct (Nat.eqb_spec min 0) as [->|Hmin]; cbn [negb].
  - assert (Hboth : is_Some (one_char ok d x) \/ is_Some (k x) <->
              exists w t, rest x = w ++ t /\ 0 <= length w /\ forallb ok w = true /\
                          is_Some (k (moved x w t))).
    { rewrite Hd. split.
      - intros [(c & w & t & H1 & _ & H3 & H4)|H].
        + exists (c :: w), t. repeat split; auto. lia.
        + exists [], (rest x). rewrite moved_nil. repeat split; auto.
      - intros ([|c w] & t & H1 & _ & H3 & H4).
        + right. simpl in H1. subst t. rewrite moved_nil in H4. exact H4.
        + left. exists c, w, t. repeat split; auto. simpl. lia. }
    destruct greedy; rewrite or_else_is_Some; rewrite <- Hboth; tauto.
  - rewrite Hd. split.
    + intros (c & w & t & H1 & H2 & H3 & H4). exists (c :: w), t.
      repeat split; auto. simpl. lia.
    + intros ([|c w] & t & H1 & H2 & H3 & H4); [simpl in H2; lia|].
      exists c, w, t. repeat split; auto. simpl in H2. lia.
Qed.

Lemma search_is_Some re s i :
  is_Some (search re s i) <->
  exists pre post, s = pre ++ post /\ is_Some (match_at re post (i + length pre)).
Proof.
  revert i. induction s as [|c s IH]; intros i; simpl.
  - destruct (match_at re [] i) eqn:E.
    + split; [|eauto]. intros _. exists [], []. simpl. rewrite Nat.add_0_r, E. eauto.
    + split; [intros [? H]; discriminate|].
      intros (pre & post & H & Hm). symmetry in H. apply app_eq_nil in H.
      destruct H as [-> ->]. simpl in Hm. rewrite Nat.add_0_r, E in Hm. exact Hm.
  - destruct (match_at re (c :: s) i) eqn:E.
    + split; [|eauto]. intros _. exists [], (c :: s). simpl. rewrite Nat.add_0_r, E. eauto.
    + rewrite IH. split.
      * intros (pre & post & -> & Hm). exists (c :: pre), post. simpl.
        replace (i + S (length pre)) with (S i + length pre) by lia. auto.
      * intros ([|c' pre] & post & H & Hm).
        -- simpl in *. subst post. rewrite Nat.add_0_r, E in Hm. destruct Hm; discriminate.
        -- injection H as <- ->. exists pre, post. split; [reflexivity|].
           simpl in Hm. replace (S i + length pre) with (i + S (length pre)) by lia. exact Hm.
Qed.

Lemma test_true re s :
  test re s = true <->
  exists pre post, s = pre ++ post /\ is_Some (match_at re post (length pre)).
Proof.
  unfold test. rewrite <- (search_is_Some re s 0).
  destruct (search re s 0); split; eauto; try discriminate.
  intros [? H]; discriminate.
Qed.

Lemma match_at_is_Some re s i :
  is_Some (match_at re s i) <->
  is_Some (rmatch (ignoreCase (rflags re)) (dotAll (rflags re)) (source re) Some
             {| rest := s; pos := i; caps := [] |}).
Proof.
  unfold match_at. destruct (rmatch _ _ _ _ _); split; eauto; intros [? H]; discriminate.
Qed.

(** [re.test(s)] for a literal pattern is [s.includes(literal)]. *)
Lemma test_plain lit_ s : test (plain lit_) s = includes s (js lit_).
Proof.
  apply eq_true_iff_eq. rewrite test_true, includes_spec. unfold contains.
  split.
  - intros (pre & post & -> & H). rewrite match_at_is_Some in H. simpl in H.
    rewrite rmatch_lit in H. simpl in H.
    destruct (startsWith post (js lit_)) eqn:E; [|destruct H; discriminate].
    apply startsWith_spec in E. destruct E as (t & ->). eauto.
  - intros (pre & post & ->). exists pre, (js lit_ ++ post). split; [reflexivity|].
    rewrite match_at_is_Some. simpl. rewrite rmatch_lit. simpl.
    replace (startsWith (js lit_ ++ post) (js lit_)) with true; [eauto|].
    symmetry. apply startsWith_spec. exists post. reflexivity.
Qed.

End RegexFacts.

(** ** The Validator: [isValidVideoUrl] *)

Module ValidatorFacts.
Import RegexFacts.

(** A letter, a digit, an underscore or a dash: the class [[A-Za-z0-9_-]]. *)
Definition is_word_char (c : char) : bool :=
  existsb (in_range c) [(65, 90); (97, 122); (48, 57); (95, 95); (45, 45)]%N.

(** A token of forty or more word characters right before [.mp4]. *)
Definition has_long_hash (url : jsstring) : Prop :=
  exists pre token post,
    url = pre ++ token ++ js ".mp4" ++ post /\
    40 <= length token /\ forallb is_word_char token = true.

Lemma forallb_ext {A} (f g : A -> bool) l :
  (forall a, f a = g a) -> forallb f l = forallb g l.
Proof. intros H. induction l as [|a l IH]; simpl; [reflexivity|]. rewrite H, IH. reflexivity. Qed.

Lemma word_class c :
  xorb false (class_has false
    [rng "A" "Z"; rng "a" "z"; rng "0" "9"; ch (code "_"); ch (code "-")] c) =
  is_word_char c.
Proof. unfold is_word_char, class_has. simpl. rewrite !orb_false_r. reflexivity. Qed.

(** The test of one character against the class of [word_char]. *)
Definition word_ok : char -> bool := fun c => xorb false (class_has false
         [rng "A" "Z"; rng "a" "z"; rng "0" "9"; ch (code "_"); ch (code "-")] c).
Lemma rmatch_long_hash x :
  rmatch false false (source long_hash_mp4) Some x =
  repeat_matcher (one_char word_ok) [] (40 + S (length (rest x))) 40 None true
    (rmatch false false (lit ".mp4") Some) x.
Proof. reflexivity. Qed.
Lemma test_long_hash_mp4 url : test long_hash_mp4 url = true <-> has_long_hash url.
Proof.
  rewrite test_true. unfold has_long_hash. split.
  - intros (pre & post & -> & H). rewrite match_at_is_Some in H.
    change (ignoreCase (rflags long_hash_mp4)) with false in H.
    change (dotAll (rflags long_hash_mp4)) with false in H.
    rewrite rmatch_long_hash in H.
    apply repeat_class_is_Some in H; [|cbn [rest]; lia].
    destruct H as (w & t & Hr & Hlen & Hw & Hk). cbn [rest] in Hr. subst post.
    rewrite rmatch_lit in Hk. cbn [moved rest] in Hk.
    destruct (startsWith t (js ".mp4")) eqn:E; [|destruct Hk; discriminate].
    apply startsWith_spec in E. destruct E as (post & ->).
    exists pre, w, post. split; [reflexivity|]. split; [exact Hlen|].
    unfold word_ok in Hw. rewrite (forallb_ext _ _ _ word_class) in Hw. exact Hw.
  - intros (pre & token & post & -> & Hlen & Hw).
    exists pre, (token ++ js ".mp4" ++ post). split; [reflexivity|].
    rewrite match_at_is_Some.
    change (ignoreCase (rflags long_hash_mp4)) with false.
    change (dotAll (rflags long_hash_mp4)) with false.
    rewrite rmatch_long_hash.
    apply repeat_class_is_Some; [cbn [rest]; lia|].
    exists token, (js ".mp4" ++ post).
    split; [reflexivity|]. split; [exact Hlen|]. split.
    + unfold word_ok. rewrite (forallb_ext _ _ _ word_class). exact Hw.
    + rewrite rmatch_lit. cbn [moved rest].
      replace (startsWith (js ".mp4" ++ post) (js ".mp4")) with true; [eauto|].
      symmetry. apply startsWith_spec. exists post. reflexivity.
Qed.

(** The chain of early returns as one conjunction. *)
Lemma early_returns (long http https parses mp4 indicator dash : bool) :
  (if negb long then false
   else if negb http && negb https then false
   else if negb parses then false
   else if negb mp4 then false
   else if dash then false
   else if indicator then true
   else false) =
  long && (http || https) && parses && mp4 && indicator && negb dash.
Proof. destruct long, http, https, parses, mp4, indicator, dash; reflexivity. Qed.

Lemma isValidVideoUrl_Str L url :
  isValidVideoUrl L (Str url) =
  (200 <=? length url) &&
  (startsWith url (js "http://") || startsWith url (js "https://")) &&
  URL_parses L url &&
  includes url (js ".mp4") &&
  (includes url (js "scontent") && includes url (js ".fna.fbcdn.net") &&
   (includes url (js "/o1/v/") || includes url (js "/o2/v/")) &&
   includes url (js ".mp4?") &&
   (includes url (js "_nc_cat=") || includes url (js "&_nc_cat=")) &&
   test long_hash_mp4 url) &&
  negb (includes url (js ".mpd") || includes url (js "segment") ||
        includes url (js "manifest") || includes url (js "init.mp4") ||
        includes url (js "dash")).
Proof.
  destruct url as [|c u].
  - change (200 <=? length (@nil char)) with false. reflexivity.
  - unfold isValidVideoUrl. cbv zeta.
    rewrite (Nat.ltb_antisym 200 (length (c :: u))).
    apply early_returns.
Qed.

Lemma short_invalid L url : length url < 200 -> isValidVideoUrl L (Str url) = false.
Proof.
  intros H. rewrite isValidVideoUrl_Str.
  replace (200 <=? length url) with false; [reflexivity|].
  symmetry. apply Nat.leb_gt. exact H.
Qed.

Lemma ampersand_marker url :
  includes url (js "_nc_cat=") || includes url (js "&_nc_cat=") =
  includes url (js "_nc_cat=").
Proof.
  destruct (includes url (js "_nc_cat=")) eqn:E; [reflexivity|]. simpl.
  apply includes_false. intros (pre & post & ->).
  apply includes_false in E. apply E.
  exists (pre ++ js "&"), post. rewrite <- app_assoc. reflexivity.
Qed.

(** What the Validator asks of a string. *)
Definition acceptable (L : Libs) (url : jsstring) : Prop :=
  200 <= length url /\
  (begins url (js "http://") \/ begins url (js "https://")) /\
  URL_parses L url = true /\
  contains url (js ".mp4") /\
  (contains url (js "scontent") /\ contains url (js ".fna.fbcdn.net") /\
   (contains url (js "/o1/v/") \/ contains url (js "/o2/v/")) /\
   contains url (js ".mp4?") /\
   contains url (js "_nc_cat=") /\
   has_long_hash url) /\
  ~ contains url (js ".mpd") /\ ~ contains url (js "segment") /\
  ~ contains url (js "manifest") /\ ~ contains url (js "init.mp4") /\
  ~ contains url (js "dash").

Lemma isValidVideoUrl_acceptable L url :
  isValidVideoUrl L (Str url) = true <-> acceptable L url.
Proof.
  unfold acceptable. rewrite isValidVideoUrl_Str, ampersand_marker.
  rewrite !andb_true_iff, negb_true_iff, !orb_false_iff, !orb_true_iff.
  rewrite !includes_false, !includes_spec, !startsWith_spec, test_long_hash_mp4.
  rewrite Nat.leb_le. tauto.
Qed.

(** C4: [isValidVideoUrl] accepts exactly the strings of 200 characters or
    more that start with [http://] or [https://], that [new URL] parses,
    that contain [.mp4], that bear the CDN fingerprint ([scontent],
    [.fna.fbcdn.net], [/o1/v/] or [/o2/v/], [.mp4?], [_nc_cat=], and a token
    of at least 40 letters, digits, dashes or underscores right before
    [.mp4]) and that contain none of [.mpd], [segment], [manifest],
    [init.mp4], [dash].  A non-string, and a string [new URL] rejects, get
    [false]: the function returns a boolean on every value. *)
Theorem isValidVideoUrl_iff (L : Libs) (v : value) :
  isValidVideoUrl L v = true <->
  exists url,
    v = Str url /\
    200 <= length url /\
    (begins url (js "http://") \/ begins url (js "https://")) /\
    URL_parses L url = true /\
    contains url (js ".mp4") /\
    (contains url (js "scontent") /\ contains url (js ".fna.fbcdn.net") /\
     (contains url (js "/o1/v/") \/ contains url (js "/o2/v/")) /\
     contains url (js ".mp4?") /\
     contains url (js "_nc_cat=") /\
     has_long_hash url) /\
    ~ contains url (js ".mpd") /\ ~ contains url (js "segment") /\
    ~ contains url (js "manifest") /\ ~ contains url (js "init.mp4") /\
    ~ contains url (js "dash").
Proof.
  split.
  - destruct v as [url| | | | |]; try discriminate.
    intros H. exists url. split; [reflexivity|].
    apply (isValidVideoUrl_acceptable L url). exact H.
  - intros (url & -> & H). apply (isValidVideoUrl_acceptable L url). exact H.
Qed.

End ValidatorFacts.

(** ** The Normalizer and the decoder: [cleanHtml] and [decodeUrl] *)

Module NormalizerFacts.
Import RegexFacts.

(** The escapes [cleanHtml] decodes, in the order in which it does. *)
Definition escapes : list RegExp :=
  [ unicode_escape; escaped_quote; global "\\"; global "&quot;"; global "&amp;";
    global "&lt;"; global "&gt;" ].

(** No escape that [cleanHtml] decodes occurs in [s]. *)
Definition escape_free (s : jsstring) : bool :=
  forallb (fun re => negb (test re s)) escapes.

Lemma replace_no_match re f s : test re s = false -> replace re f s = s.
Proof.
  unfold test, Regex.replace. simpl.
  destruct (search re s 0); [discriminate|reflexivity].
Qed.

Lemma cleanHtml_escape_free s : escape_free s = true -> cleanHtml s = s.
Proof.
  unfold escape_free, escapes. cbn [forallb].
  rewrite !andb_true_iff, !negb_true_iff.
  intros (H1 & H2 & H3 & H4 & H5 & H6 & H7 & _).
  unfold cleanHtml, replace_with.
  rewrite (replace_no_match _ _ _ H1), (replace_no_match _ _ _ H2),
    (replace_no_match _ _ _ H3), (replace_no_match _ _ _ H4),
    (replace_no_match _ _ _ H5), (replace_no_match _ _ _ H6),
    (replace_no_match _ _ _ H7).
  reflexivity.
Qed.


(** [decodeUrl] returns a string on every value: the empty string on a
    non-string and on the empty string, *)
Lemma decodeUrl_not_a_string v :
  (forall c s, v <> Str (c :: s)) -> decodeUrl v = [].
Proof.
  destruct v as [[|c s]| | | | |]; try reflexivity.
  intros H. exfalso. apply (H c s). reflexivity.
Qed.

(** the decoded text when percent-decoding succeeds, *)
Lemma decodeUrl_decoded c s url :
  decodeURIComponent (replace_with a_backslash [] (strip_markup (c :: s))) = Some url ->
  decodeUrl (Str (c :: s)) =
  trim (replace_with (global "\/") (js "/")
          (replace_with (global "\u002F") (js "/") url)).
Proof. intros H. unfold decodeUrl. rewrite H. reflexivity. Qed.

(** and, when it throws, the basic cleanup of the url as the [try] block
    left it: with its wrapping quotes and its tags already stripped. *)
Lemma decodeUrl_catch c s :
  decodeURIComponent (replace_with a_backslash [] (strip_markup (c :: s))) = None ->
  decodeUrl (Str (c :: s)) = basic_cleanup (strip_markup (c :: s)).
Proof. intros H. unfold decodeUrl. rewrite H. reflexivity. Qed.

(** C10 at the input [<b>%]: the tag is stripped, the lone percent sign
    makes [decodeURIComponent] throw, and the [catch] branch returns [%],
    not the basic cleanup of the input, which is [<b>%]. *)
Theorem decodeUrl_catch_returns_stripped_url :
  strip_markup (js "<b>%") = js "%" /\
  decodeURIComponent (js "%") = None /\
  decodeUrl (Str (js "<b>%")) = js "%" /\
  basic_cleanup (js "<b>%") = js "<b>%".
Proof. repeat split; vm_compute; reflexivity. Qed.

End NormalizerFacts.

(** ** [Array.prototype.sort] with a comparator that orders by a key *)

Module SortFacts.

Section ByKey.
Context {A : Type} (compare : A -> A -> Z) (key : A -> Z).
Hypothesis compare_key : forall a b, (0 <? compare a b)%Z = (key b <? key a)%Z.

Definition ascending : list A -> Prop :=
  StronglySorted (fun a b => (key a <= key b)%Z).

Lemma insert_perm a l : Permutation (insert compare a l) (a :: l).
Proof.
  induction l as [|b l IH]; simpl; [reflexivity|].
  destruct (0 <? compare a b)%Z; [|reflexivity].
  rewrite IH. apply perm_swap.
Qed.

Lemma sort_perm l : Permutation (sort compare l) l.
Proof.
  induction l as [|a l IH]; simpl; [reflexivity|].
  rewrite insert_perm, IH. reflexivity.
Qed.

Lemma insert_ascending a l : ascending l -> ascending (insert compare a l).
Proof.
  unfold ascending. induction l as [|b l IH]; intros Hs; simpl.
  - constructor; constructor.
  - inversion Hs as [|b' l' Hl Hb]; subst.
    rewrite compare_key. destruct (Z.ltb_spec (key b) (key a)) as [Hlt|Hge].
    + constructor; [apply IH; assumption|].
      rewrite (List.Forall_forall (fun x => (key b <= key x)%Z)). intros x Hx.
      apply (Permutation_in _ (insert_perm a l)) in Hx. destruct Hx as [<-|Hx].
      * lia.
      * rewrite List.Forall_forall in Hb. apply Hb. exact Hx.
    + constructor; [exact Hs|]. constructor; [exact Hge|].
      rewrite List.Forall_forall in Hb |- *. intros x Hx. specialize (Hb x Hx). lia.
Qed.

Lemma sort_ascending l : ascending (sort compare l).
Proof.
  induction l as [|a l IH]; simpl; [constructor|].
  apply insert_ascending, IH.
Qed.

(** Stability: the elements of any one key are in the order they had. *)
Lemma insert_stable c a l :
  List.filter (fun x => (key x =? c)%Z) (insert compare a l) =
  List.filter (fun x => (key x =? c)%Z) (a :: l).
Proof.
  induction l as [|b l IH]; [reflexivity|]. cbn [insert].
  rewrite compare_key. destruct (Z.ltb_spec (key b) (key a)) as [Hlt|Hge];
    [|reflexivity].
  cbn [List.filter] in *. rewrite IH.
  destruct (Z.eqb_spec (key a) c), (Z.eqb_spec (key b) c); try reflexivity. lia.
Qed.

Lemma sort_stable c l :
  List.filter (fun x => (key x =? c)%Z) (sort compare l) =
  List.filter (fun x => (key x =? c)%Z) l.
Proof.
  induction l as [|a l IH]; [reflexivity|].
  cbn [sort fold_right]. rewrite insert_stable. cbn [List.filter].
  fold (sort compare l). rewrite IH. reflexivity.
Qed.

(** The first element of the result has the least key. *)
Lemma sort_head a l' l :
  sort compare l = a :: l' -> forall x, In x l -> (key a <= key x)%Z.
Proof.
  intros H x Hx. pose proof (sort_ascending l) as Hs. rewrite H in Hs.
  apply (Permutation_in _ (Permutation_sym (sort_perm l))) in Hx.
  rewrite H in Hx. inversion Hs as [|? ? _ Hall]; subst.
  destruct Hx as [<-|Hx]; [lia|].
  rewrite List.Forall_forall in Hall. apply Hall, Hx.
Qed.
End ByKey.

Lemma sort_In {A} (compare : A -> A -> Z) l x : In x (sort compare l) <-> In x l.
Proof.
  split; apply Permutation_in;
    [apply sort_perm | apply Permutation_sym, sort_perm].
Qed.

Lemma sort_length {A} (compare : A -> A -> Z) l : length (sort compare l) = length l.
Proof. apply Permutation_length, sort_perm. Qed.

Lemma sort_NoDup_map {A B} (compare : A -> A -> Z) (f : A -> B) l :
  List.NoDup (List.map f l) -> List.NoDup (List.map f (sort compare l)).
Proof.
  apply Permutation_NoDup, Permutation_map, Permutation_sym, sort_perm.
Qed.

(** The two comparators of the source order by a key. *)
Definition quality_rank (v : video) : Z := order_or_5 (quality v).

Lemma by_quality_key a b :
  (0 <? quality_rank a - quality_rank b)%Z = (quality_rank b <? quality_rank a)%Z.
Proof.
  destruct (Z.ltb_spec 0 (quality_rank a - quality_rank b)),
    (Z.ltb_spec (quality_rank b) (quality_rank a)); auto; lia.
Qed.

Lemma by_score_key a b :
  (0 <? by_score_descending a b)%Z =
  (- getQualityScore (url b) <? - getQualityScore (url a))%Z.
Proof.
  unfold by_score_descending.
  destruct (Z.ltb_spec 0 (getQualityScore (url b) - getQualityScore (url a))),
    (Z.ltb_spec (- getQualityScore (url b)) (- getQualityScore (url a))); auto; lia.
Qed.

End SortFacts.

(** ** The extraction pipeline: what every stage keeps true *)

Module PipelineFacts.
Import RegexFacts ValidatorFacts SortFacts.

Section WithLibs.

Variable L : Libs.

Lemma createVideoObject_url u n : url (fst (createVideoObject L u n)) = u.
Proof.
  unfold createVideoObject, bind, ret.
  destruct (detectContentType L u n). reflexivity.
Qed.

Lemma createVideoObject_quality u n :
  quality (fst (createVideoObject L u n)) = detectQuality u.
Proof.
  unfold createVideoObject, bind, ret.
  destruct (detectContentType L u n). reflexivity.
Qed.

(** The state of a scan is sound for [P]: the urls of [videos] are
    pairwise distinct, all in [foundUrls], and all satisfy [P]. *)
Definition sound (P : jsstring -> Prop) (st : scan) : Prop :=
  List.NoDup (List.map url (videos st)) /\
  forall v, List.In v (videos st) -> url v ∈ foundUrls st /\ P (url v).

Lemma sound_weaken (P Q : jsstring -> Prop) st :
  (forall u, P u -> Q u) -> sound P st -> sound Q st.
Proof.
  intros HPQ [Hnd Hall]. split; [exact Hnd|].
  intros v Hv. destruct (Hall v Hv). auto.
Qed.

Lemma sound_empty P n : sound P {| videos := []; foundUrls := ∅; calls := n |}.
Proof. split; [constructor|]. intros v []. Qed.

Lemma NoDup_snoc {A} (l : list A) (a : A) :
  List.NoDup l -> ~ List.In a l -> List.NoDup (l ++ [a]).
Proof.
  intros Hl Ha. apply NoDup_ListNoDup. apply NoDup_app.
  repeat split.
  - apply NoDup_ListNoDup, Hl.
  - intros x Hx Hx'. apply list_elem_of_In in Hx, Hx'.
    destruct Hx' as [<-|[]]. contradiction.
  - apply NoDup_ListNoDup. constructor; [intros []|constructor].
Qed.

Lemma sound_push P st v :
  sound P st -> url v ∉ foundUrls st -> P (url v) ->
  forall n,
    sound P {| videos := videos st ++ [v]; foundUrls := {[url v]} ∪ foundUrls st;
               calls := n |}.
Proof.
  intros [Hnd Hall] Hnew HP n. split; simpl.
  - rewrite List.map_app. simpl. apply NoDup_snoc; [exact Hnd|].
    intros Hin. apply List.in_map_iff in Hin. destruct Hin as (w & Hw & Hin).
    apply Hnew. rewrite <- Hw. apply (Hall w Hin).
  - intros w Hw. apply List.in_app_iff in Hw. destruct Hw as [Hw|[<-|[]]].
    + destruct (Hall w Hw) as [Hf HPw]. split; [|exact HPw].
      apply elem_of_union. right. exact Hf.
    + split; [|exact HP]. apply elem_of_union. left. apply elem_of_singleton. reflexivity.
Qed.

Lemma sound_add_video P u st :
  sound P st -> u ∉ foundUrls st -> P u -> sound P (add_video L u st).
Proof.
  intros Hs Hnew HP. unfold add_video.
  pose proof (createVideoObject_url u (calls st)) as Hu.
  destruct (createVideoObject L u (calls st)) as [v n]. simpl in Hu. subst u.
  apply sound_push; assumption.
Qed.

Lemma sound_add_if_new P st v :
  sound P st -> P (url v) -> sound P (add_if_new st v).
Proof.
  intros Hs HP. unfold add_if_new, has. case_bool_decide as Hin; [exact Hs|].
  apply sound_push; assumption.
Qed.

Lemma fold_left_keeps {A B} (I : A -> Prop) (f : A -> B -> A) l :
  (forall a b, List.In b l -> I a -> I (f a b)) ->
  forall a, I a -> I (fold_left f l a).
Proof.
  induction l as [|b l IH]; intros Hf a Ha; simpl; [exact Ha|].
  apply IH.
  - intros a' b' Hb'. apply Hf. right. exact Hb'.
  - apply Hf; [left; reflexivity|exact Ha].
Qed.

(** What the pattern loop lets in: a candidate that passes the guards and
    either bears the permissive signature or is valid. *)
Definition taken (u : jsstring) : Prop :=
  passes_guards u = true /\
  (permissive u = true \/ isValidVideoUrl L (Str u) = true).

Lemma sound_visit index st m : sound taken st -> sound taken (visit L index st m).
Proof.
  intros Hs. unfold visit.
  destruct (passes_guards (candidate m)) eqn:Hg; cbn [negb]; [|exact Hs].
  destruct (Nat.eqb index 31 && permissive (candidate m)) eqn:Hp.
  - apply andb_true_iff in Hp. destruct Hp as [_ Hp].
    unfold has. case_bool_decide as Hin; [exact Hs|].
    apply sound_add_video; [exact Hs|exact Hin|]. split; auto.
  - destruct (isValidVideoUrl L (Str (candidate m))) eqn:Hv; cbn [andb]; [|exact Hs].
    unfold has. case_bool_decide as Hin; cbn [negb]; [exact Hs|].
    apply sound_add_video; [exact Hs|exact Hin|]. split; auto.
Qed.

Lemma sound_scan_patterns html st :
  sound taken st -> sound taken (scan_patterns L html st).
Proof.
  intros Hs. unfold scan_patterns.
  apply fold_left_keeps; [|exact Hs]. intros a p _ Ha.
  apply fold_left_keeps; [|exact Ha]. intros a' m _. apply sound_visit.
Qed.

Definition valid (u : jsstring) : Prop := isValidVideoUrl L (Str u) = true.

Lemma sound_fallback P html st :
  (forall u, valid u -> P u) ->
  sound P st -> sound P (fallbackVideoSearch L html st).
Proof.
  intros HP Hs. unfold fallbackVideoSearch.
  apply fold_left_keeps; [|exact Hs]. intros a p _ Ha.
  apply fold_left_keeps; [|exact Ha]. intros a' m _ Ha'.
  unfold fallback_visit.
  destruct (isValidVideoUrl L (Str (fallback_candidate m))) eqn:Hv; cbn [andb];
    [|exact Ha'].
  unfold has. case_bool_decide as Hin; cbn [negb]; [exact Ha'|].
  apply sound_add_video; auto.
Qed.

Lemma push_valid_valid urls :
  forall acc n,
    (forall v, List.In v acc -> valid (url v)) ->
    forall v, List.In v (fst (push_valid L urls acc n)) -> valid (url v).
Proof.
  induction urls as [|u urls IH]; intros acc n Hacc v; cbn [push_valid].
  - apply Hacc.
  - destruct (isValidVideoUrl L (Str u)) eqn:Hu; [|apply IH; exact Hacc].
    unfold bind. pose proof (createVideoObject_url u n) as Hw.
    destruct (createVideoObject L u n) as [w n']. simpl in Hw.
    apply IH. intros x Hx. apply List.in_app_iff in Hx.
    destruct Hx as [Hx|[<-|[]]]; [apply Hacc, Hx|]. rewrite Hw. exact Hu.
Qed.

Lemma extractWithCheerio_valid html n v :
  List.In v (fst (extractWithCheerio L html n)) -> valid (url v).
Proof.
  unfold extractWithCheerio. destruct (cheerio_load L html) as [doc|]; [|intros []].
  unfold bind.
  destruct (push_valid L (present (video_src doc)) [] n) as [vs1 n1] eqn:E1.
  destruct (push_valid L (present (video_source_src doc)) vs1 n1) as [vs2 n2] eqn:E2.
  apply push_valid_valid. intros x Hx.
  change vs2 with (fst (vs2, n2)) in Hx. rewrite <- E2 in Hx.
  revert x Hx. apply push_valid_valid. intros x Hx.
  change vs1 with (fst (vs1, n1)) in Hx. rewrite <- E1 in Hx.
  revert x Hx. apply push_valid_valid. intros x [].
Qed.

Lemma extractFromStructuredData_valid html n v :
  List.In v (fst (extractFromStructuredData L html n)) -> valid (url v).
Proof. unfold extractFromStructuredData. apply push_valid_valid. intros x []. Qed.

Lemma sound_merge P extract st :
  (forall n v, List.In v (fst (extract n)) -> P (url v)) ->
  sound P st -> sound P (merge extract st).
Proof.
  intros HP Hs. unfold merge. specialize (HP (calls st)).
  destruct (extract (calls st)) as [others n]. simpl in HP.
  apply fold_left_keeps.
  - intros a v Hv Ha. apply sound_add_if_new; auto.
  - destruct Hs as [Hnd Hall]. split; assumption.
Qed.

(** What [extractVideos] lets in, from any source. *)
Definition accepted (u : jsstring) : Prop :=
  valid u \/ (passes_guards u = true /\ permissive u = true).

Lemma taken_accepted u : taken u -> accepted u.
Proof. intros [Hg [Hp|Hv]]; [right|left]; auto. Qed.

Lemma sound_scanned html : sound accepted (scanned L html).
Proof.
  unfold scanned.
  pose proof (sound_scan_patterns html _ (sound_empty taken 0)) as Hs.
  apply (sound_weaken _ _ _ taken_accepted) in Hs.
  destruct (Nat.eqb _ 0); [|exact Hs].
  apply sound_fallback; [|exact Hs]. intros u Hu. left. exact Hu.
Qed.

Lemma sound_collected html : sound accepted (collected L html).
Proof.
  unfold collected.
  apply sound_merge.
  { intros n v Hv. left. eapply extractFromStructuredData_valid, Hv. }
  apply sound_merge.
  { intros n v Hv. left. eapply extractWithCheerio_valid, Hv. }
  apply sound_scanned.
Qed.

(** The guards of the pattern loop, spelled out. *)
Definition guarded (u : jsstring) : Prop :=
  20 <= length u /\
  ~ contains u (js "<") /\ ~ contains u (js ">") /\
  ~ contains u (js "BaseURL") /\ ~ contains u (js "SegmentBase") /\
  ~ contains u (js "indexRange") /\
  (begins u (js "http://") \/ begins u (js "https://")).

Lemma passes_guards_spec u : passes_guards u = true <-> guarded u.
Proof.
  unfold passes_guards, guarded.
  rewrite (Nat.ltb_antisym 20 (length u)), negb_involutive.
  rewrite !andb_true_iff, !negb_true_iff, !orb_false_iff, andb_false_iff,
    !negb_false_iff, !includes_false, !startsWith_spec, Nat.leb_le.
  tauto.
Qed.

Lemma valid_long_with_scheme u :
  valid u -> 200 <= length u /\ (begins u (js "http://") \/ begins u (js "https://")).
Proof.
  unfold valid. intros H. apply isValidVideoUrl_acceptable in H.
  destruct H as (Hlen & Hscheme & _). auto.
Qed.

Lemma extractVideos_In html v :
  List.In v (extractVideos L html) <-> List.In v (videos (collected L html)).
Proof. unfold extractVideos, sortVideosByQuality. apply sort_In. Qed.

Lemma extractVideos_NoDup (html : jsstring) :
  List.NoDup (List.map url (extractVideos L html)).
Proof.
  unfold extractVideos, sortVideosByQuality. apply sort_NoDup_map.
  apply (sound_collected html).
Qed.

(** The guards of lines 159-175 at work.  The pattern loop discards every
    decoded candidate that is shorter than 20 characters, still contains
    [<], [>] or a manifest marker, or does not start with http:// or
    https://: none is among the videos it leaves.  What the other sources
    add is only checked by the Validator, so every asset of the result is 20
    characters or longer and starts with one of the two schemes. *)
Lemma pattern_loop_discards_fragments (html : jsstring) :
  List.Forall (fun v => guarded (url v))
    (videos (scan_patterns L (cleanHtml html)
               {| videos := []; foundUrls := ∅; calls := 0 |})) /\
  List.Forall
    (fun v => 20 <= length (url v) /\
              (begins (url v) (js "http://") \/ begins (url v) (js "https://")))
    (extractVideos L html).
Proof.
  split; apply List.Forall_forall.
  - intros v Hv.
    destruct (sound_scan_patterns (cleanHtml html) _ (sound_empty taken 0))
      as [_ Hall].
    destruct (Hall v Hv) as [_ [Hg _]]. apply passes_guards_spec, Hg.
  - intros v Hv. apply extractVideos_In in Hv.
    destruct (sound_collected html) as [_ Hall].
    destruct (Hall v Hv) as [_ [Hvalid|[Hg _]]].
    + apply valid_long_with_scheme in Hvalid. destruct Hvalid. split; [lia|assumption].
    + apply passes_guards_spec in Hg. unfold guarded in Hg. tauto.
Qed.

(** The order of the table [qualityOrder] between two labels, the label 4K
    apart. *)
Definition in_label_order (a b : video) : Prop :=
  quality a = Q4K \/ quality b = Q4K \/
  (qualityOrder (quality a) <= qualityOrder (quality b))%Z.

Lemma StronglySorted_weaken {A} (R S : A -> A -> Prop) l :
  (forall a b, R a b -> S a b) -> StronglySorted R l -> StronglySorted S l.
Proof.
  intros HRS. induction 1 as [|a l Hl IH Ha]; constructor; [exact IH|].
  rewrite List.Forall_forall in Ha |- *. auto.
Qed.

Lemma quality_eqb_eq a b : quality_label_eqb a b = true <-> a = b.
Proof. destruct a, b; simpl; split; congruence. Qed.

Lemma sort_stable_by_label (q : quality_label) (l : list video) :
  List.filter (fun v => quality_label_eqb (quality v) q) (sortVideosByQuality l) =
  List.filter (fun v => quality_label_eqb (quality v) q) l.
Proof.
  pose proof (sort_stable _ quality_rank by_quality_key (order_or_5 q) l) as Hst.
  apply (f_equal (List.filter (fun v => quality_label_eqb (quality v) q))) in Hst.
  assert (Hf : forall l' : list video,
    List.filter (fun v => quality_label_eqb (quality v) q)
      (List.filter (fun x => (quality_rank x =? order_or_5 q)%Z) l') =
    List.filter (fun v => quality_label_eqb (quality v) q) l').
  { induction l' as [|x l' IH]; [reflexivity|]. cbn [List.filter].
    destruct (quality_label_eqb (quality x) q) eqn:E.
    - apply quality_eqb_eq in E. unfold quality_rank. rewrite E, Z.eqb_refl.
      cbn [List.filter]. rewrite <- E at 1.
      replace (quality_label_eqb (quality x) (quality x)) with true
        by (symmetry; apply quality_eqb_eq; reflexivity).
      f_equal. rewrite <- E in IH. rewrite <- E. exact IH.
    - destruct (quality_rank x =? order_or_5 q)%Z; [cbn [List.filter]; rewrite E|];
        exact IH. }
  rewrite !Hf in Hst. exact Hst.
Qed.

(** C6, as the code has it: the result is the discovery sequence sorted by
    quality label, in the order 2K, HD, SD, Low, Unknown Quality of the
    table [qualityOrder] (not by [getQualityScore]), and the sort is
    stable: the assets of one label keep their discovery order. *)
Theorem extractVideos_sorted_by_label (html : jsstring) :
  StronglySorted in_label_order (extractVideos L html) /\
  Permutation (extractVideos L html) (videos (collected L html)) /\
  forall q,
    List.filter (fun v => quality_label_eqb (quality v) q) (extractVideos L html) =
    List.filter (fun v => quality_label_eqb (quality v) q) (videos (collected L html)).
Proof.
  unfold extractVideos. split; [|split].
  - apply (StronglySorted_weaken (fun a b => (quality_rank a <= quality_rank b)%Z)).
    + intros a b. unfold in_label_order, quality_rank, order_or_5.
      destruct (quality a), (quality b); simpl; auto; lia.
    + apply (sort_ascending _ quality_rank by_quality_key).
  - apply sort_perm.
  - intros q. apply sort_stable_by_label.
Qed.

(** *** What the stages find *)

(** Every url of [foundUrls] is the url of one of the [videos]. *)
Definition tight (st : scan) : Prop :=
  forall u, u ∈ foundUrls st -> List.In u (List.map url (videos st)).

(** [st'] has every video of [st]. *)
Definition grows (st st' : scan) : Prop :=
  forall v, List.In v (videos st) -> List.In v (videos st').

(** [v] is what [createVideoObject] makes of its url. *)
Definition made (v : video) : Prop :=
  exists n, v = fst (createVideoObject L (url v) n).

Definition all_made (st : scan) : Prop := forall v, List.In v (videos st) -> made v.

Lemma made_created u n : made (fst (createVideoObject L u n)).
Proof. exists n. rewrite createVideoObject_url. reflexivity. Qed.

Lemma add_video_videos u st :
  videos (add_video L u st) = videos st ++ [fst (createVideoObject L u (calls st))] /\
  foundUrls (add_video L u st) = {[u]} ∪ foundUrls st.
Proof. unfold add_video. destruct (createVideoObject L u (calls st)). auto. Qed.

Lemma tight_add_video u st : tight st -> tight (add_video L u st).
Proof.
  intros Ht w. destruct (add_video_videos u st) as [-> ->].
  rewrite List.map_app, List.in_app_iff, elem_of_union, elem_of_singleton.
  intros [->|Hw]; [right|left; apply Ht, Hw].
  simpl. rewrite createVideoObject_url. auto.
Qed.

Lemma grows_add_video u st : grows st (add_video L u st).
Proof.
  intros v Hv. destruct (add_video_videos u st) as [-> _].
  apply List.in_app_iff. auto.
Qed.

Lemma all_made_add_video u st : all_made st -> all_made (add_video L u st).
Proof.
  intros Hm v. destruct (add_video_videos u st) as [-> _].
  rewrite List.in_app_iff. intros [Hv|[<-|[]]]; [apply Hm, Hv|apply made_created].
Qed.

Lemma found_add_video u st : List.In u (List.map url (videos (add_video L u st))).
Proof.
  destruct (add_video_videos u st) as [-> _].
  rewrite List.map_app, List.in_app_iff. right. simpl.
  rewrite createVideoObject_url. auto.
Qed.

(** The three facts a step keeps, together. *)
Definition steady (st0 st : scan) : Prop := tight st /\ all_made st /\ grows st0 st.

Lemma steady_refl st : tight st -> all_made st -> steady st st.
Proof. intros Ht Hm. repeat split; auto. intros v Hv. exact Hv. Qed.

Lemma steady_add_video st0 u st : steady st0 st -> steady st0 (add_video L u st).
Proof.
  intros (Ht & Hm & Hg). repeat split.
  - apply tight_add_video, Ht.
  - apply all_made_add_video, Hm.
  - intros v Hv. apply grows_add_video, Hg, Hv.
Qed.

Lemma steady_visit st0 index st m : steady st0 st -> steady st0 (visit L index st m).
Proof.
  intros Hs. unfold visit.
  destruct (negb (passes_guards (candidate m))); [exact Hs|].
  destruct (Nat.eqb index 31 && permissive (candidate m)).
  - destruct (has (foundUrls st) (candidate m)); [exact Hs|].
    apply steady_add_video, Hs.
  - destruct (isValidVideoUrl L (Str (candidate m)) && negb (has (foundUrls st) (candidate m)));
      [apply steady_add_video|]; exact Hs.
Qed.

Lemma steady_fallback_visit st0 st m : steady st0 st -> steady st0 (fallback_visit L st m).
Proof.
  intros Hs. unfold fallback_visit.
  destruct (isValidVideoUrl L (Str (fallback_candidate m)) &&
            negb (has (foundUrls st) (fallback_candidate m)));
    [apply steady_add_video|]; exact Hs.
Qed.

Lemma steady_scan_patterns st0 html st :
  steady st0 st -> steady st0 (scan_patterns L html st).
Proof.
  intros Hs. unfold scan_patterns.
  apply fold_left_keeps; [|exact Hs]. intros a p _ Ha.
  apply fold_left_keeps; [|exact Ha]. intros a' m _. apply steady_visit.
Qed.

Lemma steady_fallback st0 html st :
  steady st0 st -> steady st0 (fallbackVideoSearch L html st).
Proof.
  intros Hs. unfold fallbackVideoSearch.
  apply fold_left_keeps; [|exact Hs]. intros a p _ Ha.
  apply fold_left_keeps; [|exact Ha]. intros a' m _. apply steady_fallback_visit.
Qed.

Lemma push_valid_made urls :
  forall acc n,
    (forall v, List.In v acc -> made v) ->
    forall v, List.In v (fst (push_valid L urls acc n)) -> made v.
Proof.
  induction urls as [|u urls IH]; intros acc n Hacc v; cbn [push_valid].
  - apply Hacc.
  - destruct (isValidVideoUrl L (Str u)); [|apply IH; exact Hacc].
    unfold bind. pose proof (made_created u n) as Hw.
    destruct (createVideoObject L u n) as [w n']. simpl in Hw.
    apply IH. intros x Hx. apply List.in_app_iff in Hx.
    destruct Hx as [Hx|[<-|[]]]; [apply Hacc, Hx|exact Hw].
Qed.

Lemma extractWithCheerio_made html n v :
  List.In v (fst (extractWithCheerio L html n)) -> made v.
Proof.
  unfold extractWithCheerio. destruct (cheerio_load L html) as [doc|]; [|intros []].
  unfold bind.
  destruct (push_valid L (present (video_src doc)) [] n) as [vs1 n1] eqn:E1.
  destruct (push_valid L (present (video_source_src doc)) vs1 n1) as [vs2 n2] eqn:E2.
  apply push_valid_made. intros x Hx.
  change vs2 with (fst (vs2, n2)) in Hx. rewrite <- E2 in Hx.
  revert x Hx. apply push_valid_made. intros x Hx.
  change vs1 with (fst (vs1, n1)) in Hx. rewrite <- E1 in Hx.
  revert x Hx. apply push_valid_made. intros x [].
Qed.

Lemma extractFromStructuredData_made html n v :
  List.In v (fst (extractFromStructuredData L html n)) -> made v.
Proof. unfold extractFromStructuredData. apply push_valid_made. intros x []. Qed.

Lemma steady_merge st0 extract st :
  (forall n v, List.In v (fst (extract n)) -> made v) ->
  steady st0 st -> steady st0 (merge extract st).
Proof.
  intros Hmade Hs. unfold merge. specialize (Hmade (calls st)).
  destruct (extract (calls st)) as [others n]. simpl in Hmade.
  apply fold_left_keeps.
  - intros a v Hv (Ht & Hm & Hg). unfold add_if_new.
    destruct (has (foundUrls a) (url v)); [repeat split; assumption|].
    repeat split.
    + intros w. unfold tight in Ht. cbn [videos foundUrls].
      rewrite List.map_app, List.in_app_iff, elem_of_union, elem_of_singleton.
      intros [->|Hw]; [right; simpl; auto|left; apply Ht, Hw].
    + intros w. cbn [videos]. rewrite List.in_app_iff.
      intros [Hw|[<-|[]]]; [apply Hm, Hw|apply Hmade, Hv].
    + intros w Hw. cbn [videos]. apply List.in_app_iff. left. apply Hg, Hw.
  - destruct Hs as (Ht & Hm & Hg). repeat split; assumption.
Qed.

Definition start : scan := {| videos := []; foundUrls := ∅; calls := 0 |}.

Lemma steady_start : steady start start.
Proof.
  apply steady_refl.
  - intros u Hu. apply not_elem_of_empty in Hu. contradiction.
  - intros v [].
Qed.

Lemma steady_scanned html : steady (scan_patterns L html start) (scanned L html).
Proof.
  unfold scanned. fold start.
  pose proof (steady_scan_patterns start html start steady_start) as (Ht & Hm & _).
  destruct (Nat.eqb _ 0).
  - apply steady_fallback, steady_refl; assumption.
  - apply steady_refl; assumption.
Qed.

Lemma steady_collected html : steady (scanned L (cleanHtml html)) (collected L html).
Proof.
  unfold collected.
  apply steady_merge; [intros n v; apply extractFromStructuredData_made|].
  apply steady_merge; [intros n v; apply extractWithCheerio_made|].
  destruct (steady_scanned (cleanHtml html)) as (Ht & Hm & _).
  apply steady_refl; assumption.
Qed.

(** Every asset of the result is what [createVideoObject] makes of its url. *)
Lemma extractVideos_made html v : List.In v (extractVideos L html) -> made v.
Proof.
  intros Hv. apply extractVideos_In in Hv.
  destruct (steady_collected html) as (_ & Hm & _). apply Hm, Hv.
Qed.

Lemma fold_left_reaches {A B} (I Q : A -> Prop) (f : A -> B -> A) l b :
  List.In b l ->
  (forall a b', I a -> I (f a b')) ->
  (forall a, I a -> Q (f a b)) ->
  (forall a b', I a -> Q a -> Q (f a b')) ->
  forall a, I a -> I (fold_left f l a) /\ Q (fold_left f l a).
Proof.
  intros Hb HI Hhit Hkeep.
  assert (Hafter : forall l a, I a -> Q a -> I (fold_left f l a) /\ Q (fold_left f l a)).
  { clear Hb. intros l0. induction l0 as [|b' l0 IH]; intros a Ha HQ; simpl; [auto|].
    apply IH; [apply HI, Ha|apply Hkeep; assumption]. }
  revert Hb. induction l as [|b' l IH]; intros Hb a Ha; [destruct Hb|]. simpl.
  destruct Hb as [->|Hb].
  - apply Hafter; [apply HI, Ha|apply Hhit, Ha].
  - apply IH; [exact Hb|apply HI, Ha].
Qed.

Lemma indexed_nth {A} (d : A) (l : list A) i :
  i < length l -> List.In (i, nth i l d) (indexed l).
Proof.
  unfold indexed.
  assert (H : forall start i, i < length l ->
            List.In (start + i, nth i l d) (List.combine (List.seq start (length l)) l)).
  { induction l as [|a l IH]; intros start j Hj; [simpl in Hj; lia|].
    cbn [length List.seq List.combine]. destruct j as [|j].
    - left. rewrite Nat.add_0_r. reflexivity.
    - right. cbn [nth]. replace (start + S j) with (S start + j) by lia.
      apply IH. simpl in Hj. lia. }
  intros Hi. apply (H 0 i Hi).
Qed.

Definition knows (u : jsstring) (st : scan) : Prop := List.In u (List.map url (videos st)).

Lemma knows_grows u st st' : grows st st' -> knows u st -> knows u st'.
Proof.
  unfold knows. intros Hg Hu. apply List.in_map_iff in Hu.
  destruct Hu as (v & <- & Hv). apply List.in_map, Hg, Hv.
Qed.

Lemma knows_step u (f : scan -> scan) :
  (forall st, steady st st -> steady st (f st)) ->
  forall st, steady st st -> knows u st -> knows u (f st).
Proof. intros Hf st Hs. apply knows_grows. apply (Hf st Hs). Qed.

Lemma steady_self st0 st : steady st0 st -> steady st st.
Proof. intros (Ht & Hm & _). apply steady_refl; assumption. Qed.

(** A match of the last pattern whose candidate passes the guards and bears
    the permissive signature is among the videos after the pattern loop. *)
Lemma pattern_31_finds html m :
  List.In m (exec_all (nth 31 videoPatterns {| source := REmpty; rflags := g |}) html) ->
  passes_guards (candidate m) = true ->
  permissive (candidate m) = true ->
  knows (candidate m) (scan_patterns L html start).
Proof.
  intros Hm Hg Hp. unfold scan_patterns.
  apply (fold_left_reaches (fun st => steady st st) (knows (candidate m)) _ _
           (31, nth 31 videoPatterns {| source := REmpty; rflags := g |})).
  - apply indexed_nth. vm_compute. lia.
  - intros a p Ha.
    apply (fold_left_keeps (fun st => steady st st)); [|exact Ha].
    intros a' m' _ Ha'. eapply steady_self, steady_visit, Ha'.
  - intros a Ha. cbn [fst snd].
    apply (fold_left_reaches (fun st => steady st st) (knows (candidate m)) _ _ m Hm).
    + intros a' m' Ha'. eapply steady_self, steady_visit, Ha'.
    + intros a' Ha'. unfold visit. rewrite Hg, Hp. cbn [negb Nat.eqb andb].
      unfold has. case_bool_decide as Hin; [apply Ha', Hin|apply found_add_video].
    + intros a' m' Ha'. apply knows_grows. apply (steady_visit a' 31 a' m' Ha').
    + exact Ha.
  - intros a p Ha HQ.
    apply (fold_left_keeps (fun st => steady st st /\ knows (candidate m) st)); [|auto].
    intros a' m' _ [Ha' HQ']. split.
    + eapply steady_self, steady_visit, Ha'.
    + revert HQ'. apply knows_grows. apply (steady_visit a' (fst p) a' m' Ha').
  - apply steady_start.
Qed.

(** A match of a fallback pattern whose candidate is valid is among the
    videos after the fallback search. *)
Lemma fallback_finds html st p m :
  List.In p fallbackPatterns -> List.In m (exec_all p html) ->
  isValidVideoUrl L (Str (fallback_candidate m)) = true ->
  steady st st ->
  knows (fallback_candidate m) (fallbackVideoSearch L html st).
Proof.
  intros Hp Hm Hv Hst. unfold fallbackVideoSearch.
  apply (fold_left_reaches (fun st => steady st st) (knows (fallback_candidate m)) _ _ p Hp).
  - intros a p' Ha.
    apply (fold_left_keeps (fun st => steady st st)); [|exact Ha].
    intros a' m' _ Ha'. eapply steady_self, steady_fallback_visit, Ha'.
  - intros a Ha.
    apply (fold_left_reaches (fun st => steady st st) (knows (fallback_candidate m)) _ _ m Hm).
    + intros a' m' Ha'. eapply steady_self, steady_fallback_visit, Ha'.
    + intros a' Ha'. unfold fallback_visit. rewrite Hv. cbn [andb].
      unfold has. case_bool_decide as Hin; cbn [negb];
        [apply Ha', Hin|apply found_add_video].
    + intros a' m' Ha'. apply knows_grows. apply (steady_fallback_visit a' a' m' Ha').
    + exact Ha.
  - intros a p' Ha HQ.
    apply (fold_left_keeps (fun st => steady st st /\ knows (fallback_candidate m) st)); [|auto].
    intros a' m' _ [Ha' HQ']. split.
    + eapply steady_self, steady_fallback_visit, Ha'.
    + revert HQ'. apply knows_grows. apply (steady_fallback_visit a' a' m' Ha').
  - exact Hst.
Qed.

(** What the scan knows, the result has. *)
Lemma scanned_in_result html u :
  knows u (scanned L (cleanHtml html)) -> List.In u (List.map url (extractVideos L html)).
Proof.
  intros Hu. apply (knows_grows u _ (collected L html)) in Hu.
  - unfold knows in Hu. apply List.in_map_iff in Hu. destruct Hu as (v & <- & Hv).
    apply List.in_map, extractVideos_In, Hv.
  - apply steady_collected.
Qed.

Lemma pattern_loop_in_scanned html u :
  knows u (scan_patterns L html start) -> knows u (scanned L html).
Proof. apply knows_grows. apply steady_scanned. Qed.

Definition last_pattern : RegExp := nth 31 videoPatterns {| source := REmpty; rflags := g |}.

Lemma existsb_str_eqb u l : existsb (str_eqb u) l = true <-> List.In u l.
Proof.
  rewrite List.existsb_exists. split.
  - intros (x & Hx & E). apply str_eqb_eq in E. subst x. exact Hx.
  - intros H. exists u. split; [exact H|]. apply str_eqb_eq. reflexivity.
Qed.

(** The same, by url: [u] is the candidate of some match of pattern 31. *)
Lemma permissive_url_in_result html u :
  existsb (str_eqb u) (List.map candidate (exec_all last_pattern (cleanHtml html))) = true ->
  passes_guards u = true -> permissive u = true ->
  List.In u (List.map url (extractVideos L html)).
Proof.
  intros Hu Hg Hp. apply existsb_str_eqb, List.in_map_iff in Hu.
  destruct Hu as (m & <- & Hm).
  apply scanned_in_result, pattern_loop_in_scanned, pattern_31_finds; assumption.
Qed.

(** *** Where an asset that was not validated comes from *)

Lemma last_pattern_source :
  source last_pattern =
  seq [DQ; star not_dq; lit "\/\/"; star not_dq; lit ".mp4"; star not_dq; DQ].
Proof. reflexivity. Qed.

Lemma indexed_is_nth {A} (d : A) (l : list A) i a :
  List.In (i, a) (indexed l) -> a = nth i l d.
Proof.
  unfold indexed.
  assert (H : forall start,
            List.In (i, a) (List.combine (List.seq start (length l)) l) ->
            start <= i /\ a = nth (i - start) l d).
  { induction l as [|b l IH]; intros start; cbn [length List.seq List.combine];
      [intros []|].
    intros [[= <- <-]|H].
    - rewrite Nat.sub_diag. split; [lia|reflexivity].
    - apply IH in H. destruct H as [Hle ->]. split; [lia|].
      replace (i - start) with (S (i - S start)) by lia. reflexivity. }
  intros Hin. apply H in Hin. destruct Hin as [_ ->]. rewrite Nat.sub_0_r. reflexivity.
Qed.

(** [u] came in by the permissive rule: it is the candidate of a match of
    pattern 31 in the cleaned page, it passed the guards of the loop and it
    bears the signature. *)
Definition by_permissive_rule (cleaned u : jsstring) : Prop :=
  (exists m, List.In m (exec_all last_pattern cleaned) /\ candidate m = u) /\
  passes_guards u = true /\ permissive u = true.

(** What the scan of a page lets in, with where it comes from. *)
Definition traced (cleaned u : jsstring) : Prop :=
  valid u \/ by_permissive_rule cleaned u.

Lemma sound_visit_traced cleaned index p st m :
  List.In (index, p) (indexed videoPatterns) -> List.In m (exec_all p cleaned) ->
  sound (traced cleaned) st -> sound (traced cleaned) (visit L index st m).
Proof.
  intros Hp Hm Hs. unfold visit.
  destruct (passes_guards (candidate m)) eqn:Hg; cbn [negb]; [|exact Hs].
  destruct (Nat.eqb index 31 && permissive (candidate m)) eqn:Hper.
  - apply andb_true_iff in Hper. destruct Hper as [Hi Hper].
    apply Nat.eqb_eq in Hi. subst index.
    apply (indexed_is_nth {| source := REmpty; rflags := g |}) in Hp. subst p.
    unfold has. case_bool_decide as Hin; [exact Hs|].
    apply sound_add_video; [exact Hs|exact Hin|]. right.
    split; [exists m; split; [exact Hm|reflexivity]|split; assumption].
  - destruct (isValidVideoUrl L (Str (candidate m))) eqn:Hv; cbn [andb]; [|exact Hs].
    unfold has. case_bool_decide as Hin; cbn [negb]; [exact Hs|].
    apply sound_add_video; [exact Hs|exact Hin|]. left. exact Hv.
Qed.

Lemma sound_scan_traced cleaned st :
  sound (traced cleaned) st -> sound (traced cleaned) (scan_patterns L cleaned st).
Proof.
  intros Hs. unfold scan_patterns.
  apply fold_left_keeps; [|exact Hs]. intros a [i p] Hp Ha. cbn [fst snd].
  apply fold_left_keeps; [|exact Ha]. intros a' m Hm.
  apply (sound_visit_traced cleaned i p); assumption.
Qed.

Lemma sound_collected_traced html :
  sound (traced (cleanHtml html)) (collected L html).
Proof.
  unfold collected.
  apply sound_merge.
  { intros n v Hv. left. eapply extractFromStructuredData_valid, Hv. }
  apply sound_merge.
  { intros n v Hv. left. eapply extractWithCheerio_valid, Hv. }
  unfold scanned.
  pose proof (sound_scan_traced (cleanHtml html) _
                (sound_empty (traced (cleanHtml html)) 0)) as Hs.
  destruct (Nat.eqb _ 0); [|exact Hs].
  apply sound_fallback; [|exact Hs]. intros u Hu. left. exact Hu.
Qed.

(** C2, as the code has it: every asset that [extractVideos] returns has a
    url the Validator accepts, or was let in by the permissive rule: its url
    is then the decoded candidate of a match of pattern 31 in the cleaned
    page, it passed the guards of the scan (20 characters or more, no
    markup or manifest marker, an http or https scheme) and contains
    [scontent] and [.mp4].  Every such candidate of pattern 31 is in the
    result, whatever the Validator makes of it. *)
Theorem extractVideos_valid_or_permissive (html : jsstring) :
  List.Forall
    (fun v =>
       isValidVideoUrl L (Str (url v)) = true \/
       ((exists m, List.In m (exec_all last_pattern (cleanHtml html)) /\
                   url v = candidate m) /\
        guarded (url v) /\ contains (url v) (js "scontent") /\
        contains (url v) (js ".mp4")))
    (extractVideos L html) /\
  (forall m,
     List.In m (exec_all last_pattern (cleanHtml html)) ->
     guarded (candidate m) ->
     contains (candidate m) (js "scontent") -> contains (candidate m) (js ".mp4") ->
     List.In (candidate m) (List.map url (extractVideos L html))).
Proof.
  split.
  - apply List.Forall_forall. intros v Hv. apply extractVideos_In in Hv.
    destruct (sound_collected_traced html) as [_ Hall].
    destruct (Hall v Hv) as [_ [Hvalid|((m & Hm & E) & Hg & Hp)]]; [left; exact Hvalid|].
    right. split; [exists m; auto|].
    apply passes_guards_spec in Hg. unfold permissive in Hp.
    apply andb_true_iff in Hp. rewrite !includes_spec in Hp. tauto.
  - intros m Hm Hg Hs Hmp4.
    apply scanned_in_result, pattern_loop_in_scanned, pattern_31_finds.
    + exact Hm.
    + apply passes_guards_spec, Hg.
    + unfold permissive. apply andb_true_iff. rewrite !includes_spec. auto.
Qed.

Lemma indexed_In {A} (l : list A) i a : List.In (i, a) (indexed l) -> List.In a l.
Proof. unfold indexed. apply List.in_combine_r. Qed.

(** When no candidate of any pattern passes the guards, the pattern loop
    adds nothing. *)
Lemma scan_patterns_nothing html st :
  forallb (fun p => forallb (fun m => negb (passes_guards (candidate m))) (exec_all p html))
    videoPatterns = true ->
  scan_patterns L html st = st.
Proof.
  intros H. rewrite List.forallb_forall in H. unfold scan_patterns.
  apply (fold_left_keeps (fun a => a = st)); [|reflexivity].
  intros a [i p] Hp ->. cbn [fst snd].
  apply indexed_In, H in Hp. rewrite List.forallb_forall in Hp.
  apply (fold_left_keeps (fun a => a = st)); [|reflexivity].
  intros a m Hm ->. unfold visit. rewrite (Hp m Hm). reflexivity.
Qed.

(** A valid candidate of the fallback search is in the result when the
    pattern loop found nothing. *)
Lemma fallback_url_in_result html u :
  forallb (fun p => forallb (fun m => negb (passes_guards (candidate m)))
                      (exec_all p (cleanHtml html)))
    videoPatterns = true ->
  existsb (str_eqb u)
    (List.flat_map (fun p => List.map fallback_candidate (exec_all p (cleanHtml html)))
       fallbackPatterns) = true ->
  isValidVideoUrl L (Str u) = true ->
  List.In u (List.map url (extractVideos L html)).
Proof.
  intros Hnone Hu Hv. apply scanned_in_result. unfold scanned.
  rewrite (scan_patterns_nothing _ _ Hnone). cbn [videos length Nat.eqb].
  apply existsb_str_eqb, List.in_flat_map in Hu. destruct Hu as (p & Hp & Hu).
  apply List.in_map_iff in Hu. destruct Hu as (m & <- & Hm).
  apply (fallback_finds _ _ p m Hp Hm Hv). apply steady_start.
Qed.

(** The audio flag of an asset with the format code m69 is the outcome of
    one call of [Math.random]. *)
Lemma m69_hasAudio u n :
  includes u (js "/m69/") = true ->
  hasAudio (fst (createVideoObject L u n)) =
  negb (Qle_bool (Math_random L n) zero_point_three).
Proof.
  intros H. unfold createVideoObject, detectContentType, bind, ret, Math_random_call.
  rewrite H. destruct (includes u (js "/m78/")); reflexivity.
Qed.

Lemma made_quality v : made v -> quality v = detectQuality (url v).
Proof. intros (n & Hn). rewrite Hn at 1. apply createVideoObject_quality. Qed.

Lemma in_map_url (l : list video) u :
  List.In u (List.map url l) -> exists v, List.In v l /\ url v = u.
Proof. intros H. apply List.in_map_iff in H. destruct H as (v & E & Hv). eauto. Qed.

(** Distinct urls in a result, counted. *)
Lemma at_least_as_many (us : list jsstring) (l : list video) :
  List.NoDup us -> (forall u, List.In u us -> List.In u (List.map url l)) ->
  length us <= length l.
Proof.
  intros Hnd Hin. rewrite <- (List.length_map url l).
  apply List.NoDup_incl_length; assumption.
Qed.

End WithLibs.

End PipelineFacts.

(** ** The cap: [limitResults] and its one caller *)

Module CapFacts.
Import RegexFacts ValidatorFacts SortFacts PipelineFacts.

Lemma limitResults_length (videos : list video) (maxVideos : nat) :
  length (limitResults videos maxVideos) <= maxVideos.
Proof.
  unfold limitResults. destruct (Nat.leb_spec (length videos) maxVideos) as [H|H].
  - exact H.
  - rewrite List.length_firstn. lia.
Qed.

Lemma firstn_In {A} n (l : list A) x : List.In x (firstn n l) -> List.In x l.
Proof.
  revert l. induction n as [|n IH]; intros [|a l]; simpl; try tauto.
  intros [H|H]; [left; exact H|right; apply IH, H].
Qed.

Lemma limitResults_In videos maxVideos v :
  List.In v (limitResults videos maxVideos) -> List.In v videos.
Proof.
  unfold limitResults. destruct (length videos <=? maxVideos); [auto|].
  intros H. apply firstn_In in H. apply sort_In in H. exact H.
Qed.

(** Below the cap nothing is dropped and the order is kept. *)
Lemma limitResults_below videos maxVideos :
  length videos <= maxVideos -> limitResults videos maxVideos = videos.
Proof.
  intros H. unfold limitResults. apply Nat.leb_le in H. rewrite H. reflexivity.
Qed.

(** C3, as the code has it: [limitResults] returns at most [maxVideos]
    assets, all of them from its input, and [contextualVideoFiltering],
    its one caller, at most 15.  Neither is called by [extractVideos] or by
    the route. *)
Theorem cap_holds_where_it_is_applied :
  (forall videos maxVideos,
     length (limitResults videos maxVideos) <= maxVideos /\
     List.Forall (fun v => List.In v videos) (limitResults videos maxVideos)) /\
  (forall videos sourceCode,
     length (contextualVideoFiltering videos sourceCode) <= 15).
Proof.
  split.
  - intros videos maxVideos. split; [apply limitResults_length|].
    apply List.Forall_forall. intros v. apply limitResults_In.
  - intros videos sourceCode. unfold contextualVideoFiltering. cbv zeta.
    match goal with
    | |- context [if ?c then _ else _] => destruct c
    end; apply limitResults_length.
Qed.

Section Route.

Variable L : Libs.

Lemma facebook_by_scontent v :
  includes (url v) (js "scontent") = true -> Server.is_facebook_video v = true.
Proof.
  intros H. unfold Server.is_facebook_video. cbv zeta. rewrite H.
  destruct (includes (url v) (js "facebook.com")), (includes (url v) (js "fbcdn.net"));
    reflexivity.
Qed.

(** The reply of the route to a source that passes its checks, when the
    extraction finds a Facebook video. *)
Lemma route_extracted src :
  1000 <= length src ->
  (N.of_nat (length src) <= 50 * 1024 * 1024)%N ->
  includes src (js "<html") = true ->
  0 < length (List.filter Server.is_facebook_video (extractVideos L src)) ->
  Server.extract_videos_route L (Str src) =
  Server.status_200
    {| Server.resp_videos := List.filter Server.is_facebook_video (extractVideos L src);
       Server.count := length (List.filter Server.is_facebook_video (extractVideos L src));
       Server.message := Server.extracted;
       Server.totalFound := length (extractVideos L src);
       Server.filteredCount :=
         length (List.filter Server.is_facebook_video (extractVideos L src)) |}.
Proof.
  intros Hlen Hmax Hhtml Hsome.
  destruct src as [|c s]; [simpl in Hlen; lia|].
  unfold Server.extract_videos_route.
  apply Nat.ltb_ge in Hlen. rewrite Hlen.
  apply N.ltb_ge in Hmax. rewrite Hmax.
  rewrite Hhtml. cbn [negb andb]. cbv zeta.
  apply Nat.ltb_lt in Hsome. rewrite Hsome. reflexivity.
Qed.

Lemma NoDup_map_filter {A B} (f : A -> B) (p : A -> bool) l :
  List.NoDup (List.map f l) -> List.NoDup (List.map f (List.filter p l)).
Proof.
  induction l as [|a l IH]; cbn [List.map List.filter]; intros H; [constructor|].
  inversion H as [|? ? Ha Hl]; subst.
  destruct (p a); [|apply IH, Hl]. cbn [List.map]. constructor; [|apply IH, Hl].
  intros Hin. apply Ha. apply List.in_map_iff in Hin. destruct Hin as (x & E & Hx).
  apply List.filter_In in Hx. rewrite <- E. apply List.in_map, Hx.
Qed.

Lemma create_all_urls urls n : List.map url (fst (Server.create_all L urls n)) = urls.
Proof.
  revert n. induction urls as [|u urls IH]; intros n; cbn [Server.create_all];
    [reflexivity|].
  unfold bind, ret. pose proof (createVideoObject_url L u n) as Hu.
  destruct (createVideoObject L u n) as [v n1]. cbn [fst] in Hu.
  specialize (IH n1). destruct (Server.create_all L urls n1) as [vs n2].
  cbn [fst List.map] in *. rewrite Hu, IH. reflexivity.
Qed.

Lemma set_add_NoDup urls u : List.NoDup urls -> List.NoDup (Server.set_add urls u).
Proof.
  intros H. unfold Server.set_add. destruct (existsb (str_eqb u) urls) eqn:E; [exact H|].
  apply NoDup_snoc; [exact H|]. intros Hin. apply existsb_str_eqb in Hin. congruence.
Qed.

Lemma additional_urls_NoDup src : List.NoDup (Server.additional_urls L src).
Proof.
  unfold Server.additional_urls.
  apply (fold_left_keeps (fun urls => List.NoDup urls)); [|constructor].
  intros urls m _ H.
  destruct (isValidVideoUrl L _); [apply set_add_NoDup|]; exact H.
Qed.

(** The videos of a reply; a refusal carries none. *)
Definition reply_videos (r : Server.response) : list video :=
  match r with
  | Server.status_200 reply => Server.resp_videos reply
  | Server.status_400 _ => []
  end.

Lemma route_unique_urls sourceCode :
  List.NoDup (List.map url (reply_videos (Server.extract_videos_route L sourceCode))).
Proof.
  destruct sourceCode as [[|c s]| | | | |]; try constructor.
  unfold Server.extract_videos_route.
  destruct (length (c :: s) <? 1000); [constructor|].
  destruct (50 * 1024 * 1024 <? N.of_nat (length (c :: s)))%N; [constructor|].
  destruct (negb (includes (c :: s) (js "<html")) && negb (includes (c :: s) (js "<!DOCTYPE")));
    [constructor|].
  cbv zeta.
  destruct (0 <? length (List.filter Server.is_facebook_video (extractVideos L (c :: s)))).
  - cbn [reply_videos Server.resp_videos]. apply NoDup_map_filter, extractVideos_NoDup.
  - destruct (0 <? length (Server.additional_urls L (c :: s))).
    + cbn [reply_videos Server.resp_videos]. rewrite create_all_urls.
      apply additional_urls_NoDup.
    + constructor.
Qed.

(** C8: no two assets that [extractVideos] returns share a url, whatever
    source they come from, and so no two videos of a reply of the route. *)
Theorem extractVideos_unique_urls :
  (forall html, List.NoDup (List.map url (extractVideos L html))) /\
  (forall sourceCode,
     List.NoDup (List.map url (reply_videos (Server.extract_videos_route L sourceCode)))).
Proof. split; [apply extractVideos_NoDup|apply route_unique_urls]. Qed.

End Route.

End CapFacts.

(** ** Cluster dedup: [identifyMainVideos] *)

Module GroupingFacts.
Import SortFacts.

Definition baseId (v : video) : jsstring := extractBaseVideoId (url v).

Definition score (v : video) : Z := getQualityScore (url v).

(** The videos of base id [k], in order. *)
Definition members (k : jsstring) (videos : list video) : list video :=
  List.filter (fun v => str_eqb k (baseId v)) videos.

(** [videoMap.get(k)] *)
Fixpoint lookup (k : jsstring) (m : videoMap) : option (list video) :=
  match m with
  | [] => None
  | (k0, group) :: m' => if str_eqb k0 k then Some group else lookup k m'
  end.

Definition some_members (k : jsstring) (videos : list video) : option (list video) :=
  match members k videos with
  | [] => None
  | group => Some group
  end.

Lemma str_eqb_refl s : str_eqb s s = true.
Proof. apply str_eqb_eq. reflexivity. Qed.

Lemma str_eqb_sym s t : str_eqb s t = str_eqb t s.
Proof.
  apply eq_true_iff_eq. rewrite !str_eqb_eq. split; congruence.
Qed.

Lemma str_eqb_trans_l k k0 k' : str_eqb k0 k = true -> str_eqb k0 k' = str_eqb k k'.
Proof. intros H. apply str_eqb_eq in H. subst. reflexivity. Qed.

Lemma lookup_push k v m k' :
  lookup k' (push_to_group k v m) =
  if str_eqb k k' then
    Some (match lookup k m with Some group => group ++ [v] | None => [v] end)
  else lookup k' m.
Proof.
  induction m as [|[k0 g0] m IH]; cbn [push_to_group lookup].
  - destruct (str_eqb k k'); reflexivity.
  - destruct (str_eqb k0 k) eqn:E; cbn [lookup].
    + rewrite (str_eqb_trans_l _ _ k' E). destruct (str_eqb k k'); reflexivity.
    + destruct (str_eqb k0 k') eqn:E'.
      * destruct (str_eqb k k') eqn:E''; [|reflexivity].
        apply str_eqb_eq in E', E''. subst. rewrite str_eqb_refl in E. discriminate.
      * exact IH.
Qed.

Lemma lookup_None k (m : videoMap) : lookup k m = None <-> ~ List.In k (List.map fst m).
Proof.
  induction m as [|[k0 g0] m IH]; cbn [lookup List.map fst List.In]; [tauto|].
  destruct (str_eqb k0 k) eqn:E.
  - apply str_eqb_eq in E. split; [discriminate|]. intros H. exfalso. apply H. auto.
  - rewrite IH. split.
    + intros H [H'|H']; [|contradiction]. subst. rewrite str_eqb_refl in E. discriminate.
    + intros H H'. apply H. right. exact H'.
Qed.

Lemma push_to_group_keys k v m :
  List.map fst (push_to_group k v m) =
  match lookup k m with
  | Some _ => List.map fst m
  | None => List.map fst m ++ [k]
  end.
Proof.
  induction m as [|[k0 g0] m IH]; [reflexivity|]. cbn [push_to_group lookup].
  destruct (str_eqb k0 k); [reflexivity|]. cbn [List.map fst]. rewrite IH.
  destruct (lookup k m); reflexivity.
Qed.

Lemma lookup_In k g (m : videoMap) :
  List.NoDup (List.map fst m) -> (List.In (k, g) m <-> lookup k m = Some g).
Proof.
  induction m as [|[k0 g0] m IH]; intros Hnd; cbn [lookup List.In].
  - split; [intros []|discriminate].
  - inversion Hnd as [|? ? Hk0 Hnd']; subst.
    destruct (str_eqb k0 k) eqn:E.
    + apply str_eqb_eq in E. subst k0. split.
      * intros [[= ->]|H]; [reflexivity|].
        exfalso. apply Hk0. apply (List.in_map fst _ _ H).
      * intros [= ->]. left. reflexivity.
    + rewrite <- (IH Hnd'). split.
      * intros [[= -> ->]|H]; [|exact H]. rewrite str_eqb_refl in E. discriminate.
      * intros H. right. exact H.
Qed.

(** The map groups [videos]: its keys are distinct, and the group of a
    key is the videos of that base id, when there are any. *)
Definition groups_videos (videos : list video) (m : videoMap) : Prop :=
  List.NoDup (List.map fst m) /\ forall k, lookup k m = some_members k videos.

Lemma groups_videos_push videos m v :
  groups_videos videos m ->
  groups_videos (videos ++ [v]) (push_to_group (baseId v) v m).
Proof.
  intros [Hnd Hl]. split.
  - rewrite push_to_group_keys. destruct (lookup (baseId v) m) eqn:E; [exact Hnd|].
    apply PipelineFacts.NoDup_snoc; [exact Hnd|]. apply lookup_None, E.
  - intros k. rewrite lookup_push, !Hl. unfold some_members, members.
    rewrite List.filter_app. cbn [List.filter].
    rewrite (str_eqb_sym k (baseId v)).
    destruct (str_eqb (baseId v) k) eqn:E.
    + apply str_eqb_eq in E. subst k.
      destruct (List.filter _ videos); reflexivity.
    + rewrite List.app_nil_r. reflexivity.
Qed.

Definition grouped (videos : list video) : videoMap :=
  fold_left (fun m v => push_to_group (extractBaseVideoId (url v)) v m) videos [].

Lemma groups_videos_grouped videos : groups_videos videos (grouped videos).
Proof.
  unfold grouped.
  assert (H : forall todo done m,
            groups_videos done m ->
            groups_videos (done ++ todo)
              (fold_left (fun m v => push_to_group (extractBaseVideoId (url v)) v m) todo m)).
  { intros todo. induction todo as [|v todo IH]; intros done m Hm; cbn [fold_left].
    - rewrite List.app_nil_r. exact Hm.
    - replace (done ++ v :: todo) with ((done ++ [v]) ++ todo)
        by (rewrite <- List.app_assoc; reflexivity).
      apply IH. apply (groups_videos_push done m v Hm). }
  apply (H videos [] []). split; [constructor|]. intros k. reflexivity.
Qed.

Lemma grouped_entry videos k group :
  List.In (k, group) (grouped videos) -> group = members k videos /\ group <> [].
Proof.
  destruct (groups_videos_grouped videos) as [Hnd Hl]. intros H.
  apply (lookup_In _ _ _ Hnd) in H. rewrite Hl in H. unfold some_members in H.
  destruct (members k videos) eqn:E; [discriminate|].
  injection H as <-. split; [reflexivity|discriminate].
Qed.

Lemma grouped_has videos v :
  List.In v videos -> List.In (baseId v, members (baseId v) videos) (grouped videos).
Proof.
  destruct (groups_videos_grouped videos) as [Hnd Hl]. intros H.
  apply (lookup_In _ _ _ Hnd). rewrite Hl. unfold some_members.
  destruct (members (baseId v) videos) eqn:E; [|reflexivity].
  exfalso. assert (Hin : List.In v (members (baseId v) videos)).
  { apply List.filter_In. split; [exact H|apply str_eqb_refl]. }
  rewrite E in Hin. destruct Hin.
Qed.

Lemma members_In k videos v :
  List.In v (members k videos) <-> List.In v videos /\ baseId v = k.
Proof.
  unfold members. rewrite List.filter_In, str_eqb_eq. split; intros [H1 H2]; auto.
Qed.

(** What [selectBestVideoFromGroup] returns. *)
Lemma selectBest_Some group best :
  selectBestVideoFromGroup group = Some best ->
  List.In best group /\ content_complete best = true /\
  forall w, List.In w group -> content_complete w = true -> (score w <= score best)%Z.
Proof.
  unfold selectBestVideoFromGroup. cbv zeta.
  destruct (sort by_score_descending (List.filter content_complete group))
    as [|b l] eqn:E; [discriminate|].
  intros [= ->].
  assert (Hin : List.In best (List.filter content_complete group)).
  { apply (sort_In by_score_descending). rewrite E. left. reflexivity. }
  apply List.filter_In in Hin. destruct Hin as [Hin Hcc].
  split; [exact Hin|]. split; [exact Hcc|].
  intros w Hw Hcw.
  pose proof (sort_head by_score_descending (fun v => (- getQualityScore (url v))%Z)
                by_score_key best l _ E w) as H.
  unfold score. cbv beta in H.
  assert (Hw' : List.In w (List.filter content_complete group))
    by (apply List.filter_In; auto).
  specialize (H Hw'). lia.
Qed.

Lemma selectBest_None group :
  selectBestVideoFromGroup group = None ->
  forall w, List.In w group -> content_complete w = false.
Proof.
  unfold selectBestVideoFromGroup. cbv zeta.
  destruct (sort by_score_descending (List.filter content_complete group))
    as [|b l] eqn:E; [|discriminate].
  intros _ w Hw. destruct (content_complete w) eqn:Hc; [|reflexivity].
  assert (Hw' : List.In w (List.filter content_complete group))
    by (apply List.filter_In; auto).
  apply (sort_In by_score_descending) in Hw'. rewrite E in Hw'. destruct Hw'.
Qed.

Lemma isMainVideoGroup_true group :
  isMainVideoGroup group = true <->
  exists w, List.In w group /\ has_high_quality_code (url w) = true.
Proof.
  unfold isMainVideoGroup. destruct group as [|v group].
  - cbn [length Nat.ltb Nat.leb]. split; [discriminate|]. intros (w & [] & _).
  - cbn [length Nat.ltb Nat.leb]. rewrite List.existsb_exists. reflexivity.
Qed.

(** What one entry of the map contributes. *)
Definition kept (entry : jsstring * list video) : list video :=
  if isMainVideoGroup (snd entry) then
    match selectBestVideoFromGroup (snd entry) with
    | Some bestVideo => [bestVideo]
    | None => []
    end
  else [].

Lemma identifyMainVideos_grouped videos :
  identifyMainVideos videos = List.flat_map kept (grouped videos).
Proof. reflexivity. Qed.

Lemma kept_In entry v :
  List.In v (kept entry) <->
  isMainVideoGroup (snd entry) = true /\ selectBestVideoFromGroup (snd entry) = Some v.
Proof.
  unfold kept. destruct (isMainVideoGroup (snd entry)).
  - destruct (selectBestVideoFromGroup (snd entry)) as [b|]; cbn [List.In].
    + split; [intros [<-|[]]; auto|]. intros [_ [= ->]]. left. reflexivity.
    + split; [intros []|]. intros [_ H]. discriminate.
  - split; [intros []|]. intros [H _]. discriminate.
Qed.

(** The videos that share the base id of [v] and carry a high-quality
    format code. *)
Definition main_group_of (v : video) (videos : list video) : Prop :=
  List.Exists (fun w => baseId w = baseId v /\ has_high_quality_code (url w) = true) videos.

Lemma kept_is_best videos best :
  List.In best (identifyMainVideos videos) ->
  List.In best videos /\ content_complete best = true /\
  main_group_of best videos /\
  List.Forall (fun w => baseId w = baseId best -> content_complete w = true ->
                        (score w <= score best)%Z) videos.
Proof.
  rewrite identifyMainVideos_grouped, List.in_flat_map.
  intros ([k group] & Hentry & Hbest). apply kept_In in Hbest. cbn [snd] in Hbest.
  destruct Hbest as [Hmain Hsel].
  apply grouped_entry in Hentry. destruct Hentry as [-> _].
  apply selectBest_Some in Hsel. destruct Hsel as (Hin & Hcc & Hmax).
  apply members_In in Hin. destruct Hin as [Hin Hk]. subst k.
  split; [exact Hin|]. split; [exact Hcc|]. split.
  - apply isMainVideoGroup_true in Hmain. destruct Hmain as (w & Hw & Hq).
    apply members_In in Hw. apply List.Exists_exists. exists w. tauto.
  - apply List.Forall_forall. intros w Hw Hb Hc. apply Hmax; [|exact Hc].
    apply members_In. auto.
Qed.

Lemma one_per_group videos : List.NoDup (List.map baseId (identifyMainVideos videos)).
Proof.
  rewrite identifyMainVideos_grouped.
  destruct (groups_videos_grouped videos) as [Hnd _].
  pose proof (grouped_entry videos) as Hentry.
  induction (grouped videos) as [|[k group] m IH]; [constructor|].
  cbn [List.flat_map]. inversion Hnd as [|? ? Hk Hnd']; subst.
  assert (Hrest : forall v, List.In v (List.flat_map kept m) ->
                            List.In (baseId v) (List.map fst m)).
  { intros v Hv. apply List.in_flat_map in Hv. destruct Hv as ([k' g'] & He & Hv).
    apply kept_In in Hv. destruct Hv as [_ Hv]. cbn [snd] in Hv.
    apply selectBest_Some in Hv. destruct Hv as (Hv & _).
    destruct (Hentry k' g' (or_intror He)) as [-> _].
    apply members_In in Hv. destruct Hv as [_ <-].
    apply (List.in_map fst _ _ He). }
  specialize (IH Hnd' (fun k' g' H => Hentry k' g' (or_intror H))).
  unfold kept at 1. cbn [snd].
  destruct (isMainVideoGroup group); [|exact IH].
  destruct (selectBestVideoFromGroup group) as [best|] eqn:Hsel; [|exact IH].
  cbn [List.app List.map]. constructor; [|exact IH].
  intros Hin. apply List.in_map_iff in Hin. destruct Hin as (v & Hv & Hin).
  apply Hrest in Hin. rewrite Hv in Hin.
  apply selectBest_Some in Hsel. destruct Hsel as (Hb & _).
  destruct (Hentry k group (or_introl eq_refl)) as [-> _].
  apply members_In in Hb. destruct Hb as [_ Hb]. rewrite Hb in Hin. contradiction.
Qed.

Lemma main_group_is_kept videos w :
  List.In w videos -> content_complete w = true -> main_group_of w videos ->
  List.Exists (fun best => baseId best = baseId w) (identifyMainVideos videos).
Proof.
  intros Hw Hcc Hmain. apply List.Exists_exists in Hmain.
  destruct Hmain as (w' & Hw' & Hb & Hq).
  pose proof (grouped_has videos w Hw) as Hentry.
  assert (Hmg : isMainVideoGroup (members (baseId w) videos) = true).
  { apply isMainVideoGroup_true. exists w'. split; [|exact Hq]. apply members_In. auto. }
  destruct (selectBestVideoFromGroup (members (baseId w) videos)) as [best|] eqn:Hsel.
  - apply List.Exists_exists. exists best. split.
    + rewrite identifyMainVideos_grouped. apply List.in_flat_map.
      exists (baseId w, members (baseId w) videos). split; [exact Hentry|].
      apply kept_In. cbn [snd]. auto.
    + apply selectBest_Some in Hsel. destruct Hsel as (Hb' & _).
      apply members_In in Hb'. apply Hb'.
  - exfalso. pose proof (selectBest_None _ Hsel w) as Hno.
    rewrite Hno in Hcc; [discriminate|]. apply members_In. auto.
Qed.

(** C5, as the code has it.  [identifyMainVideos] keeps one asset at most
    per base identity; the asset it keeps is, in its group, a member with
    both video and audio (by [analyzeContentType]) of the highest
    [getQualityScore] among such members, and its group has a member with
    one of the format codes m412, m540, m366; every group that has such a
    member and a member with video and audio is represented.  So of two
    assets of one base identity, one with a high-quality code and complete,
    the other without audio, only the first is kept. *)
Theorem identifyMainVideos_keeps_best_of_main_groups :
  (forall videos,
     List.Forall
       (fun best =>
          List.In best videos /\ content_complete best = true /\
          main_group_of best videos /\
          List.Forall (fun w => baseId w = baseId best -> content_complete w = true ->
                                (score w <= score best)%Z) videos)
       (identifyMainVideos videos) /\
     List.NoDup (List.map baseId (identifyMainVideos videos)) /\
     List.Forall
       (fun w => content_complete w = true -> main_group_of w videos ->
                 List.Exists (fun best => baseId best = baseId w) (identifyMainVideos videos))
       videos) /\
  (forall hi lo,
     baseId hi = baseId lo -> has_high_quality_code (url hi) = true ->
     content_complete hi = true -> content_complete lo = false ->
     identifyMainVideos [hi; lo] = [hi] /\ identifyMainVideos [lo; hi] = [hi]).
Proof.
  split.
  - intros videos. split; [|split].
    + apply List.Forall_forall. intros best. apply kept_is_best.
    + apply one_per_group.
    + apply List.Forall_forall. intros w Hw Hcc Hmain. apply main_group_is_kept; assumption.
  - intros hi lo Hbase Hq Hcc Hlo.
    assert (Hone : forall videos,
              (forall v, List.In v videos <-> v = hi \/ v = lo) ->
              identifyMainVideos videos = [hi]).
    { intros videos Hmem.
      assert (Hall : forall best, List.In best (identifyMainVideos videos) -> best = hi).
      { intros best Hbest. apply kept_is_best in Hbest.
        destruct Hbest as (Hin & Hc & _). apply Hmem in Hin.
        destruct Hin as [-> | ->]; [reflexivity|congruence]. }
      assert (Hex : List.Exists (fun best => baseId best = baseId hi)
                      (identifyMainVideos videos)).
      { apply main_group_is_kept; [apply Hmem; auto|exact Hcc|].
        apply List.Exists_exists. exists hi. split; [apply Hmem; auto|auto]. }
      pose proof (one_per_group videos) as Hnd.
      destruct (identifyMainVideos videos) as [|a [|b l]].
      - apply List.Exists_exists in Hex. destruct Hex as (x & Hx & _). destruct Hx.
      - rewrite (Hall a); [reflexivity|left; reflexivity].
      - exfalso. rewrite (Hall a) in Hnd by (left; reflexivity).
        rewrite (Hall b) in Hnd by (right; left; reflexivity).
        inversion Hnd as [|? ? Hnot _]; subst. apply Hnot. left. reflexivity. }
    split; apply Hone; intros v; cbn [List.In]; intuition (subst; auto).
Qed.

End GroupingFacts.

(** ** Two invocations on one input *)

Module DeterminismFacts.
Import ValidatorFacts SortFacts PipelineFacts.

(** Two assets that differ at most in the audio flag (and the description
    that follows it), and only if the url carries the format code m69. *)
Definition alike (a b : video) : Prop :=
  url a = url b /\ quality a = quality b /\ type a = type b /\ size_ a = size_ b /\
  hasVideo a = hasVideo b /\ ct_hasVideo (contentType a) = ct_hasVideo (contentType b) /\
  resolution a = resolution b /\ thumbnail a = thumbnail b /\
  (includes (url a) (js "/m69/") = false -> a = b).

Section TwoRuns.

Variables L1 L2 : Libs.
Hypothesis same_URL : forall s, URL_parses L1 s = URL_parses L2 s.
Hypothesis same_cheerio : forall s, cheerio_load L1 s = cheerio_load L2 s.
Hypothesis same_JSON : forall s, JSON_parse L1 s = JSON_parse L2 s.
Hypothesis same_stack : call_stack L1 = call_stack L2.
Hypothesis same_frames : forall s, validator_frames L1 s = validator_frames L2 s.

Lemma createVideoObject_alike u n1 n2 :
  alike (fst (createVideoObject L1 u n1)) (fst (createVideoObject L2 u n2)).
Proof.
  unfold alike, createVideoObject, detectContentType, bind, ret, Math_random_call.
  destruct (includes u (js "/m78/")), (includes u (js "/m69/")) eqn:E,
    (includes u (js "/m366/")), (includes u (js "/m412/"));
    cbn [orb fst snd url quality type size_ hasVideo contentType ct_hasVideo
         resolution thumbnail];
    repeat split; try reflexivity; intros H; try reflexivity; congruence.
Qed.

Lemma isValidVideoUrl_same v : isValidVideoUrl L1 v = isValidVideoUrl L2 v.
Proof.
  destruct v as [s| | | | |]; try reflexivity.
  rewrite !isValidVideoUrl_Str, same_URL. reflexivity.
Qed.

(** Two scans in step. *)
Definition in_step (s1 s2 : scan) : Prop :=
  List.Forall2 alike (videos s1) (videos s2) /\ foundUrls s1 = foundUrls s2.

Lemma in_step_add_video u s1 s2 :
  in_step s1 s2 -> in_step (add_video L1 u s1) (add_video L2 u s2).
Proof.
  intros [Hv Hf].
  destruct (add_video_videos L1 u s1) as [E1 F1].
  destruct (add_video_videos L2 u s2) as [E2 F2].
  split.
  - rewrite E1, E2. apply List.Forall2_app; [exact Hv|].
    constructor; [apply createVideoObject_alike|constructor].
  - rewrite F1, F2, Hf. reflexivity.
Qed.

Lemma in_step_visit index m s1 s2 :
  in_step s1 s2 -> in_step (visit L1 index s1 m) (visit L2 index s2 m).
Proof.
  intros Hs. unfold visit. rewrite <- isValidVideoUrl_same.
  replace (foundUrls s2) with (foundUrls s1) by apply Hs.
  destruct (negb (passes_guards (candidate m))); [exact Hs|].
  destruct (Nat.eqb index 31 && permissive (candidate m)).
  - destruct (has (foundUrls s1) (candidate m)); [exact Hs|].
    apply in_step_add_video, Hs.
  - destruct (isValidVideoUrl L1 (Str (candidate m)) &&
              negb (has (foundUrls s1) (candidate m)));
      [apply in_step_add_video|]; exact Hs.
Qed.

Lemma in_step_fallback_visit m s1 s2 :
  in_step s1 s2 -> in_step (fallback_visit L1 s1 m) (fallback_visit L2 s2 m).
Proof.
  intros Hs. unfold fallback_visit. rewrite <- isValidVideoUrl_same.
  replace (foundUrls s2) with (foundUrls s1) by apply Hs.
  destruct (isValidVideoUrl L1 (Str (fallback_candidate m)) &&
            negb (has (foundUrls s1) (fallback_candidate m)));
    [apply in_step_add_video|]; exact Hs.
Qed.

Lemma fold_left_in_step {A B} (R : A -> A -> Prop) (f1 f2 : A -> B -> A) l :
  (forall a1 a2 b, R a1 a2 -> R (f1 a1 b) (f2 a2 b)) ->
  forall a1 a2, R a1 a2 -> R (fold_left f1 l a1) (fold_left f2 l a2).
Proof.
  intros Hf. induction l as [|b l IH]; intros a1 a2 Ha; cbn [fold_left];
    [exact Ha|apply IH, Hf, Ha].
Qed.

Lemma in_step_scan_patterns html s1 s2 :
  in_step s1 s2 -> in_step (scan_patterns L1 html s1) (scan_patterns L2 html s2).
Proof.
  unfold scan_patterns. apply fold_left_in_step. intros a1 a2 p.
  apply fold_left_in_step. intros b1 b2 m. apply in_step_visit.
Qed.

Lemma in_step_fallback html s1 s2 :
  in_step s1 s2 ->
  in_step (fallbackVideoSearch L1 html s1) (fallbackVideoSearch L2 html s2).
Proof.
  unfold fallbackVideoSearch. apply fold_left_in_step. intros a1 a2 p.
  apply fold_left_in_step. intros b1 b2 m. apply in_step_fallback_visit.
Qed.

Lemma in_step_scanned html : in_step (scanned L1 html) (scanned L2 html).
Proof.
  unfold scanned.
  assert (Hs : in_step (scan_patterns L1 html {| videos := []; foundUrls := ∅; calls := 0 |})
                       (scan_patterns L2 html {| videos := []; foundUrls := ∅; calls := 0 |})).
  { apply in_step_scan_patterns. split; [constructor|reflexivity]. }
  rewrite <- (List.Forall2_length (proj1 Hs)).
  destruct (Nat.eqb _ 0); [apply in_step_fallback|]; exact Hs.
Qed.

Lemma push_valid_alike urls :
  forall acc1 acc2 n1 n2,
    List.Forall2 alike acc1 acc2 ->
    List.Forall2 alike (fst (push_valid L1 urls acc1 n1)) (fst (push_valid L2 urls acc2 n2)).
Proof.
  induction urls as [|u urls IH]; intros acc1 acc2 n1 n2 Hacc; cbn [push_valid].
  - exact Hacc.
  - rewrite <- isValidVideoUrl_same.
    destruct (isValidVideoUrl L1 (Str u)); [|apply IH, Hacc].
    unfold bind. pose proof (createVideoObject_alike u n1 n2) as Hw.
    destruct (createVideoObject L1 u n1) as [w1 m1].
    destruct (createVideoObject L2 u n2) as [w2 m2].
    apply IH. apply List.Forall2_app; [exact Hacc|]. constructor; [exact Hw|constructor].
Qed.

Lemma extractWithCheerio_alike html n1 n2 :
  List.Forall2 alike (fst (extractWithCheerio L1 html n1)) (fst (extractWithCheerio L2 html n2)).
Proof.
  unfold extractWithCheerio. rewrite <- same_cheerio.
  destruct (cheerio_load L1 html) as [doc|]; [|constructor].
  unfold bind.
  pose proof (push_valid_alike (present (video_src doc)) [] [] n1 n2) as H1.
  destruct (push_valid L1 (present (video_src doc)) [] n1) as [a1 k1].
  destruct (push_valid L2 (present (video_src doc)) [] n2) as [a2 k2].
  specialize (H1 (List.Forall2_nil _)). cbn [fst] in H1.
  pose proof (push_valid_alike (present (video_source_src doc)) a1 a2 k1 k2 H1) as H2.
  destruct (push_valid L1 (present (video_source_src doc)) a1 k1) as [b1 j1].
  destruct (push_valid L2 (present (video_source_src doc)) a2 k2) as [b2 j2].
  cbn [fst] in H2. apply push_valid_alike, H2.
Qed.

Lemma visit_value_same walk1 walk2 room :
  (forall v, walk1 v = walk2 v) ->
  forall l urls,
    fold_left (visit_value L1 walk1 room) l urls =
    fold_left (visit_value L2 walk2 room) l urls.
Proof.
  intros Hw. induction l as [|v l IH]; intros urls; [reflexivity|].
  cbn [fold_left]. rewrite IH. f_equal.
  unfold visit_value. destruct urls as [urls|]; [|reflexivity].
  destruct v; try reflexivity; try (rewrite Hw; reflexivity).
  rewrite same_frames, isValidVideoUrl_same. reflexivity.
Qed.

Lemma findVideoUrlsInObject_same :
  forall stack obj, findVideoUrlsInObject L1 stack obj = findVideoUrlsInObject L2 stack obj.
Proof.
  induction stack as [|room IH]; intros obj; [reflexivity|].
  cbn [findVideoUrlsInObject].
  destruct obj; try reflexivity; apply visit_value_same, IH.
Qed.

Lemma extractFromStructuredData_alike html n1 n2 :
  List.Forall2 alike (fst (extractFromStructuredData L1 html n1))
    (fst (extractFromStructuredData L2 html n2)).
Proof.
  unfold extractFromStructuredData.
  replace (List.flat_map (structured_urls L2) (exec_all jsonLdRegex html))
    with (List.flat_map (structured_urls L1) (exec_all jsonLdRegex html)).
  - apply push_valid_alike. constructor.
  - apply List.flat_map_ext. intros m. unfold structured_urls.
    destruct (get_cap 1 (groups m)) as [text|]; [|reflexivity].
    rewrite same_JSON. destruct (JSON_parse L2 text); [|reflexivity].
    rewrite same_stack, findVideoUrlsInObject_same. reflexivity.
Qed.

Lemma in_step_merge (e1 e2 : Rand (list video)) s1 s2 :
  (forall n1 n2, List.Forall2 alike (fst (e1 n1)) (fst (e2 n2))) ->
  in_step s1 s2 -> in_step (merge e1 s1) (merge e2 s2).
Proof.
  intros He Hs. unfold merge. specialize (He (calls s1) (calls s2)).
  destruct (e1 (calls s1)) as [o1 k1]. destruct (e2 (calls s2)) as [o2 k2].
  cbn [fst] in He.
  assert (H : forall t1 t2, in_step t1 t2 ->
            in_step (fold_left add_if_new o1 t1) (fold_left add_if_new o2 t2)).
  { induction He as [|v1 v2 o1 o2 Hv Ho IH]; intros t1 t2 Ht; cbn [fold_left];
      [exact Ht|].
    apply IH. unfold add_if_new. destruct Ht as [Hvs Hf].
    rewrite <- Hf. replace (url v2) with (url v1) by apply Hv.
    destruct (has (foundUrls t1) (url v1)); [split; assumption|].
    split; cbn [videos foundUrls]; [|reflexivity].
    apply List.Forall2_app; [exact Hvs|]. constructor; [exact Hv|constructor]. }
  apply H. destruct Hs as [Hvs Hf]. split; assumption.
Qed.

Lemma in_step_collected html : in_step (collected L1 html) (collected L2 html).
Proof.
  unfold collected.
  apply in_step_merge; [intros; apply extractFromStructuredData_alike|].
  apply in_step_merge; [intros; apply extractWithCheerio_alike|].
  apply in_step_scanned.
Qed.

Lemma insert_alike a1 a2 l1 l2 :
  alike a1 a2 -> List.Forall2 alike l1 l2 ->
  List.Forall2 alike
    (insert (fun a b => order_or_5 (quality a) - order_or_5 (quality b))%Z a1 l1)
    (insert (fun a b => order_or_5 (quality a) - order_or_5 (quality b))%Z a2 l2).
Proof.
  intros Ha Hl. induction Hl as [|b1 b2 l1 l2 Hb Hl IH]; cbn [insert].
  - constructor; [exact Ha|constructor].
  - replace (quality a2) with (quality a1) by apply Ha.
    replace (quality b2) with (quality b1) by apply Hb.
    destruct (0 <? order_or_5 (quality a1) - order_or_5 (quality b1))%Z.
    + constructor; assumption.
    + constructor; [exact Ha|]. constructor; assumption.
Qed.

Lemma sortVideosByQuality_alike l1 l2 :
  List.Forall2 alike l1 l2 ->
  List.Forall2 alike (sortVideosByQuality l1) (sortVideosByQuality l2).
Proof.
  unfold sortVideosByQuality, sort.
  induction 1 as [|a1 a2 l1 l2 Ha Hl IH]; cbn [fold_right]; [constructor|].
  apply insert_alike; assumption.
Qed.

Lemma extractVideos_alike html :
  List.Forall2 alike (extractVideos L1 html) (extractVideos L2 html).
Proof.
  unfold extractVideos. apply sortVideosByQuality_alike, in_step_collected.
Qed.

End TwoRuns.

(** C1, as the code has it: two invocations on one input, whatever
    [Math.random] returns in each, give the same urls in the same order
    with the same quality, type, size, resolution and video flag; the
    assets are identical but for the audio flag, and the description that
    follows it, of those whose url carries the format code m69. *)
Theorem extractVideos_deterministic_up_to_m69_audio
    (L : Libs) (r1 r2 : nat -> Q) (html : jsstring) :
  List.Forall2 alike
    (extractVideos (with_random r1 L) html) (extractVideos (with_random r2 L) html).
Proof. apply extractVideos_alike; try intros s; reflexivity. Qed.

End DeterminismFacts.

(** ** Where the specification and the code part

    Each statement below is about one explicit document and holds whatever
    the libraries return: [for_all_libraries P] says [P] of every behaviour
    of [new URL], cheerio, [JSON.parse] and [Math.random], and of every size
    of the call stack. *)

Module Counterexamples.
Import RegexFacts ValidatorFacts SortFacts PipelineFacts CapFacts GroupingFacts.

Definition for_all_libraries (P : Libs -> Prop) : Prop := forall L : Libs, P L.

(** A url as a page source carries it inside a script: in double quotes,
    every slash escaped by a backslash. *)
Definition escaped (u : jsstring) : jsstring :=
  List.flat_map (fun c => if (c =? 47)%N then [backslash; c] else [c]) u.

Definition quoted (s : jsstring) : jsstring := [dquote] ++ s ++ [dquote].

Definition in_result (L : Libs) (html u : jsstring) : Prop :=
  List.In u (List.map url (extractVideos L html)).

(** The side conditions of [permissive_url_in_result], as one test. *)
Definition let_in_by_pattern_31 (html u : jsstring) : bool :=
  existsb (str_eqb u) (List.map candidate (exec_all last_pattern (cleanHtml html))) &&
  passes_guards u && permissive u.

Lemma let_in L html u : let_in_by_pattern_31 html u = true -> in_result L html u.
Proof.
  unfold let_in_by_pattern_31. rewrite !andb_true_iff. intros [[H1 H2] H3].
  apply permissive_url_in_result; assumption.
Qed.

Lemma let_in_permissive html u : let_in_by_pattern_31 html u = true -> permissive u = true.
Proof. unfold let_in_by_pattern_31. rewrite !andb_true_iff. tauto. Qed.

(** *** C2: an asset the permissive rule lets in and the Validator refuses *)

Definition short_cdn_url : jsstring := js "https://scontent.xx.fbcdn.net/v/t42/clip.mp4?x=1".

Definition short_cdn_page : jsstring := quoted (escaped short_cdn_url).

(** C2 fails on this page: pattern 31 finds the url, the permissive rule
    adds it without asking the Validator, and the Validator refuses it (it
    is 48 characters long). *)
Lemma permissive_asset_fails_validator :
  for_all_libraries (fun L =>
    exists v, List.In v (extractVideos L short_cdn_page) /\
              url v = short_cdn_url /\
              isValidVideoUrl L (Str (url v)) = false).
Proof.
  intros L.
  assert (H : in_result L short_cdn_page short_cdn_url)
    by (apply let_in; vm_compute; reflexivity).
  apply in_map_url in H. destruct H as (v & Hv & Hu).
  exists v. split; [exact Hv|]. split; [exact Hu|]. rewrite Hu.
  apply short_invalid. vm_compute. lia.
Qed.

(** *** C1: the audio flag of an m69 asset follows [Math.random] *)

Definition m69_url : jsstring := js "https://scontent.x/m69/clip.mp4".

Definition m69_page : jsstring := quoted (escaped m69_url).

Definition always (q : Q) : nat -> Q := fun _ => q.

(** C1 fails on this page: when [Math.random] returns 0 the asset has no
    audio, when it returns 1/2 it has; the two results differ. *)
Lemma audio_flag_depends_on_random :
  for_all_libraries (fun L =>
    let first_run := extractVideos (with_random (always 0) L) m69_page in
    let second_run := extractVideos (with_random (always (1 # 2)) L) m69_page in
    (exists v, List.In v first_run /\ url v = m69_url /\ hasAudio v = false) /\
    (forall v, List.In v second_run -> url v = m69_url -> hasAudio v = true) /\
    first_run <> second_run).
Proof.
  intros L. cbv zeta.
  assert (H1 : in_result (with_random (always 0) L) m69_page m69_url)
    by (apply let_in; vm_compute; reflexivity).
  assert (Hm : includes m69_url (js "/m69/") = true) by (vm_compute; reflexivity).
  assert (Hfirst : forall v,
            List.In v (extractVideos (with_random (always 0) L) m69_page) ->
            url v = m69_url -> hasAudio v = false).
  { intros v Hv Hu. apply extractVideos_made in Hv. destruct Hv as (n & Hn).
    rewrite Hn, Hu, (m69_hasAudio _ _ _ Hm). reflexivity. }
  assert (Hsecond : forall v,
            List.In v (extractVideos (with_random (always (1 # 2)) L) m69_page) ->
            url v = m69_url -> hasAudio v = true).
  { intros v Hv Hu. apply extractVideos_made in Hv. destruct Hv as (n & Hn).
    rewrite Hn, Hu, (m69_hasAudio _ _ _ Hm). reflexivity. }
  apply in_map_url in H1. destruct H1 as (v & Hv & Hu).
  split; [|split].
  - exists v. split; [exact Hv|]. split; [exact Hu|]. apply Hfirst; assumption.
  - exact Hsecond.
  - intros E. rewrite E in Hv.
    pose proof (Hfirst v) as F1. rewrite E in F1. specialize (F1 Hv Hu).
    specialize (Hsecond v Hv Hu). congruence.
Qed.

(** *** C6: the result is ordered by label, not by score *)

Definition high_score_url : jsstring := js "https://scontent.x/m412/clip-one.mp4".
Definition low_score_url : jsstring := js "https://scontent.x/m69/hd/clip-two.mp4".

Definition two_clips_page : jsstring :=
  quoted (escaped high_score_url) ++ js " " ++ quoted (escaped low_score_url).

Definition by_score_down (a b : video) : Prop :=
  (getQualityScore (url a) >= getQualityScore (url b))%Z.

(** [a] comes before [b] in [l]. *)
Definition before {A} (a b : A) (l : list A) : Prop :=
  exists l1 l2 l3, l = l1 ++ a :: l2 ++ b :: l3.

Lemma before_cons {A} (x a b : A) l : before a b l -> before a b (x :: l).
Proof. intros (l1 & l2 & l3 & ->). exists (x :: l1), l2, l3. reflexivity. Qed.

Lemma before_head {A} (a b : A) l : List.In b l -> before a b (a :: l).
Proof.
  intros H. apply List.in_split in H. destruct H as (l2 & l3 & ->).
  exists [], l2, l3. reflexivity.
Qed.

(** Two members of a sorted list are equal or stand in order. *)
Lemma StronglySorted_pair {A} (R : A -> A -> Prop) l a b :
  StronglySorted R l -> List.In a l -> List.In b l ->
  a = b \/ (before a b l /\ R a b) \/ (before b a l /\ R b a).
Proof.
  induction 1 as [|x l Hl IH Hx]; intros Ha Hb; [destruct Ha|].
  rewrite List.Forall_forall in Hx.
  destruct Ha as [<-|Ha], Hb as [<-|Hb].
  - left. reflexivity.
  - right. left. split; [apply before_head, Hb|apply Hx, Hb].
  - right. right. split; [apply before_head, Ha|apply Hx, Ha].
  - destruct (IH Ha Hb) as [E|[[H1 H2]|[H1 H2]]]; auto using before_cons.
Qed.

Lemma StronglySorted_tail {A} (R : A -> A -> Prop) l1 l2 :
  StronglySorted R (l1 ++ l2) -> StronglySorted R l2.
Proof.
  induction l1 as [|x l1 IH]; intros H; [exact H|].
  inversion H; subst. apply IH. assumption.
Qed.

Lemma before_sorted {A} (R : A -> A -> Prop) l a b :
  StronglySorted R l -> before a b l -> R a b.
Proof.
  intros Hs (l1 & l2 & l3 & ->). apply StronglySorted_tail in Hs.
  inversion Hs as [|? ? _ Hall]; subst. rewrite List.Forall_forall in Hall.
  apply Hall. apply List.in_app_iff. right. left. reflexivity.
Qed.

(** C6 fails on this page: the asset of score 20, labelled HD, comes before
    the asset of score 100, of unknown quality. *)
Lemma result_not_sorted_by_score :
  for_all_libraries (fun L =>
    getQualityScore high_score_url = 100%Z /\
    getQualityScore low_score_url = 20%Z /\
    (exists a b,
       before a b (extractVideos L two_clips_page) /\
       url a = low_score_url /\ url b = high_score_url) /\
    ~ StronglySorted by_score_down (extractVideos L two_clips_page)).
Proof.
  intros L.
  assert (Sa : getQualityScore high_score_url = 100%Z) by (vm_compute; reflexivity).
  assert (Sb : getQualityScore low_score_url = 20%Z) by (vm_compute; reflexivity).
  assert (Qa : detectQuality high_score_url = UnknownQuality) by (vm_compute; reflexivity).
  assert (Qb : detectQuality low_score_url = HD) by (vm_compute; reflexivity).
  assert (Ha : in_result L two_clips_page high_score_url)
    by (apply let_in; vm_compute; reflexivity).
  assert (Hb : in_result L two_clips_page low_score_url)
    by (apply let_in; vm_compute; reflexivity).
  apply in_map_url in Ha, Hb.
  destruct Ha as (va & Hva & Ua), Hb as (vb & Hvb & Ub).
  assert (Ra : quality_rank va = 5%Z).
  { unfold quality_rank. rewrite (made_quality L va), Ua, Qa; [reflexivity|].
    eapply extractVideos_made, Hva. }
  assert (Rb : quality_rank vb = 2%Z).
  { unfold quality_rank. rewrite (made_quality L vb), Ub, Qb; [reflexivity|].
    eapply extractVideos_made, Hvb. }
  pose proof (sort_ascending _ quality_rank by_quality_key (videos (collected L two_clips_page)))
    as Hsorted.
  fold (sortVideosByQuality (videos (collected L two_clips_page))) in Hsorted.
  fold (extractVideos L two_clips_page) in Hsorted.
  assert (Hbefore : before vb va (extractVideos L two_clips_page)).
  { destruct (StronglySorted_pair _ _ va vb Hsorted Hva Hvb) as [E|[[_ H]|[H _]]].
    - rewrite E, Rb in Ra. discriminate.
    - rewrite Ra, Rb in H. lia.
    - exact H. }
  split; [exact Sa|]. split; [exact Sb|]. split.
  - exists vb, va. split; [exact Hbefore|]. split; assumption.
  - intros Hdown. apply (before_sorted _ _ _ _ Hdown) in Hbefore.
    unfold by_score_down in Hbefore. rewrite Ua, Ub, Sa, Sb in Hbefore. lia.
Qed.

(** *** C9: the fallback search takes in what the pattern loop skipped *)

Definition marker_url : jsstring :=
  js ("https://scontent.x.fna.fbcdn.net/o1/v/t2/f2/m412/" ++
      "AQMz0k4xJc7TqYw1uE5oHnB2rLs9pGfD3aViK6tXy8ZbCe" ++
      "_n.mp4?_nc_cat=1&indexRange=0-999&_nc_sid=5e9851&_nc_ht=scontent.x.fna" ++
      "&_nc_ohc=Zl2mQ7xVt0AAX8b5c1d&oh=00_AfBq3yT5uW7iO9pA1sD2fG4hJ6kL8zX0cV&oe=68F2A1B3").

Definition marker_page : jsstring := quoted marker_url.

(** Some pattern of the loop finds [u] in the page. *)
Definition seen_by_pattern_loop (html u : jsstring) : bool :=
  existsb
    (fun p => existsb (fun m => str_eqb (candidate m) u) (exec_all p (cleanHtml html)))
    videoPatterns.

(** C9 at this page, where the code parts from its own comment.  The
    pattern loop finds the url and skips it for its marker [indexRange]
    (lines 164-169, "Skip DASH manifest fragments"); it adds no video, so
    the fallback search runs (lines 204-208), finds the same url and adds
    it, the Validator's list of manifest markers not holding [indexRange]:
    the fragment is in the result.  [marker_url] is an absolute https url
    with a plain ASCII host name; the statement is for the libraries whose
    [new URL] parses it. *)
Theorem fallback_keeps_manifest_marker :
  for_all_libraries (fun L =>
    URL_parses L marker_url = true ->
    seen_by_pattern_loop marker_page marker_url = true /\
    includes marker_url (js "indexRange") = true /\
    passes_guards marker_url = false /\
    videos (scan_patterns L (cleanHtml marker_page) start) = [] /\
    isValidVideoUrl L (Str marker_url) = true /\
    exists v, List.In v (extractVideos L marker_page) /\ url v = marker_url).
Proof.
  intros L Hparses.
  assert (Hnone :
    forallb (fun p => forallb (fun m => negb (passes_guards (candidate m)))
                        (exec_all p (cleanHtml marker_page)))
      videoPatterns = true) by (vm_compute; reflexivity).
  assert (Hvalid : isValidVideoUrl L (Str marker_url) = true)
    by (rewrite isValidVideoUrl_Str, Hparses; vm_compute; reflexivity).
  split; [vm_compute; reflexivity|]. split; [vm_compute; reflexivity|].
  split; [vm_compute; reflexivity|].
  split; [exact (f_equal videos (scan_patterns_nothing L _ start Hnone))|].
  split; [exact Hvalid|].
  assert (H : in_result L marker_page marker_url).
  { apply fallback_url_in_result; [exact Hnone| |exact Hvalid]. vm_compute. reflexivity. }
  apply in_map_url in H. destruct H as (v & Hv & Hu).
  exists v. split; assumption.
Qed.

(** *** C3: twenty-one assets from one page *)

Definition clip_names : list string :=
  ["a01"; "a02"; "a03"; "a04"; "a05"; "a06"; "a07"; "a08"; "a09"; "a10"; "a11";
   "a12"; "a13"; "a14"; "a15"; "a16"; "a17"; "a18"; "a19"; "a20"; "a21"]%string.

Definition clip_urls : list jsstring :=
  List.map (fun name => js ("https://scontent.x/v/clip-" ++ name ++ ".mp4")) clip_names.

(** An html page of 1153 characters that carries the 21 urls. *)
Definition many_clips_page : jsstring :=
  js "<html>" ++
  List.flat_map (fun u => quoted (escaped u) ++ js " ") clip_urls ++
  List.repeat 32%N 300 ++
  js "</html>".

Lemma clip_urls_in_result L u :
  List.In u clip_urls -> in_result L many_clips_page u /\ permissive u = true.
Proof.
  assert (H : forallb (fun u => let_in_by_pattern_31 many_clips_page u) clip_urls = true)
    by (vm_compute; reflexivity).
  rewrite List.forallb_forall in H. intros Hu. specialize (H u Hu). cbv beta in H.
  split; [apply let_in, H|apply (let_in_permissive _ _ H)].
Qed.

(** C3 fails on this page: [extractVideos] returns its 21 assets and more
    if cheerio finds any, and the route replies with all that it returns. *)
Lemma result_exceeds_cap :
  for_all_libraries (fun L =>
    length clip_urls = 21 /\
    List.Forall (in_result L many_clips_page) clip_urls /\
    20 < length (extractVideos L many_clips_page) /\
    match Server.extract_videos_route L (Str many_clips_page) with
    | Server.status_200 reply =>
        20 < length (Server.resp_videos reply) /\
        Server.count reply = length (Server.resp_videos reply)
    | Server.status_400 _ => False
    end).
Proof.
  intros L.
  assert (Hnd : List.NoDup clip_urls).
  { apply NoDup_ListNoDup, (bool_decide_unpack _). vm_compute. reflexivity. }
  assert (Hall : forall u, List.In u clip_urls ->
            List.In u (List.map url
              (List.filter Server.is_facebook_video (extractVideos L many_clips_page)))).
  { intros u Hu. destruct (clip_urls_in_result L u Hu) as [Hin Hp].
    apply in_map_url in Hin. destruct Hin as (v & Hv & E). subst u.
    apply (List.in_map url _ v). apply (proj2 (List.filter_In _ _ _)). split; [exact Hv|].
    apply facebook_by_scontent. unfold permissive in Hp.
    apply andb_true_iff in Hp. apply Hp. }
  assert (Hfiltered :
    21 <= length (List.filter Server.is_facebook_video (extractVideos L many_clips_page))).
  { apply (at_least_as_many clip_urls); assumption. }
  split; [reflexivity|]. split; [|split].
  - apply List.Forall_forall. intros u Hu. apply (clip_urls_in_result L u Hu).
  - apply (Nat.lt_le_trans _ 21); [lia|].
    apply (at_least_as_many clip_urls); [exact Hnd|].
    intros u Hu. apply (clip_urls_in_result L u Hu).
  - rewrite route_extracted.
    + cbn [Server.resp_videos Server.count]. split; [lia|reflexivity].
    + vm_compute. lia.
    + vm_compute. discriminate.
    + vm_compute. reflexivity.
    + lia.
Qed.

(** *** C5: what the grouping drops, and where it is not run *)

(** The asset of a url, its audio flag set. *)
Definition asset (u : jsstring) : video :=
  {| url := u;
     quality := detectQuality u;
     type := detectType u;
     size_ := estimateSize (detectQuality u);
     contentType := {| ct_hasVideo := true; ct_hasAudio := true;
                       description := "Video + Audio" |};
     hasVideo := true;
     hasAudio := true;
     resolution := detectResolution u;
     thumbnail := tt |}.

Definition shared_hash : string := "AbCdEfGhIjKlMnOpQrStUvWxYz0123456789-_AbCdEf".

Definition high_variant : jsstring :=
  js ("https://scontent.x/m412/" ++ shared_hash ++ "_hi.mp4").

Definition low_variant : jsstring :=
  js ("https://scontent.x/m69/" ++ shared_hash ++ "_lo.mp4").

Definition audio_variant : jsstring := js "https://scontent.x/m78/clip.mp4".

Definition two_variants_page : jsstring :=
  quoted (escaped high_variant) ++ js " " ++ quoted (escaped low_variant).

(** C5 at two assets of one base identity: Scenario C, on the grouping
    itself. *)
Lemma identifyMainVideos_scenario_C :
  baseId (asset high_variant) = baseId (asset low_variant) /\
  has_high_quality_code (url (asset high_variant)) = true /\
  content_complete (asset high_variant) = true /\
  content_complete (asset low_variant) = false /\
  identifyMainVideos [asset high_variant; asset low_variant] = [asset high_variant] /\
  identifyMainVideos [asset low_variant; asset high_variant] = [asset high_variant].
Proof.
  assert (H1 : baseId (asset high_variant) = baseId (asset low_variant))
    by (vm_compute; reflexivity).
  assert (H2 : has_high_quality_code (url (asset high_variant)) = true)
    by (vm_compute; reflexivity).
  assert (H3 : content_complete (asset high_variant) = true) by (vm_compute; reflexivity).
  assert (H4 : content_complete (asset low_variant) = false) by (vm_compute; reflexivity).
  split; [exact H1|]. split; [exact H2|]. split; [exact H3|]. split; [exact H4|].
  exact (proj2 identifyMainVideos_keeps_best_of_main_groups
           (asset high_variant) (asset low_variant) H1 H2 H3 H4).
Defined.

(** C5 fails twice: [identifyMainVideos] drops a group whose one member has
    video and audio but none of the codes m412, m540, m366; and
    [extractVideos], which does not call it, returns both variants of one
    base identity, the one without audio included. *)
Lemma grouping_drops_and_is_not_run :
  for_all_libraries (fun L =>
    (content_complete (asset audio_variant) = true /\
     identifyMainVideos [asset audio_variant] = []) /\
    (extractBaseVideoId high_variant = extractBaseVideoId low_variant /\
     getQualityScore high_variant = 100%Z /\
     getQualityScore low_variant = 20%Z /\
     a_hasAudio (analyzeContentType high_variant) = true /\
     a_hasAudio (analyzeContentType low_variant) = false /\
     in_result L two_variants_page high_variant /\
     in_result L two_variants_page low_variant)).
Proof.
  intros L. split; [split; vm_compute; reflexivity|].
  do 5 (split; [vm_compute; reflexivity|]).
  split; apply let_in; vm_compute; reflexivity.
Qed.

End Counterexamples.

(** * Further properties of the code

    Properties of the extractor, of the routes and of the form of the
    page that the code shows beyond the claims above. *)

Module Samples.

(** Libraries for the examples: [new URL] accepts, cheerio and
    [JSON.parse] throw, [Math.random] returns 0; the call stack has room
    for a thousand frames, of which the Validator takes three. *)
Definition plain_libs : Libs :=
  {| URL_parses := fun _ => true;
     cheerio_load := fun _ => None;
     JSON_parse := fun _ => None;
     Math_random := fun _ => 0%Q;
     call_stack := 1000;
     validator_frames := fun _ => 3 |}.

(** A url of the shape the CDN serves a main video under. *)
Definition cdn_url : jsstring :=
  js ("https://scontent.fxyz1-1.fna.fbcdn.net/o1/v/t2/f2/m412/" ++
      "AQMz0k4xJc7TqYw1uE5oHnB2rLs9pGfD3aViK6tXy8ZbCe" ++
      "_n.mp4?_nc_cat=101&_nc_oc=AdkPq3ZrT5uW7iO9pA1sD2fG4hJ6kL8zX0cVbNm" ++
      "&_nc_sid=5e9851&efg=eyJ2ZW5jb2RlX3RhZyI6Inhwdl9wcm9ncmVzc2l2ZS5GQUNFQk9PSyJ9" ++
      "&_nc_ohc=Zl2mQ7xVt0AAX8b5c1dQ7kXw&_nc_zt=28&_nc_ht=scontent.fxyz1-1.fna" ++
      "&_nc_gid=Aq1Wz2Xe3Rc4Tv5By6Nu7Mi&oh=00_AfBq3yT5uW7iO9pA1sD2fG4hJ6kL8zX0cV" ++
      "&oe=68F2A1B3&bitrate=1258291&tag=xpv_progressive").

(** The url as a page script carries it: a member of a JSON object, every
    slash escaped. *)
Definition hd_src_page : jsstring :=
  js "{" ++ [dquote] ++ js "hd_src" ++ [dquote] ++ js ":" ++
  Counterexamples.quoted (Counterexamples.escaped cdn_url) ++ js "}".

End Samples.

Module ScoreFacts.
Import RegexFacts ValidatorFacts SortFacts PipelineFacts CapFacts GroupingFacts.

(** The scores that go with a band of [analyzeContentType]. *)
Definition band_scores (q : quality_band) : list Z :=
  match q with
  | high => [100]
  | standard => [80]
  | audio_optimized => [60]
  | low => [20]
  | unknown => [90; 85; 70; 50; 40]
  end%Z.

Lemma score_in_band (url : jsstring) :
  List.In (getQualityScore url) (band_scores (a_quality (analyzeContentType url))) /\
  a_hasVideo (analyzeContentType url) = true /\
  a_hasAudio (analyzeContentType url) = negb (is_low (a_quality (analyzeContentType url))).
Proof.
  unfold getQualityScore, analyzeContentType.
  destruct (test highQualityVideoAudio url); [cbn; auto|].
  destruct (test standardQualityVideoAudio url); [cbn; auto|].
  destruct (test audioOptimized url); [cbn; auto|].
  destruct (test lowerQuality url); [cbn; auto|].
  cbn [a_quality a_hasVideo a_hasAudio band_scores is_low negb].
  split; [|auto].
  destruct (includes url (js "1080") || includes url (js "hd")); [cbn; auto|].
  destruct (includes url (js "720")); [cbn; auto|].
  destruct (includes url (js "480")); [cbn; auto|].
  destruct (includes url (js "360")); cbn; auto 6.
Qed.

(** X1: [getQualityScore] and [analyzeContentType] agree on every url: the
    score is one of those of the band the analysis names and lies between
    20 and 100; the analysis reports no audio exactly when the score is 20;
    and the filter of [selectBestVideoFromGroup] keeps an asset exactly
    when its score is not 20. *)
Theorem score_agrees_with_analysis (v : video) :
  List.In (score v) (band_scores (a_quality (analyzeContentType (url v)))) /\
  (20 <= score v <= 100)%Z /\
  (a_hasAudio (analyzeContentType (url v)) = false <-> score v = 20%Z) /\
  (content_complete v = true <-> score v <> 20%Z).
Proof.
  unfold content_complete, score. cbv zeta.
  destruct (score_in_band (url v)) as (Hin & -> & ->).
  destruct (a_quality (analyzeContentType (url v))); cbn in Hin |- *;
    intuition (try discriminate; try lia).
Qed.

End ScoreFacts.

Module LimitFacts.
Import RegexFacts ValidatorFacts SortFacts PipelineFacts CapFacts GroupingFacts.

Lemma StronglySorted_app {A} (R : A -> A -> Prop) l1 l2 :
  StronglySorted R (l1 ++ l2) ->
  forall x y, List.In x l1 -> List.In y l2 -> R x y.
Proof.
  induction l1 as [|a l1 IH]; intros Hs x y Hx Hy; [destruct Hx|].
  inversion Hs as [|? ? Hs' Ha]; subst. destruct Hx as [<-|Hx].
  - rewrite List.Forall_forall in Ha. apply Ha, List.in_app_iff. right. exact Hy.
  - apply IH; assumption.
Qed.

Lemma limitResults_count videos maxVideos :
  length (limitResults videos maxVideos) = Nat.min (length videos) maxVideos.
Proof.
  unfold limitResults. destruct (Nat.leb_spec (length videos) maxVideos) as [H|H].
  - lia.
  - rewrite List.length_firstn, sort_length. lia.
Qed.

(** X2: [limitResults] returns as many assets as its input has, up to
    [maxVideos]; what it returns and what it drops make up its input, no
    dropped asset scores higher than a returned one, and an input within
    the cap comes back as it is. *)
Theorem limitResults_keeps_the_best (videos : list video) (maxVideos : nat) :
  length (limitResults videos maxVideos) = Nat.min (length videos) maxVideos /\
  exists dropped,
    Permutation videos (limitResults videos maxVideos ++ dropped) /\
    List.Forall
      (fun v => List.Forall (fun w => (score w <= score v)%Z) dropped)
      (limitResults videos maxVideos) /\
    (length videos <= maxVideos -> limitResults videos maxVideos = videos).
Proof.
  split; [apply limitResults_count|].
  unfold limitResults. destruct (Nat.leb_spec (length videos) maxVideos) as [H|H].
  - exists []. rewrite app_nil_r. split; [reflexivity|]. split; [|reflexivity].
    apply List.Forall_forall. intros v _. constructor.
  - exists (skipn maxVideos (sort by_score_descending videos)).
    rewrite List.firstn_skipn. split; [|split; [|lia]].
    + symmetry. apply sort_perm.
    + pose proof (sort_ascending _ (fun v => (- getQualityScore (url v))%Z)
                    by_score_key videos) as Hs.
      unfold ascending in Hs.
      rewrite <- (List.firstn_skipn maxVideos (sort by_score_descending videos)) in Hs.
      apply List.Forall_forall. intros v Hv. apply List.Forall_forall. intros w Hw.
      pose proof (StronglySorted_app _ _ _ Hs v w Hv Hw) as Hvw. cbv beta in Hvw.
      unfold score. lia.
Qed.

Lemma main_content_is_high_quality u :
  isHighQualityVideo u && isMainContentVideo u = isMainContentVideo u.
Proof.
  unfold isMainContentVideo, isHighQualityVideo.
  destruct (includes u (js "/m412/") || includes u (js "/m540/") || includes u (js "/m366/"));
    reflexivity.
Qed.

Lemma filter_nil {A} (f : A -> bool) l :
  List.filter f l = [] <-> List.Forall (fun x => f x = false) l.
Proof.
  induction l as [|a l IH]; simpl.
  - split; auto.
  - destruct (f a) eqn:E; split.
    + discriminate.
    + intros H. inversion H; subst. congruence.
    + intros H. constructor; [exact E|]. apply IH, H.
    + intros H. inversion H; subst. apply IH. assumption.
Qed.

Lemma limitResults_nil videos n : 0 < n -> limitResults videos n = [] <-> videos = [].
Proof.
  intros Hn. rewrite <- !List.length_zero_iff_nil, limitResults_count. lia.
Qed.

(** X3: [contextualVideoFiltering] returns only assets of its input that
    pass [isMainContentVideo], and it returns none exactly when no asset of
    the input passes [isMainContentVideo], whatever the page source holds. *)
Theorem contextualVideoFiltering_main_content (videos : list video) (sourceCode : jsstring) :
  List.Forall (fun v => List.In v videos /\ isMainContentVideo (url v) = true)
    (contextualVideoFiltering videos sourceCode) /\
  (contextualVideoFiltering videos sourceCode = [] <->
   List.Forall (fun v => isMainContentVideo (url v) = false) videos).
Proof.
  unfold contextualVideoFiltering. cbv zeta.
  set (inContext := fun video : video => (_ || _) && isMainContentVideo (url video)).
  assert (Hsub : forall v, List.In v (List.filter inContext videos) ->
                   List.In v videos /\ isMainContentVideo (url v) = true).
  { intros v Hv. apply List.filter_In in Hv. destruct Hv as [Hv Hc]. split; [exact Hv|].
    subst inContext. cbv beta in Hc. apply andb_true_iff in Hc. apply Hc. }
  rewrite (List.filter_ext
             (fun video => isHighQualityVideo (url video) && isMainContentVideo (url video))
             (fun v => isMainContentVideo (url v)))
    by (intros v; apply main_content_is_high_quality).
  destruct (List.filter inContext videos) as [|c cs] eqn:Ec; cbn [length Nat.eqb andb].
  - destruct videos as [|v0 vs]; cbn [length Nat.ltb Nat.leb].
    + split; [constructor|]. split; constructor.
    + change (0 <? S (length vs)) with true. cbv iota. split.
      * apply List.Forall_forall. intros v Hv. apply limitResults_In, List.filter_In in Hv.
        exact Hv.
      * rewrite limitResults_nil by lia. apply filter_nil.
  - split.
    + apply List.Forall_forall. intros v Hv. apply limitResults_In in Hv. apply Hsub, Hv.
    + rewrite limitResults_nil by lia. split; [discriminate|].
      intros Hall. rewrite List.Forall_forall in Hall.
      destruct (Hsub c (or_introl eq_refl)) as [Hin Hc]. rewrite (Hall c Hin) in Hc.
      discriminate.
Qed.

(** X4: in the result of [sortVideosByQuality] an asset labelled 4K is
    followed only by assets labelled 4K or Unknown, and an asset that comes
    before one labelled 2K, HD, SD or Low is not labelled 4K and has at
    most its rank: the rank 0 of 4K is read as missing and replaced by 5. *)
Theorem sortVideosByQuality_ranks_4K_last (videos : list video) :
  StronglySorted
    (fun a b => quality a = Q4K -> quality b = Q4K \/ quality b = UnknownQuality)
    (sortVideosByQuality videos) /\
  StronglySorted
    (fun a b => quality b <> Q4K -> quality b <> UnknownQuality ->
                (qualityOrder (quality a) <= qualityOrder (quality b))%Z /\ quality a <> Q4K)
    (sortVideosByQuality videos).
Proof.
  pose proof (sort_ascending _ quality_rank by_quality_key videos) as Hs.
  unfold ascending in Hs. fold (sortVideosByQuality videos) in Hs.
  split; (eapply StronglySorted_weaken; [|exact Hs]); intros a b; unfold quality_rank, order_or_5;
    destruct (quality a), (quality b); cbn; intros; intuition (try congruence; try lia).
Qed.

End LimitFacts.

Module RouteFacts.
Import RegexFacts ValidatorFacts SortFacts PipelineFacts CapFacts.

Section WithLibs.

Variable L : Libs.

Lemma valid_markers u :
  isValidVideoUrl L (Str u) = true ->
  includes u (js "scontent") = true /\ includes u (js ".mp4") = true /\
  includes u (js ".fna.fbcdn.net") = true /\ 200 <= length u.
Proof.
  rewrite isValidVideoUrl_Str, !andb_true_iff, Nat.leb_le. tauto.
Qed.

Lemma accepted_markers u :
  accepted L u -> includes u (js "scontent") = true /\ includes u (js ".mp4") = true.
Proof.
  intros [Hv|[_ Hp]].
  - apply valid_markers in Hv. tauto.
  - unfold permissive in Hp. apply andb_true_iff in Hp. exact Hp.
Qed.

Lemma extractVideos_accepted html v :
  List.In v (extractVideos L html) -> accepted L (url v).
Proof.
  intros Hv. apply extractVideos_In in Hv.
  destruct (sound_collected L html) as [_ H]. apply H, Hv.
Qed.

Lemma filter_all {A} (f : A -> bool) l :
  (forall x, List.In x l -> f x = true) -> List.filter f l = l.
Proof.
  induction l as [|a l IH]; intros H; cbn [List.filter]; [reflexivity|].
  rewrite (H a (or_introl eq_refl)), IH; [reflexivity|].
  intros x Hx. apply H. right. exact Hx.
Qed.

Lemma facebook_filter_id html :
  List.filter Server.is_facebook_video (extractVideos L html) = extractVideos L html.
Proof.
  apply filter_all. intros v Hv. apply facebook_by_scontent.
  apply extractVideos_accepted, accepted_markers in Hv. apply Hv.
Qed.

(** X5: the filter of the route keeps every asset that [extractVideos]
    returns: the url of each includes [scontent], which the filter accepts,
    so [facebookVideos] is [videos]. *)
Theorem facebook_filter_keeps_every_asset (html : jsstring) :
  List.filter Server.is_facebook_video (extractVideos L html) = extractVideos L html /\
  List.Forall
    (fun v => includes (url v) (js "scontent") = true /\ Server.is_facebook_video v = true)
    (extractVideos L html).
Proof.
  split; [apply facebook_filter_id|].
  apply List.Forall_forall. intros v Hv.
  apply extractVideos_accepted, accepted_markers in Hv. destruct Hv as [Hs _].
  split; [exact Hs|]. apply facebook_by_scontent, Hs.
Qed.

Lemma additional_urls_valid src u :
  List.In u (Server.additional_urls L src) -> isValidVideoUrl L (Str u) = true.
Proof.
  unfold Server.additional_urls. revert u.
  apply (fold_left_keeps
           (fun urls => forall u, List.In u urls -> isValidVideoUrl L (Str u) = true)).
  - intros urls m _ IH u.
    destruct (isValidVideoUrl L (Str (decodeUrl _))) eqn:E; [|apply IH].
    unfold Server.set_add. destruct (existsb _ urls); [apply IH|].
    intros Hu. apply List.in_app_iff in Hu. destruct Hu as [Hu|[<-|[]]]; [apply IH, Hu|exact E].
  - intros u [].
Qed.

(** X6: in a reply of status 200, [count] and [filteredCount] are the
    number of videos listed and [totalFound] the number of assets that
    [extractVideos] returned.  With the message of a successful extraction
    the videos are the result of [extractVideos], which is not empty; with
    the two other messages [extractVideos] returned nothing, and the videos
    found by the specific pattern are not empty and have valid urls. *)
Theorem reply_reports_what_was_found (sourceCode : value) :
  match Server.extract_videos_route L sourceCode with
  | Server.status_400 _ => True
  | Server.status_200 reply =>
      exists src,
        sourceCode = Str src /\
        Server.count reply = length (Server.resp_videos reply) /\
        Server.filteredCount reply = length (Server.resp_videos reply) /\
        Server.totalFound reply = length (extractVideos L src) /\
        match Server.message reply with
        | Server.extracted =>
            Server.resp_videos reply = extractVideos L src /\ extractVideos L src <> []
        | Server.specific_pattern =>
            extractVideos L src = [] /\ Server.resp_videos reply <> [] /\
            List.Forall (fun v => isValidVideoUrl L (Str (url v)) = true)
              (Server.resp_videos reply)
        | Server.none_found =>
            extractVideos L src = [] /\ Server.resp_videos reply = []
        end
  end.
Proof.
  destruct sourceCode as [[|c s]| | | | |]; try exact I.
  unfold Server.extract_videos_route.
  destruct (length (c :: s) <? 1000); [exact I|].
  destruct (50 * 1024 * 1024 <? N.of_nat (length (c :: s)))%N; [exact I|].
  destruct (negb (includes (c :: s) (js "<html")) && negb (includes (c :: s) (js "<!DOCTYPE")));
    [exact I|].
  cbv zeta. rewrite facebook_filter_id.
  destruct (extractVideos L (c :: s)) as [|v vs] eqn:Ev.
  - cbn [length Nat.ltb Nat.leb].
    destruct (Server.additional_urls L (c :: s)) as [|u us] eqn:Eu.
    + cbn [length Nat.ltb Nat.leb]. exists (c :: s). cbn. rewrite Ev. repeat split; reflexivity.
    + change (0 <? length (u :: us)) with true. cbv iota.
      exists (c :: s). cbn [Server.count Server.filteredCount Server.totalFound
                            Server.resp_videos Server.message length].
      rewrite Ev. do 4 (split; [reflexivity|]). split; [reflexivity|].
      set (made := fst (Server.create_all L (u :: us) _)).
      assert (Hurls : List.map url made = u :: us) by apply create_all_urls.
      split.
      * intros E. rewrite E in Hurls. discriminate.
      * apply List.Forall_forall. intros w Hw. apply (additional_urls_valid (c :: s)).
        rewrite Eu, <- Hurls. apply List.in_map, Hw.
  - change (0 <? length (v :: vs)) with true. cbv iota.
    exists (c :: s). cbn. rewrite Ev. repeat split; auto.
Qed.

(** X7: the checks of the route, reply by reply: it refuses what is not a
    non-empty string, then a string shorter than 1000, then one longer than
    50 MiB, then one that includes neither of the two HTML markers; it
    answers with status 200 exactly the strings that pass all four. *)
Theorem route_validates_its_input (sourceCode : value) :
  match Server.extract_videos_route L sourceCode with
  | Server.status_400 Server.not_a_string => forall c s, sourceCode <> Str (c :: s)
  | Server.status_400 Server.too_short =>
      exists src, sourceCode = Str src /\ 0 < length src < 1000
  | Server.status_400 Server.too_large =>
      exists src, sourceCode = Str src /\ (50 * 1024 * 1024 < N.of_nat (length src))%N
  | Server.status_400 Server.not_html =>
      exists src, sourceCode = Str src /\ 1000 <= length src /\ (N.of_nat (length src) <= 50 * 1024 * 1024)%N /\
                  ~ contains src (js "<html") /\ ~ contains src (js "<!DOCTYPE")
  | Server.status_200 _ =>
      exists src, sourceCode = Str src /\ 1000 <= length src /\ (N.of_nat (length src) <= 50 * 1024 * 1024)%N /\
                  (contains src (js "<html") \/ contains src (js "<!DOCTYPE"))
  end.
Proof.
  destruct sourceCode as [src| | | | |]; try (intros c s; discriminate).
  destruct src as [|c s]; [intros c s; discriminate|].
  unfold Server.extract_videos_route.
  destruct (Nat.ltb_spec (length (c :: s)) 1000) as [Hs|Hs].
  { exists (c :: s). split; [reflexivity|]. cbn [length] in *. lia. }
  destruct (N.ltb_spec (50 * 1024 * 1024) (N.of_nat (length (c :: s)))) as [Hl|Hl].
  { exists (c :: s). split; [reflexivity|]. lia. }
  destruct (includes (c :: s) (js "<html")) eqn:H1; cbn [negb andb].
  - apply includes_spec in H1. cbv zeta.
    repeat match goal with |- context [if ?b then _ else _] => destruct b end;
      exists (c :: s); (split; [reflexivity|]); (split; [lia|]); (split; [lia|]); left; exact H1.
  - destruct (includes (c :: s) (js "<!DOCTYPE")) eqn:H2; cbn [negb].
    + apply includes_spec in H2. cbv zeta.
      repeat match goal with |- context [if ?b then _ else _] => destruct b end;
        exists (c :: s); (split; [reflexivity|]); (split; [lia|]); (split; [lia|]); right; exact H2.
    + apply includes_false in H1, H2. exists (c :: s). split; [reflexivity|].
      split; [lia|]. split; [lia|]. split; assumption.
Qed.

(** A source of a thousand characters or more is past the first two
    checks of the route. *)
Lemma route_past_length_checks src :
  1000 <= length src ->
  Server.extract_videos_route L (Str src) <> Server.status_400 Server.not_a_string /\
  Server.extract_videos_route L (Str src) <> Server.status_400 Server.too_short.
Proof.
  intros Hlen. destruct src as [|c s]; [cbn in Hlen; lia|].
  unfold Server.extract_videos_route.
  apply Nat.ltb_ge in Hlen. rewrite Hlen. cbv zeta.
  repeat match goal with |- context [if ?b then _ else _] => destruct b end;
    split; discriminate.
Qed.

(** X8: every asset that [extractVideos] returns is of type MP4 and has
    video; its quality, size, resolution and description are those computed
    from its url and audio flag; and it has audio unless its url includes
    the format code m69 between slashes. *)
Theorem assets_are_classified_from_their_url (html : jsstring) :
  List.Forall
    (fun v =>
       type v = MP4 /\ hasVideo v = true /\
       ct_hasVideo (contentType v) = true /\ hasAudio v = ct_hasAudio (contentType v) /\
       quality v = detectQuality (url v) /\ size_ v = estimateSize (detectQuality (url v)) /\
       resolution v = detectResolution (url v) /\
       description (contentType v) = describe true (hasAudio v) /\
       (includes (url v) (js "/m69/") = false -> hasAudio v = true))
    (extractVideos L html).
Proof.
  apply List.Forall_forall. intros v Hv.
  pose proof (extractVideos_accepted _ _ Hv) as Ha. apply accepted_markers in Ha.
  destruct Ha as [_ Hmp4].
  apply extractVideos_made in Hv. destruct Hv as (n & Hn).
  set (u := url v) in *. rewrite Hn. clearbody u. clear Hn v.
  unfold createVideoObject, detectContentType, detectType, bind, ret, Math_random_call.
  rewrite Hmp4.
  destruct (includes u (js "/m69/")) eqn:E69.
  - rewrite !orb_true_r.
    cbn. repeat split; auto. discriminate.
  - destruct (includes u (js "/m78/") || false || includes u (js "/m366/") ||
              includes u (js "/m412/")); cbn; repeat split; auto.
Qed.

End WithLibs.

End RouteFacts.

Module LiteralFacts.
Import RegexFacts.

(** The words of a pattern built from literals, alternatives and groups. *)
Fixpoint words (r : regex) : option (list jsstring) :=
  match r with
  | REmpty => Some [[]]
  | RChar c => Some [[c]]
  | RSeq a b =>
      match words a, words b with
      | Some wa, Some wb => Some (List.flat_map (fun u => List.map (app u) wb) wa)
      | _, _ => None
      end
  | RAlt a b =>
      match words a, words b with
      | Some wa, Some wb => Some (wa ++ wb)
      | _, _ => None
      end
  | RGroup _ a => words a
  | _ => None
  end.

(** A continuation whose success does not depend on the captures. *)
Definition blind (k : cont) : Prop :=
  forall y y', rest y = rest y' -> pos y = pos y' -> (is_Some (k y) <-> is_Some (k y')).

Lemma moved_moved x w1 t1 w2 t2 :
  moved (moved x w1 t1) w2 t2 = moved x (w1 ++ w2) t2.
Proof. unfold moved. cbn [pos caps]. rewrite length_app, Nat.add_assoc. reflexivity. Qed.

Lemma moved_one x c t : moved x [c] t = step x t.
Proof. unfold moved, step. cbn [length]. f_equal. lia. Qed.

Lemma rmatch_words ds r :
  forall ws, words r = Some ws ->
  forall k, blind k ->
  forall x,
    is_Some (rmatch false ds r k x) <->
    exists w t, List.In w ws /\ rest x = w ++ t /\ is_Some (k (moved x w t)).
Proof.
  induction r as [| c | | neg rs | a IHa b IHb | a IHa b IHb
                  | min max greedy a IHa | n a IHa | | ];
    intros ws Hws k Hk x; cbn [words] in Hws; try discriminate.
  - injection Hws as <-. cbn [rmatch]. split.
    + intros H. exists [], (rest x). rewrite moved_nil. cbn. auto.
    + intros (w & t & [<-|[]] & E & H). cbn in E. subst t. rewrite moved_nil in H. exact H.
  - injection Hws as <-. cbn [rmatch]. unfold one_char.
    destruct (rest x) as [|c' t'] eqn:E.
    + split; [intros [? H]; discriminate|]. intros (w & t & [<-|[]] & E' & _). discriminate.
    + unfold lit_eq. cbn [andb]. rewrite orb_false_r.
      destruct (char_eqb c c') eqn:Ec.
      * apply char_eqb_eq in Ec. subst c'. split.
        -- intros H. exists [c], t'. split; [left; reflexivity|]. split; [reflexivity|].
           rewrite moved_one. exact H.
        -- intros (w & t & [<-|[]] & [= <-] & H). rewrite moved_one in H. exact H.
      * split; [intros [? H]; discriminate|].
        intros (w & t & [<-|[]] & [= <- _] & _).
        rewrite (proj2 (char_eqb_eq c' c') eq_refl) in Ec. discriminate.
  - destruct (words a) as [wa|] eqn:Ea; [|discriminate].
    destruct (words b) as [wb|] eqn:Eb; [|discriminate].
    injection Hws as <-. cbn [rmatch].
    assert (Hkb : blind (rmatch false ds b k)).
    { intros y y' Hr Hp. rewrite !(IHb wb eq_refl k Hk).
      split; intros (w & t & Hw & E & H); exists w, t; (split; [exact Hw|]);
        (split; [congruence|]); revert H; apply Hk; cbn; congruence. }
    rewrite (IHa wa eq_refl _ Hkb). split.
    + intros (w1 & t1 & H1 & E1 & H). apply (IHb wb eq_refl k Hk) in H.
      destruct H as (w2 & t2 & H2 & E2 & H). cbn [moved rest] in E2. subst t1.
      exists (w1 ++ w2), t2. split; [|split].
      * apply List.in_flat_map. exists w1. split; [exact H1|]. apply List.in_map, H2.
      * rewrite E1, List.app_assoc. reflexivity.
      * rewrite <- moved_moved with (t1 := w2 ++ t2). exact H.
    + intros (w & t & Hw & E & H). apply List.in_flat_map in Hw.
      destruct Hw as (w1 & H1 & Hw). apply List.in_map_iff in Hw.
      destruct Hw as (w2 & <- & H2).
      exists w1, (w2 ++ t). split; [exact H1|]. split; [rewrite E, List.app_assoc; reflexivity|].
      apply (IHb wb eq_refl k Hk). exists w2, t. split; [exact H2|]. split; [reflexivity|].
      rewrite moved_moved. exact H.
  - destruct (words a) as [wa|] eqn:Ea; [|discriminate].
    destruct (words b) as [wb|] eqn:Eb; [|discriminate].
    injection Hws as <-. cbn [rmatch]. rewrite or_else_is_Some.
    rewrite (IHa wa eq_refl k Hk), (IHb wb eq_refl k Hk). split.
    + intros [(w & t & Hw & H)|(w & t & Hw & H)]; exists w, t;
        (split; [apply List.in_app_iff; auto|exact H]).
    + intros (w & t & Hw & H). apply List.in_app_iff in Hw.
      destruct Hw as [Hw|Hw]; [left|right]; exists w, t; auto.
  - cbn [rmatch].
    assert (Hk' : blind (fun s' => k (set_cap n (firstn (pos s' - pos x) (rest x)) s'))).
    { intros y y' Hr Hp. apply Hk; cbn; assumption. }
    rewrite (IHa ws Hws _ Hk').
    split; intros (w & t & Hw & E & H); exists w, t; (split; [exact Hw|]);
      (split; [exact E|]); revert H; apply Hk; reflexivity.
Qed.

(** [re.test(s)] for such a pattern: [s] includes one of its words. *)
Lemma test_words re ws s :
  words (source re) = Some ws -> ignoreCase (rflags re) = false ->
  test re s = existsb (includes s) ws.
Proof.
  intros Hws Hic. apply eq_true_iff_eq.
  rewrite test_true, List.existsb_exists.
  assert (Hsome : blind Some) by (intros y y' _ _; split; eauto).
  split.
  - intros (pre & post & -> & H). rewrite match_at_is_Some, Hic in H.
    apply (rmatch_words _ _ ws Hws Some Hsome) in H.
    destruct H as (w & t & Hw & E & _). cbn [rest] in E. subst post.
    exists w. split; [exact Hw|]. apply includes_spec. exists pre, t. reflexivity.
  - intros (w & Hw & H). apply includes_spec in H. destruct H as (pre & post & ->).
    exists pre, (w ++ post). split; [reflexivity|].
    rewrite match_at_is_Some, Hic.
    apply (rmatch_words _ _ ws Hws Some Hsome). exists w, post. cbn [rest]. eauto.
Qed.

Lemma words_lit s : words (lit s) = Some [js s].
Proof.
  induction s as [|a [|b s] IH]; [reflexivity|reflexivity|].
  change (lit (String a (String b s))) with (RSeq (RChar (code a)) (lit (String b s))).
  cbn [words]. rewrite IH. reflexivity.
Qed.

Lemma includes_longer s p q : includes s (p ++ q) = true -> includes s p = true.
Proof.
  rewrite !includes_spec. intros (pre & post & ->). exists pre, (q ++ post).
  rewrite <- List.app_assoc. reflexivity.
Qed.

End LiteralFacts.

Module StrictFacts.
Import RegexFacts ValidatorFacts SortFacts PipelineFacts CapFacts GroupingFacts LiteralFacts ScoreFacts.
Import MainContent.

Lemma test_highQualityVideoAudio u :
  test highQualityVideoAudio u =
  existsb (includes u) [js "/m412"; js "/m540"; js "/m720"; js "/m1080"].
Proof. apply test_words; reflexivity. Qed.

Lemma test_good_quality_path u :
  test good_quality_path u = existsb (includes u) [js "/m366/"; js "/m412/"; js "/m540/"].
Proof. apply test_words; reflexivity. Qed.

(** A url with one of the codes m412, m540, m366 between slashes scores 80
    or more and is analysed as carrying audio. *)
Lemma high_quality_code_scores u :
  has_high_quality_code u = true ->
  (80 <= getQualityScore u)%Z /\
  a_hasAudio (analyzeContentType u) = true /\
  is_low (a_quality (analyzeContentType u)) = false.
Proof.
  unfold has_high_quality_code. rewrite !orb_true_iff. intros H.
  assert (Hcase : test highQualityVideoAudio u = true \/
                  test standardQualityVideoAudio u = true).
  { destruct H as [[H|H]|H].
    - left. rewrite test_highQualityVideoAudio. cbn [existsb].
      rewrite (includes_longer u (js "/m412") (js "/") H). reflexivity.
    - left. rewrite test_highQualityVideoAudio. cbn [existsb].
      rewrite (includes_longer u (js "/m540") (js "/") H), orb_true_r. reflexivity.
    - right. unfold standardQualityVideoAudio. rewrite test_plain.
      apply (includes_longer u (js "/m366") (js "/") H). }
  unfold getQualityScore, analyzeContentType.
  destruct (test highQualityVideoAudio u); [cbn; repeat split; lia|].
  destruct Hcase as [Hc|Hc]; [discriminate|]. rewrite Hc. cbn. repeat split; lia.
Qed.

(** X9: a group that [isMainVideoGroup] accepts always has a best video:
    [selectBestVideoFromGroup] returns one of its members, with video and
    audio and a score of 80 or more. *)
Theorem main_group_yields_a_video (group : list video) :
  isMainVideoGroup group = true ->
  exists best,
    selectBestVideoFromGroup group = Some best /\
    List.In best group /\ content_complete best = true /\ (80 <= score best)%Z.
Proof.
  intros Hg. apply isMainVideoGroup_true in Hg. destruct Hg as (w & Hw & Hq).
  apply high_quality_code_scores in Hq. destruct Hq as (Hs & Ha & Hl).
  assert (Hc : content_complete w = true).
  { unfold content_complete. cbv zeta. rewrite Ha, Hl.
    destruct (score_in_band (url w)) as (_ & -> & _). reflexivity. }
  destruct (selectBestVideoFromGroup group) as [best|] eqn:E.
  - exists best. apply selectBest_Some in E. destruct E as (Hin & Hcb & Hmax).
    split; [reflexivity|]. split; [exact Hin|]. split; [exact Hcb|].
    specialize (Hmax w Hw Hc). unfold score in *. lia.
  - apply selectBest_None with (w := w) in E; [|exact Hw]. congruence.
Qed.

Lemma main_group_yields_a_video_witness :
  exists best,
    selectBestVideoFromGroup [Counterexamples.asset Samples.cdn_url] = Some best /\
    List.In best [Counterexamples.asset Samples.cdn_url] /\
    content_complete best = true /\ (80 <= score best)%Z.
Proof.
  apply (main_group_yields_a_video [Counterexamples.asset Samples.cdn_url]).
  vm_compute. reflexivity.
Defined.

End StrictFacts.

Module FormatFacts.
Import RegexFacts ValidatorFacts SortFacts PipelineFacts CapFacts GroupingFacts LiteralFacts.
Import ScoreFacts StrictFacts MainContent.

Section ByKey.

Variable key : video -> jsstring.

(** The videos of key [k], in order. *)
Definition keyed (k : jsstring) (l : list video) : list video :=
  List.filter (fun v => str_eqb k (key v)) l.

Definition grouped_by (l : list video) : videoMap :=
  fold_left (fun m v => push_to_group (key v) v m) l [].

Definition groups (l : list video) (m : videoMap) : Prop :=
  List.NoDup (List.map fst m) /\
  forall k, lookup k m = match keyed k l with [] => None | g => Some g end.

Lemma groups_push l m v : groups l m -> groups (l ++ [v]) (push_to_group (key v) v m).
Proof.
  intros [Hnd Hl]. split.
  - rewrite push_to_group_keys. destruct (lookup (key v) m) eqn:E; [exact Hnd|].
    apply NoDup_snoc; [exact Hnd|]. apply lookup_None, E.
  - intros k. rewrite lookup_push, !Hl. unfold keyed.
    rewrite List.filter_app. cbn [List.filter].
    rewrite (str_eqb_sym k (key v)).
    destruct (str_eqb (key v) k) eqn:E.
    + apply str_eqb_eq in E. subst k.
      destruct (List.filter _ l); reflexivity.
    + rewrite List.app_nil_r. reflexivity.
Qed.

Lemma groups_grouped_by l : groups l (grouped_by l).
Proof.
  unfold grouped_by.
  assert (H : forall todo done m,
            groups done m ->
            groups (done ++ todo) (fold_left (fun m v => push_to_group (key v) v m) todo m)).
  { intros todo. induction todo as [|v todo IH]; intros done m Hm; cbn [fold_left].
    - rewrite List.app_nil_r. exact Hm.
    - replace (done ++ v :: todo) with ((done ++ [v]) ++ todo)
        by (rewrite <- List.app_assoc; reflexivity).
      apply IH. apply (groups_push done m v Hm). }
  apply (H l [] []). split; [constructor|]. intros k. reflexivity.
Qed.

Lemma groups_entry l m k g :
  groups l m -> List.In (k, g) m -> g = keyed k l /\ g <> [].
Proof.
  intros [Hnd Hl] H. apply (lookup_In _ _ _ Hnd) in H. rewrite Hl in H.
  destruct (keyed k l) eqn:E; [discriminate|].
  injection H as <-. split; [reflexivity|discriminate].
Qed.

Lemma keyed_In k l v : List.In v (keyed k l) <-> List.In v l /\ key v = k.
Proof.
  unfold keyed. rewrite List.filter_In, str_eqb_eq. split; intros [H1 H2]; auto.
Qed.

(** [slice(0, 3)] of every group, in the order of the map. *)
Definition top3 (m : videoMap) : list video :=
  List.flat_map (fun entry => firstn 3 (snd entry)) m.

Lemma top3_In l m v : groups l m -> List.In v (top3 m) -> List.In v l.
Proof.
  intros Hm Hv. apply List.in_flat_map in Hv. destruct Hv as ([k g] & He & Hv).
  apply firstn_In in Hv. cbn [snd] in Hv.
  destruct (groups_entry l m k g Hm He) as [-> _]. apply keyed_In in Hv. apply Hv.
Qed.

Lemma top3_length m : length (top3 m) <= 3 * length m.
Proof.
  induction m as [|e m IH]; cbn [top3 List.flat_map length]; [lia|].
  rewrite length_app, List.length_firstn. fold (top3 m). lia.
Qed.

Lemma keyed_all k g : (forall v, List.In v g -> key v = k) -> keyed k g = g.
Proof.
  intros H. apply RouteFacts.filter_all. intros v Hv. apply str_eqb_eq. symmetry. apply H, Hv.
Qed.

Lemma keyed_none k g : (forall v, List.In v g -> key v <> k) -> keyed k g = [].
Proof.
  intros H. apply LimitFacts.filter_nil. apply List.Forall_forall. intros v Hv.
  destruct (str_eqb k (key v)) eqn:E; [|reflexivity].
  apply str_eqb_eq in E. exfalso. apply (H v Hv). congruence.
Qed.

Lemma keyed_top3_lookup m k :
  List.NoDup (List.map fst m) ->
  (forall k' g v, List.In (k', g) m -> List.In v g -> key v = k') ->
  keyed k (top3 m) = match lookup k m with Some g => firstn 3 g | None => [] end.
Proof.
  induction m as [|[k0 g0] m IH]; intros Hnd Hkeys; [reflexivity|].
  inversion Hnd as [|? ? Hk0 Hnd']; subst.
  cbn [top3 List.flat_map snd lookup]. fold (top3 m). unfold keyed at 1.
  rewrite List.filter_app. fold (keyed k (firstn 3 g0)) (keyed k (top3 m)).
  assert (Hg0 : forall v, List.In v (firstn 3 g0) -> key v = k0).
  { intros v Hv. apply firstn_In in Hv. apply (Hkeys k0 g0 v); [left; reflexivity|exact Hv]. }
  rewrite IH; [|exact Hnd'|intros k' g v He; apply Hkeys; right; exact He].
  destruct (str_eqb k0 k) eqn:E.
  - apply str_eqb_eq in E. subst k0.
    rewrite (proj2 (lookup_None k m) Hk0), List.app_nil_r. apply keyed_all, Hg0.
  - rewrite keyed_none; [reflexivity|].
    intros v Hv Ek. rewrite (Hg0 v Hv) in Ek. subst k0. rewrite str_eqb_refl in E. discriminate.
Qed.

(** Of every key the first three videos of the list are kept. *)
Lemma keyed_top3 l k : keyed k (top3 (grouped_by l)) = firstn 3 (keyed k l).
Proof.
  pose proof (groups_grouped_by l) as Hm. destruct Hm as [Hnd Hl].
  rewrite keyed_top3_lookup; [|exact Hnd|].
  - rewrite Hl. destruct (keyed k l); reflexivity.
  - intros k' g v He Hv.
    destruct (groups_entry l _ k' g (conj Hnd Hl) He) as [-> _].
    apply keyed_In in Hv. apply Hv.
Qed.

Lemma grouped_by_keys l k :
  List.In k (List.map fst (grouped_by l)) -> List.In k (List.map key l).
Proof.
  intros H. apply List.in_map_iff in H. destruct H as ([k' g] & <- & He). cbn [fst].
  destruct (groups_entry l _ k' g (groups_grouped_by l) He) as [-> Hne].
  destruct (keyed k' l) as [|v g'] eqn:E; [contradiction|].
  assert (Hv : List.In v (keyed k' l)) by (rewrite E; left; reflexivity).
  apply keyed_In in Hv. destruct Hv as [Hv <-]. apply List.in_map, Hv.
Qed.

(** No more than three videos for each of the keys that occur. *)
Lemma top3_bound l keys :
  (forall v, List.In v l -> List.In (key v) keys) ->
  length (top3 (grouped_by l)) <= 3 * length keys.
Proof.
  intros Hkeys. pose proof (top3_length (grouped_by l)) as Hlen.
  assert (Hle : length (grouped_by l) <= length keys).
  { rewrite <- (List.length_map fst). apply List.NoDup_incl_length.
    - apply groups_grouped_by.
    - intros k Hk. apply grouped_by_keys, List.in_map_iff in Hk.
      destruct Hk as (v & <- & Hv). apply Hkeys, Hv. }
  lia.
Qed.

End ByKey.

Definition formatKey (v : video) : jsstring := getVideoFormatKey (url v).

Definition format_keys : list jsstring :=
  [js "hd-m412"; js "hd-m540"; js "sd-m366"; js "audio-m78"; js "hd-1080"; js "hd-720";
   js "sd-480"; js "other"].

Lemma formatKey_known v : List.In (formatKey v) format_keys.
Proof.
  unfold formatKey, getVideoFormatKey, format_keys.
  repeat match goal with
         | |- context [if ?b then _ else _] => destruct b
         end; cbn [List.In]; auto 10.
Qed.

Lemma limitToMainContent_above videos :
  20 < length videos ->
  limitToMainContent videos =
  top3 (grouped_by formatKey (sort by_score_descending videos)).
Proof.
  intros H. unfold limitToMainContent. apply Nat.leb_gt in H. rewrite H. reflexivity.
Qed.

Lemma limitToMainContent_cases videos :
  List.Forall (fun v => List.In v videos) (limitToMainContent videos) /\
  (length videos <= 20 /\ limitToMainContent videos = videos \/ 20 < length videos).
Proof.
  destruct (Nat.le_gt_cases (length videos) 20) as [H|H].
  - assert (E : limitToMainContent videos = videos).
    { unfold limitToMainContent. apply Nat.leb_le in H. rewrite H. reflexivity. }
    rewrite E. split; [apply List.Forall_forall; auto|]. left. auto.
  - rewrite (limitToMainContent_above videos H). split; [|right; exact H].
    apply List.Forall_forall. intros v Hv.
    apply (top3_In formatKey _ _ v (groups_grouped_by formatKey _)) in Hv.
    apply sort_In in Hv. exact Hv.
Qed.

(** X10: [limitToMainContent] returns assets of its input, at most 24 of
    them; a list of 20 or fewer comes back as it is, and of a longer one it
    keeps, for every format key, the first three in the order of
    descending score. *)
Theorem limitToMainContent_keeps_three_per_format (videos : list video) :
  List.Forall (fun v => List.In v videos) (limitToMainContent videos) /\
  length (limitToMainContent videos) <= 24 /\
  (length videos <= 20 /\ limitToMainContent videos = videos \/
   20 < length videos /\
   forall k,
     keyed formatKey k (limitToMainContent videos) =
     firstn 3 (keyed formatKey k (sort by_score_descending videos))).
Proof.
  destruct (Nat.le_gt_cases (length videos) 20) as [H|H].
  - assert (E : limitToMainContent videos = videos).
    { unfold limitToMainContent. apply Nat.leb_le in H. rewrite H. reflexivity. }
    rewrite E. split; [apply List.Forall_forall; auto|]. split; [lia|]. left. auto.
  - rewrite (limitToMainContent_above videos H). split; [|split].
    + apply List.Forall_forall. intros v Hv.
      apply (top3_In formatKey _ _ v (groups_grouped_by formatKey _)) in Hv.
      apply sort_In in Hv. exact Hv.
    + apply (top3_bound formatKey _ format_keys). intros v _. apply formatKey_known.
    + right. split; [exact H|]. intros k. apply keyed_top3.
Qed.

(** What [isLikelyMainVideo] asks for first. *)
Lemma likely_has_code u :
  isLikelyMainVideo u = true -> isHighQualityVideo u = true /\ 300 <= length u.
Proof.
  unfold isLikelyMainVideo. cbv zeta. rewrite test_good_quality_path. cbn [existsb].
  rewrite orb_false_r. unfold isHighQualityVideo.
  destruct (includes u (js "/m366/")), (includes u (js "/m412/")), (includes u (js "/m540/"));
    cbn [negb orb]; try discriminate;
    (destruct (Nat.ltb_spec (length u) 300); [discriminate|]; intros _; split; [reflexivity|lia]).
Qed.

Definition high_format_keys : list jsstring := [js "hd-m412"; js "hd-m540"; js "sd-m366"].

Lemma formatKey_high v :
  isHighQualityVideo (url v) = true -> List.In (formatKey v) high_format_keys.
Proof.
  unfold formatKey, getVideoFormatKey, isHighQualityVideo, high_format_keys.
  destruct (includes (url v) (js "/m412/")); [cbn; auto|].
  destruct (includes (url v) (js "/m540/")); [cbn; auto|].
  destruct (includes (url v) (js "/m366/")); [cbn; auto|]. discriminate.
Qed.

(** The checks of the strict filter that can fail. *)
Definition strict (v : video) : bool :=
  isLikelyMainVideo (url v) && (300 <? length (url v)) && test proper_format (url v).

(** X11: [filterUniqueHighQualityVideos] is [limitToMainContent] of the
    assets of [identifyMainVideos] that pass [isLikelyMainVideo], have a url
    longer than 300 and match the format pattern, its other checks never
    failing there; it returns at most 20 assets, all of them from its input,
    with video and audio and a high-quality format code. *)
Theorem filterUniqueHighQualityVideos_at_most_twenty (videos : list video) :
  filterUniqueHighQualityVideos videos =
    limitToMainContent (List.filter strict (identifyMainVideos videos)) /\
  length (filterUniqueHighQualityVideos videos) <= 20 /\
  List.Forall
    (fun v => List.In v videos /\ strict v = true /\ content_complete v = true /\
              isHighQualityVideo (url v) = true)
    (filterUniqueHighQualityVideos videos).
Proof.
  assert (E : filterUniqueHighQualityVideos videos =
              limitToMainContent (List.filter strict (identifyMainVideos videos))).
  { unfold filterUniqueHighQualityVideos. cbv zeta. f_equal.
    apply List.filter_ext_in. intros v Hv. apply kept_is_best in Hv.
    destruct Hv as (_ & Hc & _). unfold content_complete in Hc. cbv zeta in Hc.
    apply andb_true_iff in Hc. destruct Hc as [Hc _]. rewrite Hc. cbn [andb]. unfold strict.
    destruct (isLikelyMainVideo (url v)) eqn:El; [|reflexivity].
    destruct (likely_has_code _ El) as [-> _]. reflexivity. }
  assert (Hall : forall v, List.In v (List.filter strict (identifyMainVideos videos)) ->
                   List.In v videos /\ strict v = true /\ content_complete v = true /\
                   isHighQualityVideo (url v) = true).
  { intros v Hv. apply List.filter_In in Hv. destruct Hv as [Hv Hs].
    apply kept_is_best in Hv. destruct Hv as (Hin & Hc & _).
    split; [exact Hin|]. split; [exact Hs|]. split; [exact Hc|].
    unfold strict in Hs. rewrite !andb_true_iff in Hs. apply likely_has_code. apply Hs. }
  split; [exact E|]. rewrite E.
  set (filtered := List.filter strict (identifyMainVideos videos)) in *.
  destruct (limitToMainContent_cases filtered) as (Hsub & Hcases).
  split.
  - destruct Hcases as [[Hle ->]|Hgt]; [exact Hle|].
    rewrite (limitToMainContent_above filtered Hgt).
    apply (Nat.le_trans _ (3 * length high_format_keys)); [|cbn; lia].
    apply top3_bound. intros v Hv. apply sort_In in Hv.
    apply formatKey_high. apply Hall, Hv.
  - apply List.Forall_forall. intros v Hv. apply Hall.
    rewrite List.Forall_forall in Hsub. apply Hsub, Hv.
Qed.

End FormatFacts.

Module LoopFacts.
Import RegexFacts.

(** The patterns that run in a [while ((match = re.exec(s)) !== null)]
    loop. *)
Definition exec_patterns : list RegExp :=
  videoPatterns ++ fallbackPatterns ++ videoPostPatterns ++ videoIdPatterns ++
  [jsonLdRegex; Server.fbVideoPattern].

(** [m] is a match in [s]: a non-empty piece of [s] from [index m] to
    [endIndex m]. *)
Definition found_in (s : jsstring) (m : rmatch_result) : Prop :=
  exists before,
    s = before ++ matched m ++ after m /\ index m = length before /\
    endIndex m = index m + length (matched m) /\ 0 < length (matched m).

Definition in_turn (a b : rmatch_result) : Prop := endIndex a <= index b.

Lemma exec_loop_in_turn re :
  nullable (source re) = false ->
  forall fuel pre s,
    List.Forall (found_in (pre ++ s)) (exec_loop re fuel s (length pre)) /\
    List.Forall (fun m => length pre <= index m) (exec_loop re fuel s (length pre)) /\
    StronglySorted in_turn (exec_loop re fuel s (length pre)).
Proof.
  intros Hn fuel. induction fuel as [|fuel IH]; intros pre s; cbn [exec_loop].
  - repeat split; constructor.
  - destruct (search re s (length pre)) as [m|] eqn:E; [|repeat split; constructor].
    rewrite (never_empty re s _ m Hn E).
    apply search_ok in E. destruct E as (before & Hs & Hi & He & Hl).
    unfold least in Hl. rewrite Hn in Hl.
    specialize (IH (pre ++ before ++ matched m) (after m)).
    replace (length (pre ++ before ++ matched m)) with (endIndex m) in IH
      by (rewrite !length_app; lia).
    replace ((pre ++ before ++ matched m) ++ after m) with (pre ++ s) in IH
      by (rewrite Hs, <- !List.app_assoc; reflexivity).
    destruct IH as (IH1 & IH2 & IH3). split; [|split].
    + constructor; [|exact IH1]. exists (pre ++ before).
      rewrite Hs, <- !List.app_assoc, length_app. repeat split; auto; lia.
    + constructor; [lia|]. revert IH2. apply List.Forall_impl. intros a Ha. lia.
    + constructor; [exact IH3|]. exact IH2.
Qed.

(** X12: for every pattern that the server runs in an exec loop and every
    input, each match is a non-empty piece of the input at its index, each
    match begins where the one before ended or later, and the loop ends:
    the matches are the same whatever the number of turns allowed beyond
    the length of the input. *)
Theorem exec_loops_step_over_their_matches :
  List.Forall
    (fun re =>
       forall s,
         List.Forall (found_in s) (exec_all re s) /\
         StronglySorted in_turn (exec_all re s) /\
         forall fuel, length s < fuel -> exec_loop re fuel s 0 = exec_all re s)
    exec_patterns.
Proof.
  apply List.Forall_forall. intros re Hre.
  assert (Hn : nullable (source re) = false).
  { pose proof exec_patterns_not_nullable as H. rewrite List.forallb_forall in H.
    apply negb_true_iff, H, Hre. }
  intros s. destruct (exec_loop_in_turn re Hn (S (length s)) [] s) as (H1 & _ & H3).
  split; [exact H1|]. split; [exact H3|].
  intros fuel Hf. apply exec_loop_fuel; [exact Hn|exact Hf|lia].
Qed.

End LoopFacts.

Module CompletenessFacts.
Import RegexFacts ValidatorFacts SortFacts PipelineFacts.

Section WithLibs.

Variable L : Libs.

(** A match of a pattern whose candidate passes the guards and the
    Validator is among the videos after the pattern loop. *)
Lemma pattern_finds html i p m :
  List.In (i, p) (indexed videoPatterns) -> List.In m (exec_all p html) ->
  passes_guards (candidate m) = true ->
  isValidVideoUrl L (Str (candidate m)) = true ->
  knows (candidate m) (scan_patterns L html start).
Proof.
  intros Hp Hm Hg Hv. unfold scan_patterns.
  apply (fold_left_reaches (fun st => steady L st st) (knows (candidate m)) _ _ (i, p) Hp).
  - intros a q Ha.
    apply (fold_left_keeps (fun st => steady L st st)); [|exact Ha].
    intros a' m' _ Ha'. eapply steady_self, steady_visit, Ha'.
  - intros a Ha. cbn [fst snd].
    apply (fold_left_reaches (fun st => steady L st st) (knows (candidate m)) _ _ m Hm).
    + intros a' m' Ha'. eapply steady_self, steady_visit, Ha'.
    + intros a' Ha'. unfold visit. rewrite Hg, Hv. cbn [negb andb].
      unfold has. destruct (Nat.eqb i 31 && permissive (candidate m));
        case_bool_decide as Hin; cbn [negb];
        solve [apply Ha', Hin|apply found_add_video].
    + intros a' m' Ha'. apply knows_grows. apply (steady_visit L a' i a' m' Ha').
    + exact Ha.
  - intros a q Ha HQ.
    apply (fold_left_keeps (fun st => steady L st st /\ knows (candidate m) st)); [|auto].
    intros a' m' _ [Ha' HQ']. split.
    + eapply steady_self, steady_visit, Ha'.
    + revert HQ'. apply knows_grows. apply (steady_visit L a' (fst q) a' m' Ha').
  - apply steady_start.
Qed.

Lemma indexed_nth_error {A} (l : list A) i a :
  nth_error l i = Some a -> List.In (i, a) (indexed l).
Proof.
  intros H. pose proof (proj1 (List.nth_error_Some l i)) as Hi.
  rewrite H in Hi. specialize (Hi ltac:(discriminate)).
  rewrite <- (List.nth_error_nth l i a H). apply indexed_nth, Hi.
Qed.

(** X13: a candidate that a pattern of [videoPatterns] finds in the
    cleaned page, that passes the guards of the loop and that the Validator
    accepts has its url in the result of [extractVideos]. *)
Theorem valid_candidates_are_returned (html : jsstring) (i : nat) (p : RegExp)
    (m : rmatch_result) :
  nth_error videoPatterns i = Some p ->
  List.In m (exec_all p (cleanHtml html)) ->
  passes_guards (candidate m) = true ->
  isValidVideoUrl L (Str (candidate m)) = true ->
  List.In (candidate m) (List.map url (extractVideos L html)).
Proof.
  intros Hp Hm Hg Hv.
  apply scanned_in_result, pattern_loop_in_scanned.
  apply (pattern_finds _ i p m); [apply indexed_nth_error, Hp|assumption..].
Qed.

(** X14: when the pattern loop adds no video, a candidate that a fallback
    pattern finds in the cleaned page and that the Validator accepts has
    its url in the result of [extractVideos]. *)
Theorem fallback_candidates_are_returned (html : jsstring) (p : RegExp)
    (m : rmatch_result) :
  videos (scan_patterns L (cleanHtml html) start) = [] ->
  List.In p fallbackPatterns ->
  List.In m (exec_all p (cleanHtml html)) ->
  isValidVideoUrl L (Str (fallback_candidate m)) = true ->
  List.In (fallback_candidate m) (List.map url (extractVideos L html)).
Proof.
  intros Hnone Hp Hm Hv. apply scanned_in_result. unfold scanned.
  fold start. rewrite Hnone. cbn [length Nat.eqb].
  apply (fallback_finds L _ _ p m Hp Hm Hv).
  eapply steady_self, steady_scan_patterns, steady_start.
Qed.

End WithLibs.

Import Samples.

Definition hd_src_match : rmatch_result :=
  hd {| index := 0; matched := []; groups := []; endIndex := 0; after := [] |}
    (exec_all (nth 0 videoPatterns last_pattern) (cleanHtml hd_src_page)).

Lemma valid_candidates_are_returned_witness :
  candidate hd_src_match = cdn_url /\
  List.In (candidate hd_src_match) (List.map url (extractVideos plain_libs hd_src_page)).
Proof.
  split; [vm_compute; reflexivity|].
  apply (valid_candidates_are_returned plain_libs hd_src_page 0
           (nth 0 videoPatterns last_pattern) hd_src_match).
  - reflexivity.
  - vm_compute. left. reflexivity.
  - vm_compute. reflexivity.
  - vm_compute. reflexivity.
Defined.

Definition marker_match : rmatch_result :=
  hd {| index := 0; matched := []; groups := []; endIndex := 0; after := [] |}
    (exec_all (nth 0 fallbackPatterns last_pattern) (cleanHtml Counterexamples.marker_page)).

Lemma fallback_candidates_are_returned_witness :
  fallback_candidate marker_match = Counterexamples.marker_url /\
  List.In (fallback_candidate marker_match)
    (List.map url (extractVideos plain_libs Counterexamples.marker_page)).
Proof.
  split; [vm_compute; reflexivity|].
  apply (fallback_candidates_are_returned plain_libs Counterexamples.marker_page
           (nth 0 fallbackPatterns last_pattern) marker_match).
  - vm_compute. reflexivity.
  - left. reflexivity.
  - vm_compute. left. reflexivity.
  - vm_compute. reflexivity.
Defined.

End CompletenessFacts.

Module ContentFacts.
Import RegexFacts.

Lemma swap_case_inv c p : swap_case c = p -> c = p \/ c = swap_case p.
Proof.
  unfold swap_case. intros <-.
  destruct ((65 <=? c) && (c <=? 90))%N eqn:U.
  - right. apply andb_true_iff in U. destruct U as [U1 U2].
    apply N.leb_le in U1, U2.
    replace ((65 <=? c + 32) && (c + 32 <=? 90))%N with false
      by (symmetry; apply andb_false_iff; right; apply N.leb_gt; lia).
    replace ((97 <=? c + 32) && (c + 32 <=? 122))%N with true
      by (symmetry; apply andb_true_iff; split; apply N.leb_le; lia).
    lia.
  - destruct ((97 <=? c) && (c <=? 122))%N eqn:W; [|left; reflexivity].
    right. apply andb_true_iff in W. destruct W as [W1 W2].
    apply N.leb_le in W1, W2.
    replace ((65 <=? c - 32) && (c - 32 <=? 90))%N with true
      by (symmetry; apply andb_true_iff; split; apply N.leb_le; lia).
    lia.
Qed.

Section Marked.

(** The marked characters. *)
Variable C : char -> bool.

Definition count (w : jsstring) : nat := length (List.filter C w).

Lemma count_app w1 w2 : count (w1 ++ w2) = count w1 + count w2.
Proof. unfold count. rewrite List.filter_app, length_app. reflexivity. Qed.

Definition marked_both (p : char) : bool := C p && C (swap_case p).

Definition marked_range (r : char * char) : bool :=
  N.eqb (fst r) (snd r) && marked_both (fst r).

(** A number of marked characters that every match of the pattern holds. *)
Fixpoint marks (r : regex) : nat :=
  match r with
  | RChar p => if marked_both p then 1 else 0
  | RClass false ranges => if forallb marked_range ranges then 1 else 0
  | RSeq a b => marks a + marks b
  | RAlt a b => Nat.min (marks a) (marks b)
  | RRep min max _ a =>
      if Nat.eqb min 0 || match max with Some 0 => true | _ => false end then 0
      else marks a
  | RGroup _ a => marks a
  | _ => 0
  end.

Definition reaches (n : nat) (s s' : mstate) : Prop :=
  exists w, rest s = w ++ rest s' /\ pos s' = pos s + length w /\ n <= count w.

Definition carries (n : nat) (m : cont -> cont) : Prop :=
  forall k s z, m k s = Some z -> exists s', reaches n s s' /\ k s' = Some z.

Lemma reach_reaches n s s' : reach n s s' -> reaches 0 s s'.
Proof. intros (w & H1 & H2 & _). exists w. repeat split; auto; lia. Qed.

Lemma reaches_trans n m s1 s2 s3 :
  reaches n s1 s2 -> reaches m s2 s3 -> reaches (n + m) s1 s3.
Proof.
  intros (w1 & H1 & P1 & L1) (w2 & H2 & P2 & L2).
  exists (w1 ++ w2). rewrite H1, H2, P2, P1, length_app, count_app, <- List.app_assoc.
  repeat split; lia.
Qed.

Lemma reaches_weaken n m s s' : m <= n -> reaches n s s' -> reaches m s s'.
Proof. intros Hle (w & H1 & H2 & H3). exists w. repeat split; auto; lia. Qed.

Lemma carries_nothing ic ds r : carries 0 (rmatch ic ds r).
Proof.
  intros k s z H. apply rmatch_advances in H. destruct H as (s' & Hr & H).
  exists s'. split; [eapply reach_reaches, Hr|exact H].
Qed.

Lemma lit_eq_marked ic p c : marked_both p = true -> lit_eq ic p c = true -> C c = true.
Proof.
  unfold marked_both, lit_eq. rewrite andb_true_iff, orb_true_iff. intros [H1 H2] [H|H].
  - apply char_eqb_eq in H. subst. exact H1.
  - apply andb_true_iff in H. destruct H as [_ H]. apply char_eqb_eq in H.
    symmetry in H. apply swap_case_inv in H. destruct H as [->| ->]; assumption.
Qed.

Lemma in_range_marked c r : marked_range r = true -> in_range c r = true -> c = fst r.
Proof.
  unfold marked_range, in_range. rewrite !andb_true_iff.
  intros [E _] [H1 H2]. apply N.eqb_eq in E. apply N.leb_le in H1, H2. lia.
Qed.

Lemma class_has_marked ic ranges c :
  forallb marked_range ranges = true -> class_has ic ranges c = true -> C c = true.
Proof.
  intros Hall. rewrite List.forallb_forall in Hall. unfold class_has.
  rewrite orb_true_iff. intros [H|H].
  - apply List.existsb_exists in H. destruct H as (r & Hr & H).
    specialize (Hall r Hr). rewrite (in_range_marked c r Hall H).
    unfold marked_range, marked_both in Hall. rewrite !andb_true_iff in Hall. apply Hall.
  - apply andb_true_iff in H. destruct H as [_ H].
    apply List.existsb_exists in H. destruct H as (r & Hr & H).
    specialize (Hall r Hr). pose proof (in_range_marked _ r Hall H) as E.
    unfold marked_range, marked_both in Hall. rewrite !andb_true_iff in Hall.
    apply swap_case_inv in E. destruct E as [->| ->]; apply Hall.
Qed.

Lemma one_char_carries ok :
  (forall c, ok c = true -> C c = true) -> carries 1 (one_char ok).
Proof.
  intros Hok k s z. unfold one_char.
  destruct (rest s) as [|c t] eqn:E; [discriminate|].
  destruct (ok c) eqn:Hc; [|discriminate]. intros H.
  exists (step s t). split; [|exact H].
  exists [c]. unfold count. cbn [List.filter]. rewrite (Hok c Hc). cbn.
  repeat split; auto; lia.
Qed.

Lemma rmatch_carries ic ds r : carries (marks r) (rmatch ic ds r).
Proof.
  induction r as [| c | | neg rs | a IHa b IHb | a IHa b IHb
                  | min max greedy a IHa | n a IHa | | ];
    try apply carries_nothing; cbn [marks].
  - destruct (marked_both c) eqn:E; [|apply carries_nothing].
    cbn [rmatch]. apply one_char_carries. intros c'. apply lit_eq_marked, E.
  - destruct neg; [apply carries_nothing|].
    destruct (forallb marked_range rs) eqn:E; [|apply carries_nothing].
    cbn [rmatch]. apply one_char_carries. intros c'. cbn [xorb]. apply class_has_marked, E.
  - intros k s z H. cbn [rmatch] in H. apply IHa in H. destruct H as (s1 & H1 & H).
    apply IHb in H. destruct H as (s2 & H2 & H).
    exists s2. split; [|exact H]. eapply reaches_trans; eauto.
  - intros k s z H. cbn [rmatch] in H. apply or_else_Some in H. destruct H as [H|H].
    + apply IHa in H. destruct H as (s' & Hr & H). exists s'. split; [|exact H].
      eapply reaches_weaken; [|exact Hr]. lia.
    + apply IHb in H. destruct H as (s' & Hr & H). exists s'. split; [|exact H].
      eapply reaches_weaken; [|exact Hr]. lia.
  - destruct (Nat.eqb_spec min 0) as [E|E]; cbn [orb]; [apply carries_nothing|].
    destruct max as [[|mx]|]; try apply carries_nothing;
      (intros k s z H; cbn [rmatch] in H;
       rewrite Nat.add_succ_r in H; cbn [repeat_matcher] in H;
       destruct (Nat.eqb_spec min 0) as [|_]; [contradiction|]; cbn [negb andb] in H;
       apply IHa in H; destruct H as (y & Hy & H);
       apply repeat_matcher_advances_0 in H;
       [|eapply advances_weaken; [|apply rmatch_advances]; lia];
       destruct H as (s' & Hs' & H);
       exists s'; split; [|exact H];
       apply (reaches_weaken (marks a + 0)); [lia|];
       eapply reaches_trans; [|eapply reach_reaches, Hs'];
       destruct Hy as (w & Y1 & Y2 & Y3); exists w; auto).
  - intros k s z H. cbn [rmatch] in H. apply IHa in H. destruct H as (s' & Hr & H).
    exists (set_cap n (firstn (pos s' - pos s) (rest s)) s'). split; [|exact H].
    destruct Hr as (w & R1 & R2 & R3). exists w. auto.
Qed.

Lemma match_at_marks re s i m :
  match_at re s i = Some m -> marks (source re) <= count (matched m).
Proof.
  unfold match_at.
  destruct (rmatch _ _ _ _ _) as [e|] eqn:E; [|discriminate].
  intros [= <-]. apply rmatch_carries in E.
  destruct E as (s' & (w & H1 & H2 & H3) & [= ->]). cbn in *.
  rewrite H2, H1. replace (i + length w - i) with (length w) by lia.
  rewrite List.firstn_app, Nat.sub_diag, List.firstn_all. cbn. rewrite List.app_nil_r. exact H3.
Qed.

Lemma search_marks re s i m :
  search re s i = Some m -> marks (source re) <= count s.
Proof.
  revert i. induction s as [|c s IH]; intros i; cbn [search].
  - destruct (match_at re [] i) as [m'|] eqn:E; [|discriminate].
    intros _. pose proof (match_at_marks _ _ _ _ E) as Hm.
    apply match_at_ok in E. destruct E as (_ & E2 & _).
    symmetry in E2. apply List.app_eq_nil in E2. destruct E2 as [E2 _].
    rewrite E2 in Hm. exact Hm.
  - destruct (match_at re (c :: s) i) as [m'|] eqn:E.
    + intros _. pose proof (match_at_marks _ _ _ _ E) as Hm.
      apply match_at_ok in E. destruct E as (_ & E2 & _).
      rewrite E2, count_app. lia.
    + intros H. apply IH in H. unfold count in *. cbn [List.filter].
      destruct (C c); cbn [length]; lia.
Qed.

(** A pattern that needs a marked character finds nothing in a text
    without one. *)
Lemma unmarked_no_match re s :
  0 < marks (source re) -> forallb (fun c => negb (C c)) s = true -> test re s = false.
Proof.
  intros Hm Hs. unfold test. destruct (search re s 0) as [m|] eqn:E; [|reflexivity].
  apply search_marks in E.
  assert (H0 : count s = 0).
  { unfold count. clear -Hs. induction s as [|c s IH]; [reflexivity|].
    cbn [forallb] in Hs. apply andb_true_iff in Hs. destruct Hs as [Hc Hs].
    cbn [List.filter]. apply negb_true_iff in Hc. rewrite Hc. apply IH, Hs. }
  lia.
Qed.

End Marked.

End ContentFacts.

Module PlainTextFacts.
Import RegexFacts NormalizerFacts LiteralFacts ContentFacts.

Definition is_backslash (c : char) : bool := (c =? 92)%N.

(** The character references [cleanHtml] resolves. *)
Definition entities : list jsstring := [js "&quot;"; js "&amp;"; js "&lt;"; js "&gt;"].

Lemma test_global lit_ s : test (global lit_) s = includes s (js lit_).
Proof.
  rewrite (test_words (global lit_) [js lit_] s (words_lit lit_) eq_refl).
  cbn [existsb]. apply orb_false_r.
Qed.

(** X15: [cleanHtml] returns unchanged a text that holds no backslash and
    none of the four character references it resolves. *)
Theorem cleanHtml_keeps_plain_text (s : jsstring) :
  forallb (fun c => negb (is_backslash c)) s = true ->
  existsb (includes s) entities = false ->
  cleanHtml s = s.
Proof.
  intros Hs He. apply cleanHtml_escape_free. unfold escape_free, escapes.
  cbn [existsb entities] in He. rewrite !orb_false_iff in He.
  destruct He as (Hquot & Hamp & Hlt & Hgt & _).
  cbn [forallb].
  rewrite !(unmarked_no_match is_backslash _ s) by (assumption || (vm_compute; lia)).
  rewrite !test_global, Hquot, Hamp, Hlt, Hgt. reflexivity.
Qed.

Lemma cleanHtml_keeps_plain_text_witness :
  cleanHtml Samples.cdn_url = Samples.cdn_url.
Proof.
  apply cleanHtml_keeps_plain_text; vm_compute; reflexivity.
Defined.

(** The characters the patterns of [decodeUrl] look for: the quotes, the
    opening angle bracket and the backslash. *)
Definition markup_char (c : char) : bool :=
  ((c =? 34) || (c =? 39) || (c =? 60) || (c =? 92))%N.

Definition percent : char := 37%N.

Lemma decode_loop_plain s :
  forallb (fun c => negb (c =? percent)%N) s = true ->
  forall fuel, length s <= fuel -> decode_loop fuel s = Some s.
Proof.
  induction s as [|c t IH]; intros Hs fuel Hf; [destruct fuel; reflexivity|].
  cbn [forallb] in Hs. apply andb_true_iff in Hs. destruct Hs as [Hc Hs].
  destruct fuel as [|fuel]; [cbn in Hf; lia|]. cbn [decode_loop].
  apply negb_true_iff in Hc. unfold percent in Hc. rewrite Hc.
  rewrite (IH Hs fuel) by (cbn in Hf; lia). reflexivity.
Qed.

Lemma decodeURIComponent_plain s :
  forallb (fun c => negb (c =? percent)%N) s = true -> decodeURIComponent s = Some s.
Proof.
  intros H. unfold decodeURIComponent. apply decode_loop_plain; [exact H|apply Nat.le_refl].
Qed.

Lemma forallb_weaken {A} (f g : A -> bool) l :
  (forall a, f a = true -> g a = true) -> forallb f l = true -> forallb g l = true.
Proof.
  intros H. rewrite !List.forallb_forall. intros Hf a Ha. apply H, Hf, Ha.
Qed.

(** X16: [decodeUrl] returns unchanged a string that holds no quote, no
    opening angle bracket, no backslash and no percent sign and that has no
    white space at either end. *)
Theorem decodeUrl_keeps_plain_url (url : jsstring) :
  forallb (fun c => negb (markup_char c || (c =? percent)%N)) url = true ->
  trim url = url ->
  decodeUrl (Str url) = url.
Proof.
  intros Hplain Htrim. destruct url as [|c s]; [reflexivity|].
  assert (Hm : forallb (fun c => negb (markup_char c)) (c :: s) = true).
  { revert Hplain. apply forallb_weaken. intros a. rewrite !negb_true_iff, orb_false_iff. tauto. }
  assert (Hp : forallb (fun c => negb (c =? percent)%N) (c :: s) = true).
  { revert Hplain. apply forallb_weaken. intros a. rewrite !negb_true_iff, orb_false_iff. tauto. }
  assert (Hno : forall re f, 0 < marks markup_char (source re) ->
                  replace re f (c :: s) = c :: s).
  { intros re f Hre. apply replace_no_match, (unmarked_no_match markup_char); assumption. }
  assert (Hstrip : strip_markup (c :: s) = c :: s).
  { unfold strip_markup, replace_with. cbv zeta. rewrite !Hno by (vm_compute; lia). reflexivity. }
  rewrite (decodeUrl_decoded c s (c :: s)).
  - unfold replace_with. rewrite !Hno by (vm_compute; lia). exact Htrim.
  - rewrite Hstrip. unfold replace_with. rewrite Hno by (vm_compute; lia).
    apply decodeURIComponent_plain, Hp.
Qed.

Lemma decodeUrl_keeps_plain_url_witness :
  decodeUrl (Str Samples.cdn_url) = Samples.cdn_url.
Proof.
  apply decodeUrl_keeps_plain_url; vm_compute; reflexivity.
Defined.

(** [trim] *)
Definition clean_head (s : jsstring) : Prop :=
  match s with
  | [] => True
  | c :: _ => is_space c = false
  end.

Lemma trimStart_clean_head s : clean_head (trimStart s).
Proof.
  induction s as [|c s IH]; cbn [trimStart]; [exact I|].
  destruct (is_space c) eqn:E; [exact IH|exact E].
Qed.

Lemma trimStart_id s : clean_head s -> trimStart s = s.
Proof. destruct s as [|c s]; cbn; [reflexivity|]. intros ->. reflexivity. Qed.

Lemma trimEnd_cons c s :
  trimEnd (c :: s) =
  match trimEnd s with
  | [] => if is_space c then [] else [c]
  | t' => c :: t'
  end.
Proof. reflexivity. Qed.

Lemma trimEnd_clean_head s : clean_head s -> clean_head (trimEnd s).
Proof.
  destruct s as [|c s]; [auto|]. rewrite trimEnd_cons. cbn [clean_head].
  intros Hc. destruct (trimEnd s); [rewrite Hc|]; exact Hc.
Qed.

Lemma trimEnd_idempotent s : trimEnd (trimEnd s) = trimEnd s.
Proof.
  induction s as [|c s IH]; [reflexivity|]. rewrite trimEnd_cons.
  destruct (trimEnd s) as [|x r] eqn:E.
  - destruct (is_space c) eqn:Ec; [reflexivity|]. rewrite trimEnd_cons. cbn [trimEnd].
    rewrite Ec. reflexivity.
  - rewrite trimEnd_cons, IH. reflexivity.
Qed.

Lemma trim_idempotent s : trim (trim s) = trim s.
Proof.
  unfold trim. rewrite (trimStart_id (trimEnd (trimStart s))).
  - apply trimEnd_idempotent.
  - apply trimEnd_clean_head, trimStart_clean_head.
Qed.

(** X17: the result of [decodeUrl] is trimmed, on the path through the
    [try] block and on the one through [catch]: trimming it again changes
    nothing and it does not start with white space; and it is the empty
    string for whatever is not a non-empty string. *)
Theorem decodeUrl_result_is_trimmed (v : value) :
  trim (decodeUrl v) = decodeUrl v /\
  clean_head (decodeUrl v) /\
  ((forall c s, v <> Str (c :: s)) -> decodeUrl v = []).
Proof.
  assert (H : exists t, decodeUrl v = trim t).
  { destruct v as [[|c s]| | | | |]; try (exists []; reflexivity).
    destruct (decodeURIComponent (replace_with a_backslash [] (strip_markup (c :: s))))
      as [url|] eqn:E.
    - rewrite (decodeUrl_decoded c s url E). eauto.
    - rewrite (decodeUrl_catch c s E). unfold basic_cleanup. eauto. }
  split; [|split; [|apply decodeUrl_not_a_string]]; destruct H as (t & ->).
  - apply trim_idempotent.
  - apply trimEnd_clean_head, trimStart_clean_head.
Qed.

End PlainTextFacts.

Module EntityFacts.
Import RegexFacts NormalizerFacts LiteralFacts ContentFacts PlainTextFacts.

(** *** Substrings across a seam *)





(** *** A global replacement of a word by a character *)






Section Replaced.

Variables (h : char) (r : jsstring) (c : char).

(** The character put in is not in the tail of the word taken out. *)
Hypothesis fresh : existsb (char_eqb c) r = false.





End Replaced.





(** Each of the three conditions of the theorem below is needed: a
    reference to an ampersand that starts the reference [&quot;], and four
    backslashes in a row, take two passes (as does [&amp;amp;], see
    [cleanHtml_not_idempotent]). *)
Lemma nested_escapes_take_two_passes :
  cleanHtml (js "&amp;quot;") = js "&quot;" /\
  cleanHtml (cleanHtml (js "&amp;quot;")) = [dquote] /\
  cleanHtml (js "\\\\") = js "\\" /\
  cleanHtml (cleanHtml (js "\\\\")) = js "\".
Proof. repeat split; vm_compute; reflexivity. Qed.



End EntityFacts.

Module StructuredFacts.
Import RegexFacts ValidatorFacts PipelineFacts.

(** [s] is a string inside [obj]: an element of an array or the value of
    a member, at any depth. *)
Inductive occurs (s : jsstring) : json -> Prop :=
| occurs_element elements :
    List.In (JString s) elements -> occurs s (JArray elements)
| occurs_in_element elements v :
    List.In v elements -> occurs s v -> occurs s (JArray elements)
| occurs_member members k :
    List.In (k, JString s) members -> occurs s (JObject members)
| occurs_in_member members k v :
    List.In (k, v) members -> occurs s v -> occurs s (JObject members).

Section WithLibs.

Variable L : Libs.

(** The room on the call stack that the walk of a value takes: the frame
    of the call and, under it, the most that one of the values of its loop
    needs: a string what the Validator takes, an array, an object and null
    what their own walk takes. *)
Fixpoint frames (obj : json) : nat :=
  let under (value : json) : nat :=
    match value with
    | JString s => validator_frames L s
    | JArray _ | JObject _ | JNull => frames value
    | JBoolean _ | JNumber => 0
    end in
  match obj with
  | JArray elements => S (list_max (List.map under elements))
  | JObject members => S (list_max (List.map (fun kv => under (snd kv)) members))
  | _ => 1
  end.

(** What the loop needs under its frame for one value. *)
Definition under (value : json) : nat :=
  match value with
  | JString s => validator_frames L s
  | JArray _ | JObject _ | JNull => frames value
  | JBoolean _ | JNumber => 0
  end.

Lemma frames_array elements :
  frames (JArray elements) = S (list_max (List.map under elements)).
Proof. reflexivity. Qed.

Lemma frames_object members :
  frames (JObject members) = S (list_max (List.map under (List.map snd members))).
Proof. rewrite List.map_map. reflexivity. Qed.

Lemma frames_positive obj : 0 < frames obj.
Proof. destruct obj; cbn [frames]; lia. Qed.

(** [u] is a valid string that [value] is or holds. *)
Definition holds (u : jsstring) (value : json) : Prop :=
  (value = JString u \/ occurs u value) /\ isValidVideoUrl L (Str u) = true.

Lemma occurs_array u elements :
  occurs u (JArray elements) <->
  exists v, List.In v elements /\ (v = JString u \/ occurs u v).
Proof.
  split.
  - intros H. inversion H; subst; eauto.
  - intros (v & Hv & [->|Ho]); [apply occurs_element, Hv|].
    apply (occurs_in_element u elements v Hv Ho).
Qed.

Lemma occurs_object u members :
  occurs u (JObject members) <->
  exists v, List.In v (List.map snd members) /\ (v = JString u \/ occurs u v).
Proof.
  split.
  - intros H. inversion H as [| |ms k Hin|ms k v Hin Ho]; subst.
    + exists (JString u). split; [|left; reflexivity].
      apply (List.in_map snd members (k, JString u)), Hin.
    + exists v. split; [|right; exact Ho]. apply (List.in_map snd members (k, v)), Hin.
  - intros (v & Hv & Hu). apply List.in_map_iff in Hv. destruct Hv as ([k v'] & E & Hin).
    cbn [snd] in E. subst v'. destruct Hu as [->|Ho].
    + apply (occurs_member u members k Hin).
    + apply (occurs_in_member u members k v Hin Ho).
Qed.

Lemma fold_visit_overflown walk room l :
  fold_left (visit_value L walk room) l None = None.
Proof. induction l as [|v l IH]; [reflexivity|exact IH]. Qed.

Section Room.

Variable room : nat.

(** What is known of the walk one frame down. *)
Hypothesis walk_fits : forall v,
  frames v <= room ->
  exists urls, findVideoUrlsInObject L room v = Some urls /\
               forall u, List.In u urls <-> occurs u v /\ isValidVideoUrl L (Str u) = true.
Hypothesis walk_overflows : forall v,
  room < frames v -> findVideoUrlsInObject L room v = None.

(** A turn of the loop in a frame that has [room] under it. *)
Definition loop_turn : option (list jsstring) -> json -> option (list jsstring) :=
  visit_value L (findVideoUrlsInObject L room) room.

Lemma visit_fits urls v :
  under v <= room ->
  exists more, loop_turn (Some urls) v = Some (urls ++ more) /\
               forall u, List.In u more <-> holds u v.
Proof.
  intros Hv. unfold holds.
  assert (Hscalar : forall w, (forall u, ~ occurs u w) -> (forall u, w <> JString u) ->
            loop_turn (Some urls) w = Some urls ->
            exists more, loop_turn (Some urls) w = Some (urls ++ more) /\
              forall u, List.In u more <->
                (w = JString u \/ occurs u w) /\ isValidVideoUrl L (Str u) = true).
  { intros w Hno Hns E. exists []. rewrite E, List.app_nil_r. split; [reflexivity|].
    intros u. split; [intros []|]. intros [[E'|Ho] _]; [apply (Hns u E')|apply (Hno u Ho)]. }
  assert (Hwalk : forall w, (forall u, w <> JString u) -> under w = frames w ->
            under w <= room ->
            loop_turn (Some urls) w =
              option_map (app urls) (findVideoUrlsInObject L room w) ->
            exists more, loop_turn (Some urls) w = Some (urls ++ more) /\
              forall u, List.In u more <->
                (w = JString u \/ occurs u w) /\ isValidVideoUrl L (Str u) = true).
  { intros w Hns Eu Hw E. rewrite Eu in Hw. destruct (walk_fits w Hw) as (more & Em & Hm).
    exists more. rewrite E, Em. split; [reflexivity|]. intros u. rewrite Hm.
    split; [tauto|]. intros [[E'|Ho] Hval]; [destruct (Hns u E')|tauto]. }
  destruct v as [ | b | | s | elements | members].
  - apply Hwalk; [discriminate|reflexivity|exact Hv|reflexivity].
  - apply Hscalar; [intros u Ho; inversion Ho|discriminate|reflexivity].
  - apply Hscalar; [intros u Ho; inversion Ho|discriminate|reflexivity].
  - cbn [under] in Hv. unfold loop_turn. cbn [visit_value].
    apply Nat.leb_le in Hv. rewrite Hv.
    destruct (isValidVideoUrl L (Str s)) eqn:Es.
    + exists [s]. split; [reflexivity|]. intros u. split.
      * intros [<-|[]]. auto.
      * intros [[[= ->]|Ho] _]; [left; reflexivity|inversion Ho].
    + exists []. rewrite List.app_nil_r. split; [reflexivity|]. intros u.
      split; [intros []|]. intros [[[= ->]|Ho] Hval]; [congruence|inversion Ho].
  - apply Hwalk; [discriminate|reflexivity|exact Hv|reflexivity].
  - apply Hwalk; [discriminate|reflexivity|exact Hv|reflexivity].
Qed.

Lemma visit_overflows urls v : room < under v -> loop_turn urls v = None.
Proof.
  intros Hv. unfold loop_turn. destruct urls as [urls|]; [|reflexivity].
  destruct v as [ | b | | s | elements | members]; cbn [under] in Hv; try lia;
    cbn [visit_value]; try (rewrite (walk_overflows _ Hv); reflexivity).
  apply Nat.leb_gt in Hv. rewrite Hv. reflexivity.
Qed.

Lemma fold_visit_fits l :
  List.Forall (fun v => under v <= room) l ->
  forall urls,
    exists more, fold_left loop_turn l (Some urls) = Some (urls ++ more) /\
                 forall u, List.In u more <-> exists v, List.In v l /\ holds u v.
Proof.
  induction 1 as [|v l Hv Hl IH]; intros urls.
  - exists []. rewrite List.app_nil_r. split; [reflexivity|].
    intros u. split; [intros []|intros (v & [] & _)].
  - cbn [fold_left]. destruct (visit_fits urls v Hv) as (first & E1 & H1).
    rewrite E1. destruct (IH (urls ++ first)) as (more & E2 & H2).
    exists (first ++ more). rewrite E2, List.app_assoc. split; [reflexivity|].
    intros u. rewrite List.in_app_iff, H1, H2. split.
    + intros [Hu|(w & Hw & Hu)]; [exists v; split; [left; reflexivity|exact Hu]|].
      exists w. split; [right; exact Hw|exact Hu].
    + intros (w & [<-|Hw] & Hu); [left; exact Hu|right; eauto].
Qed.

Lemma fold_visit_overflows l :
  List.Exists (fun v => room < under v) l ->
  forall urls, fold_left loop_turn l urls = None.
Proof.
  induction 1 as [v l Hv|v l Hl IH]; intros urls; cbn [fold_left].
  - rewrite (visit_overflows urls v Hv). apply fold_visit_overflown.
  - apply IH.
Qed.

Lemma list_max_fits l : list_max (List.map under l) <= room ->
  List.Forall (fun v => under v <= room) l.
Proof.
  intros H. apply List.list_max_le in H. apply List.Forall_forall. intros v Hv.
  rewrite List.Forall_forall in H. apply H, List.in_map, Hv.
Qed.

Lemma list_max_overflows l : room < list_max (List.map under l) ->
  List.Exists (fun v => room < under v) l.
Proof.
  induction l as [|v l IH]; cbn [List.map list_max fold_right]; [lia|].
  intros H. destruct (Nat.lt_ge_cases room (under v)) as [Hv|Hv].
  - left. exact Hv.
  - right. apply IH. unfold list_max. lia.
Qed.

End Room.

(** The walk of a value that fits the stack returns the valid strings the
    value holds, and no other; the walk of one that does not fit ends in
    a RangeError. *)
Lemma findVideoUrlsInObject_spec stack :
  forall obj,
    (frames obj <= stack ->
     exists urls, findVideoUrlsInObject L stack obj = Some urls /\
                  forall u, List.In u urls <->
                            occurs u obj /\ isValidVideoUrl L (Str u) = true) /\
    (stack < frames obj -> findVideoUrlsInObject L stack obj = None).
Proof.
  induction stack as [|room IH]; intros obj.
  { split; [|reflexivity]. pose proof (frames_positive obj). lia. }
  assert (Hfits : forall v, frames v <= room ->
            exists urls, findVideoUrlsInObject L room v = Some urls /\
              forall u, List.In u urls <-> occurs u v /\ isValidVideoUrl L (Str u) = true)
    by (intros v; apply (IH v)).
  assert (Hover : forall v, room < frames v -> findVideoUrlsInObject L room v = None)
    by (intros v; apply (IH v)).
  assert (Hscalar : forall w, frames w = 1 -> (forall u, ~ occurs u w) ->
            findVideoUrlsInObject L (S room) w = Some [] ->
            (frames w <= S room ->
             exists urls, findVideoUrlsInObject L (S room) w = Some urls /\
               forall u, List.In u urls <-> occurs u w /\ isValidVideoUrl L (Str u) = true) /\
            (S room < frames w -> findVideoUrlsInObject L (S room) w = None)).
  { intros w Hone Hno E. rewrite Hone. split; [|lia]. intros _. exists [].
    split; [exact E|]. intros u. split; [intros []|]. intros [Ho _]. apply (Hno u Ho). }
  destruct obj as [ | b | | s | elements | members];
    try (apply Hscalar; [reflexivity|intros u Ho; inversion Ho|reflexivity]).
  - rewrite frames_array. cbn [findVideoUrlsInObject]. split; intros Hf.
    + apply le_S_n, (list_max_fits room) in Hf.
      destruct (fold_visit_fits room Hfits elements Hf []) as (urls & E & Hu).
      exists urls. split; [exact E|]. intros u. rewrite Hu, occurs_array.
      unfold holds. split.
      * intros (v & Hv & Ho & Hval). eauto.
      * intros [(v & Hv & Ho) Hval]. eauto.
    + apply (fold_visit_overflows room Hover). apply list_max_overflows. lia.
  - rewrite frames_object. cbn [findVideoUrlsInObject]. split; intros Hf.
    + apply le_S_n, (list_max_fits room) in Hf.
      destruct (fold_visit_fits room Hfits (List.map snd members) Hf []) as (urls & E & Hu).
      exists urls. split; [exact E|]. intros u. rewrite Hu, occurs_object.
      unfold holds. split.
      * intros (v & Hv & Ho & Hval). eauto.
      * intros [(v & Hv & Ho) Hval]. eauto.
    + apply (fold_visit_overflows room Hover). apply list_max_overflows. lia.
Qed.

(** X18: when the value fits the call stack, [findVideoUrlsInObject]
    returns exactly the strings that occur inside it, as an element of an
    array or as the value of a member at any depth, and that the Validator
    accepts; when it does not fit, the walk ends in a RangeError, and
    [extractFromStructuredData], which catches it, takes no url from that
    block. *)
Theorem findVideoUrlsInObject_finds_valid_strings (stack : nat) (obj : json) :
  (frames obj <= stack ->
   exists urls, findVideoUrlsInObject L stack obj = Some urls /\
                forall u, List.In u urls <->
                          occurs u obj /\ isValidVideoUrl L (Str u) = true) /\
  (stack < frames obj -> findVideoUrlsInObject L stack obj = None) /\
  (forall m text,
     get_cap 1 (groups m) = Some text -> JSON_parse L text = Some obj ->
     call_stack L < frames obj -> structured_urls L m = []).
Proof.
  destruct (findVideoUrlsInObject_spec stack obj) as [Hfits Hover].
  split; [exact Hfits|]. split; [exact Hover|].
  intros m text Hcap Hparse Hdeep. unfold structured_urls. rewrite Hcap, Hparse.
  destruct (findVideoUrlsInObject_spec (call_stack L) obj) as [_ Hnone].
  rewrite (Hnone Hdeep). reflexivity.
Qed.

End WithLibs.

End StructuredFacts.

Module ProxyFacts.
Import RegexFacts ValidatorFacts Proxy.

Lemma includes_inner s p q r : includes s (p ++ q ++ r) = true -> includes s q = true.
Proof.
  rewrite !includes_spec. intros (pre & post & ->). exists (pre ++ p), (r ++ post).
  rewrite <- !List.app_assoc. reflexivity.
Qed.

(** X19: the proxy route refuses no url that the Validator accepts: it
    goes on to fetch it, with a [Range] header that is never empty. *)
Theorem proxy_fetches_validated_urls (L : Libs) (u : jsstring) (range : option jsstring) :
  isValidVideoUrl L (Str u) = true ->
  proxy_video (text u) range = fetch (text u) (range_header range) /\
  range_header range <> [].
Proof.
  intros Hv. rewrite isValidVideoUrl_Str, !andb_true_iff in Hv.
  destruct Hv as (((((Hlen & _) & _) & _) & Hind) & _).
  destruct Hind as (((((_ & Hcdn) & _) & _) & _) & _).
  apply Nat.leb_le in Hlen.
  split.
  - destruct u as [|c s]; [cbn in Hlen; lia|]. cbn [proxy_video].
    rewrite (includes_inner (c :: s) (js ".fna.") (js "fbcdn.net") [] Hcdn). reflexivity.
  - destruct range as [[|c s]|]; discriminate.
Qed.

Lemma proxy_fetches_validated_urls_witness :
  proxy_video (text Samples.cdn_url) None = fetch (text Samples.cdn_url) (js "bytes=0-") /\
  range_header None <> [].
Proof.
  apply (proxy_fetches_validated_urls Samples.plain_libs Samples.cdn_url None).
  vm_compute. reflexivity.
Defined.

End ProxyFacts.

Module ClientFacts.
Import RegexFacts Client.

Lemma trimStart_length s : length (trimStart s) <= length s.
Proof.
  induction s as [|c s IH]; cbn [trimStart length]; [lia|].
  destruct (is_space c); cbn [length]; lia.
Qed.

Lemma trimEnd_length s : length (trimEnd s) <= length s.
Proof.
  induction s as [|c s IH]; [cbn; lia|]. rewrite PlainTextFacts.trimEnd_cons.
  destruct (trimEnd s); [destruct (is_space c)|]; cbn [length] in *; lia.
Qed.

Lemma trim_length s : length (trim s) <= length s.
Proof.
  unfold trim. pose proof (trimEnd_length (trimStart s)). pose proof (trimStart_length s). lia.
Qed.

(** X20: the form posts the trimmed text of the textarea, and only when it
    has 1000 characters or more; so the route never answers what the form
    posts with its first or its second refusal.  An empty text and a
    short one are reported by the form itself. *)
Theorem posted_source_passes_the_length_checks (L : Libs) (value : jsstring) :
  match submit value with
  | showError nothing_pasted => trim value = []
  | showError seems_too_short => 0 < length (trim value) < 1000
  | extractVideoLinks sourceCode =>
      sourceCode = trim value /\ 1000 <= length sourceCode <= length value /\
      Server.extract_videos_route L (Str sourceCode) <> Server.status_400 Server.not_a_string /\
      Server.extract_videos_route L (Str sourceCode) <> Server.status_400 Server.too_short
  end.
Proof.
  unfold submit. cbv zeta. pose proof (trim_length value) as Hlen.
  destruct (trim value) as [|c s] eqn:E; [reflexivity|].
  destruct (Nat.ltb_spec (length (c :: s)) 1000) as [Hs|Hs].
  - cbn [length] in *. lia.
  - split; [reflexivity|]. split; [lia|].
    apply RouteFacts.route_past_length_checks. exact Hs.
Qed.

End ClientFacts.

Module SourcesFacts.
Import RegexFacts ValidatorFacts PipelineFacts.

Section WithLibs.

Variable L : Libs.

Lemma push_valid_keeps urls :
  forall acc n v, List.In v acc -> List.In v (fst (push_valid L urls acc n)).
Proof.
  induction urls as [|u urls IH]; intros acc n v Hv; cbn [push_valid]; [exact Hv|].
  destruct (isValidVideoUrl L (Str u)); [|apply IH, Hv].
  unfold bind. destruct (createVideoObject L u n) as [w n'].
  apply IH. apply List.in_app_iff. left. exact Hv.
Qed.

Lemma push_valid_pushes urls u :
  List.In u urls -> isValidVideoUrl L (Str u) = true ->
  forall acc n, List.In u (List.map url (fst (push_valid L urls acc n))).
Proof.
  intros Hu Hv. induction urls as [|u' urls IH]; [destruct Hu|].
  intros acc n. cbn [push_valid]. destruct Hu as [->|Hu].
  - rewrite Hv. unfold bind. pose proof (createVideoObject_url L u n) as Hw.
    destruct (createVideoObject L u n) as [w n']. cbn [fst] in Hw.
    rewrite <- Hw. apply List.in_map, push_valid_keeps.
    apply List.in_app_iff. right. left. reflexivity.
  - destruct (isValidVideoUrl L (Str u')); [|apply IH, Hu].
    unfold bind. destruct (createVideoObject L u' n) as [w n']. apply IH, Hu.
Qed.

Lemma push_valid_keeps_url urls u acc n :
  List.In u (List.map url acc) -> List.In u (List.map url (fst (push_valid L urls acc n))).
Proof.
  intros H. apply List.in_map_iff in H. destruct H as (v & <- & Hv).
  apply List.in_map, push_valid_keeps, Hv.
Qed.

(** What [merge] is given, the state knows afterwards. *)
Lemma merge_knows extract st u :
  tight st -> List.In u (List.map url (fst (extract (calls st)))) ->
  knows u (merge extract st).
Proof.
  intros Ht Hu. unfold merge. destruct (extract (calls st)) as [others n].
  cbn [fst] in Hu. apply List.in_map_iff in Hu. destruct Hu as (v & <- & Hv).
  assert (Hadd : forall a w, tight a -> tight (add_if_new a w)).
  { intros a w Ha. unfold add_if_new. destruct (has (foundUrls a) (url w)); [exact Ha|].
    intros x. cbn [videos foundUrls].
    rewrite List.map_app, List.in_app_iff, elem_of_union, elem_of_singleton.
    intros [->|Hx]; [right; left; reflexivity|left; apply Ha, Hx]. }
  apply (fold_left_reaches tight (knows (url v)) add_if_new others v Hv).
  - intros a w. apply Hadd.
  - intros a Ha. unfold add_if_new, has, knows. case_bool_decide as Hin.
    + apply Ha, Hin.
    + cbn [videos]. rewrite List.map_app. apply List.in_app_iff. right. left. reflexivity.
  - intros a w _. apply knows_grows. intros x Hx. unfold add_if_new.
    destruct (has (foundUrls a) (url w)); [exact Hx|]. cbn [videos].
    apply List.in_app_iff. left. exact Hx.
  - exact Ht.
Qed.

Lemma collected_merges html :
  collected L html =
  merge (extractFromStructuredData L (cleanHtml html))
    (merge (extractWithCheerio L (cleanHtml html)) (scanned L (cleanHtml html))).
Proof. reflexivity. Qed.

Lemma collected_in_result html u :
  knows u (collected L html) -> List.In u (List.map url (extractVideos L html)).
Proof.
  unfold knows. intros Hk. apply in_map_url in Hk. destruct Hk as (v & Hin & <-).
  apply (List.in_map url _ v). apply (proj2 (extractVideos_In L html v)), Hin.
Qed.

Lemma tight_scanned html : tight (scanned L html).
Proof. apply steady_scanned. Qed.

(** The urls that the document loaded by cheerio offers: the [src] of the
    [video] elements, of their [source] elements, and the candidates of
    the scripts. *)
Definition dom_urls (doc : cheerio_doc) : list jsstring :=
  present (video_src doc) ++ present (video_source_src doc) ++
  List.flat_map script_candidates (present (script_html doc)).

Lemma extractWithCheerio_pushes html doc u n :
  cheerio_load L html = Some doc ->
  List.In u (dom_urls doc) -> isValidVideoUrl L (Str u) = true ->
  List.In u (List.map url (fst (extractWithCheerio L html n))).
Proof.
  intros Hdoc Hu Hv. unfold extractWithCheerio. rewrite Hdoc. unfold bind.
  destruct (push_valid L (present (video_src doc)) [] n) as [v1 n1] eqn:E1.
  destruct (push_valid L (present (video_source_src doc)) v1 n1) as [v2 n2] eqn:E2.
  unfold dom_urls in Hu. rewrite !List.in_app_iff in Hu. destruct Hu as [Hu|[Hu|Hu]].
  - apply push_valid_keeps_url.
    change v2 with (fst (v2, n2)). rewrite <- E2. apply push_valid_keeps_url.
    change v1 with (fst (v1, n1)). rewrite <- E1. apply push_valid_pushes; assumption.
  - apply push_valid_keeps_url.
    change v2 with (fst (v2, n2)). rewrite <- E2. apply push_valid_pushes; assumption.
  - apply push_valid_pushes; assumption.
Qed.

(** X21: a url that the document loaded by cheerio offers, in a [video]
    element, in a [source] element inside one or as a candidate of a
    script that mentions video, and that the Validator accepts, is in the
    result of [extractVideos]. *)
Theorem dom_urls_are_returned (html : jsstring) (doc : cheerio_doc) (u : jsstring) :
  cheerio_load L (cleanHtml html) = Some doc ->
  List.In u (dom_urls doc) ->
  isValidVideoUrl L (Str u) = true ->
  List.In u (List.map url (extractVideos L html)).
Proof.
  intros Hdoc Hu Hv.
  assert (Hk : knows u (merge (extractWithCheerio L (cleanHtml html))
                          (scanned L (cleanHtml html)))).
  { apply merge_knows; [apply tight_scanned|].
    apply (extractWithCheerio_pushes _ doc); assumption. }
  apply (knows_grows u _ (collected L html)) in Hk.
  - apply collected_in_result, Hk.
  - rewrite collected_merges.
    apply (steady_merge L _ (extractFromStructuredData L (cleanHtml html))).
    + intros n v. apply extractFromStructuredData_made.
    + eapply steady_self, steady_merge; [|apply steady_scanned].
      intros n v. apply extractWithCheerio_made.
Qed.

(** X22: a string that occurs inside a JSON-LD block of the cleaned page,
    as parsed by [JSON.parse], and that the Validator accepts is in the
    result of [extractVideos], provided the walk of the parsed value fits
    the call stack. *)
Theorem structured_data_urls_are_returned (html : jsstring) (m : rmatch_result)
    (text : jsstring) (obj : json) (u : jsstring) :
  List.In m (exec_all jsonLdRegex (cleanHtml html)) ->
  get_cap 1 (groups m) = Some text ->
  JSON_parse L text = Some obj ->
  StructuredFacts.frames L obj <= call_stack L ->
  StructuredFacts.occurs u obj ->
  isValidVideoUrl L (Str u) = true ->
  List.In u (List.map url (extractVideos L html)).
Proof.
  intros Hm Hcap Hparse Hfits Ho Hv.
  assert (Hk : knows u (collected L html)).
  { rewrite collected_merges. apply merge_knows.
    - eapply steady_merge; [|apply steady_scanned].
      intros n v. apply extractWithCheerio_made.
    - unfold extractFromStructuredData. apply push_valid_pushes; [|exact Hv].
      apply List.in_flat_map. exists m. split; [exact Hm|].
      unfold structured_urls. rewrite Hcap, Hparse.
      destruct (proj1 (StructuredFacts.findVideoUrlsInObject_spec L (call_stack L) obj) Hfits)
        as (urls & E & Hu).
      rewrite E. apply Hu. split; assumption. }
  apply collected_in_result, Hk.
Qed.

End WithLibs.

(** Libraries for the examples: cheerio finds one [video] element, and
    [JSON.parse] returns an object with one member, whose walk takes four
    frames of the thousand. *)
Definition dom_libs : Libs :=
  {| URL_parses := fun _ => true;
     cheerio_load := fun _ => Some {| video_src := [Some Samples.cdn_url];
                                      video_source_src := [];
                                      script_html := [] |};
     JSON_parse := fun _ => Some (JObject [(js "contentUrl", JString Samples.cdn_url)]);
     Math_random := fun _ => 0%Q;
     call_stack := 1000;
     validator_frames := fun _ => 3 |}.

Lemma dom_urls_are_returned_witness :
  List.In Samples.cdn_url (List.map url (extractVideos dom_libs (js "<html></html>"))).
Proof.
  apply (dom_urls_are_returned dom_libs (js "<html></html>")
           {| video_src := [Some Samples.cdn_url]; video_source_src := [];
              script_html := [] |}).
  - reflexivity.
  - left. reflexivity.
  - vm_compute. reflexivity.
Defined.

Definition json_ld_page : jsstring :=
  js "<html><script type=" ++ [dquote] ++ js "application/ld+json" ++ [dquote] ++
  js ">{}</script></html>".

Definition json_ld_match : rmatch_result :=
  hd {| index := 0; matched := []; groups := []; endIndex := 0; after := [] |}
    (exec_all jsonLdRegex (cleanHtml json_ld_page)).

Lemma structured_data_urls_are_returned_witness :
  List.In Samples.cdn_url (List.map url (extractVideos dom_libs json_ld_page)).
Proof.
  apply (structured_data_urls_are_returned dom_libs json_ld_page json_ld_match (js "{}")
           (JObject [(js "contentUrl", JString Samples.cdn_url)])).
  - vm_compute. left. reflexivity.
  - vm_compute. reflexivity.
  - reflexivity.
  - vm_compute. lia.
  - apply (StructuredFacts.occurs_member _ _ (js "contentUrl")). left. reflexivity.
  - vm_compute. reflexivity.
Defined.

End SourcesFacts.

Module LengthFacts.
Import RegexFacts NormalizerFacts.

(** A replacement by at most one character for every match of a pattern
    that matches no empty string does not lengthen the text. *)
Lemma replace_loop_length re f :
  nullable (source re) = false -> (forall m, length (f m) <= 1) ->
  forall fuel s i, length (replace_loop re f fuel s i) <= length s.
Proof.
  intros Hn Hf fuel. induction fuel as [|fuel IH]; intros s i; cbn [replace_loop]; [lia|].
  destruct (search re s i) as [m|] eqn:E; [|lia].
  rewrite (never_empty re s i m Hn E).
  apply search_ok in E. destruct E as (before & Hs & Hi & He & Hl).
  unfold least in Hl. rewrite Hn in Hl.
  rewrite !length_app, List.length_firstn.
  specialize (IH (after m) (endIndex m)). specialize (Hf m).
  assert (Hlen : length s = length before + length (matched m) + length (after m))
    by (rewrite Hs, !length_app; lia).
  lia.
Qed.

Lemma replace_length re f s :
  nullable (source re) = false -> (forall m, length (f m) <= 1) ->
  length (replace re f s) <= length s.
Proof. intros Hn Hf. apply replace_loop_length; assumption. Qed.

Lemma replace_with_length re by_ s :
  nullable (source re) = false -> length by_ <= 1 ->
  length (replace_with re by_ s) <= length s.
Proof. intros Hn Hb. apply replace_length; [exact Hn|intros _; exact Hb]. Qed.

Ltac shorter :=
  repeat first
    [ apply Nat.le_refl
    | eapply Nat.le_trans;
      [apply replace_with_length; [reflexivity|cbn; lia]|] ].

Lemma cleanHtml_length html : length (cleanHtml html) <= length html.
Proof.
  unfold cleanHtml. cbv zeta. shorter.
  apply replace_length; [reflexivity|].
  intros m. destruct (get_cap 1 (groups m)); cbn; lia.
Qed.

Lemma strip_markup_length url : length (strip_markup url) <= length url.
Proof. unfold strip_markup. cbv zeta. shorter. Qed.

Lemma basic_cleanup_length url : length (basic_cleanup url) <= length url.
Proof.
  unfold basic_cleanup. eapply Nat.le_trans; [apply ClientFacts.trim_length|]. shorter.
Qed.

Lemma hex_octet_length s b t : hex_octet s = Some (b, t) -> length s = 3 + length t.
Proof.
  unfold hex_octet. destruct s as [|p [|x [|y t']]]; try discriminate.
  destruct (p =? 37)%N; [|discriminate].
  destruct (hex_val x), (hex_val y); try discriminate.
  intros [= _ <-]. reflexivity.
Qed.

Lemma continuation_length n : forall acc s v t,
  continuation n acc s = Some (v, t) -> length t <= length s.
Proof.
  induction n as [|n IH]; intros acc s v t; cbn [continuation].
  - intros [= _ <-]. lia.
  - destruct (hex_octet s) as [[b t']|] eqn:E; [|discriminate].
    apply hex_octet_length in E.
    destruct ((128 <=? b) && (b <=? 191))%N; [|discriminate].
    intros H. apply IH in H. lia.
Qed.

Lemma utf16_length v : length (utf16 v) <= 2.
Proof. unfold utf16. destruct (v <? 65536)%N; cbn; lia. Qed.

Lemma decode_escape_length s u t :
  decode_escape s = Some (u, t) -> length u + length t <= length s /\ length t < length s.
Proof.
  unfold decode_escape. destruct (hex_octet s) as [[b t0]|] eqn:E; [|discriminate].
  apply hex_octet_length in E.
  assert (Hcont : forall n acc v t',
            continuation n acc t0 = Some (v, t') ->
            length (utf16 v) + length t' <= length s /\ length t' < length s).
  { intros n acc v t' H. apply continuation_length in H.
    pose proof (utf16_length v). lia. }
  destruct (b <? 128)%N; [intros [= <- <-]; cbn; lia|].
  destruct (b <? 192)%N; [discriminate|].
  destruct (b <? 224)%N.
  { destruct (continuation 1 _ t0) as [[v t']|] eqn:C; [|discriminate].
    destruct (128 <=? v)%N; [|discriminate]. intros [= <- <-]. eapply Hcont, C. }
  destruct (b <? 240)%N.
  { destruct (continuation 2 _ t0) as [[v t']|] eqn:C; [|discriminate].
    destruct (_ && _); [|discriminate]. intros [= <- <-]. eapply Hcont, C. }
  destruct (b <? 248)%N; [|discriminate].
  destruct (continuation 3 _ t0) as [[v t']|] eqn:C; [|discriminate].
  destruct (_ && _); [|discriminate]. intros [= <- <-]. eapply Hcont, C.
Qed.

Lemma decode_loop_length fuel : forall s r,
  decode_loop fuel s = Some r -> length r <= length s.
Proof.
  induction fuel as [|fuel IH]; intros s r.
  - destruct s; cbn [decode_loop]; [intros [= <-]; lia|discriminate].
  - destruct s as [|c t]; cbn [decode_loop]; [intros [= <-]; lia|].
    destruct (c =? 37)%N.
    + destruct (decode_escape (c :: t)) as [[u t']|] eqn:E; [|discriminate].
      apply decode_escape_length in E.
      destruct (decode_loop fuel t') as [r'|] eqn:D; [|discriminate].
      intros [= <-]. apply IH in D. rewrite length_app. lia.
    + destruct (decode_loop fuel t) as [r'|] eqn:D; [|discriminate].
      intros [= <-]. apply IH in D. cbn [length]. lia.
Qed.

(** X23: neither [cleanHtml] nor [decodeUrl] returns a text longer than
    the one it is given, and [decodeURIComponent], where it returns, does
    not either. *)
Theorem normalizers_never_lengthen :
  (forall html, length (cleanHtml html) <= length html) /\
  (forall url, length (decodeUrl (Str url)) <= length url) /\
  (forall s, match decodeURIComponent s with
             | Some r => length r <= length s
             | None => True
             end).
Proof.
  split; [apply cleanHtml_length|]. split.
  - intros [|c s]; [cbn; lia|].
    pose proof (strip_markup_length (c :: s)) as Hstrip.
    destruct (decodeURIComponent (replace_with a_backslash [] (strip_markup (c :: s))))
      as [url|] eqn:E.
    + rewrite (decodeUrl_decoded c s url E).
      apply decode_loop_length in E.
      eapply Nat.le_trans; [apply ClientFacts.trim_length|].
      eapply Nat.le_trans; [apply replace_with_length; [reflexivity|cbn; lia]|].
      eapply Nat.le_trans; [apply replace_with_length; [reflexivity|cbn; lia]|].
      eapply Nat.le_trans; [exact E|].
      eapply Nat.le_trans; [apply replace_with_length; [reflexivity|cbn; lia]|].
      exact Hstrip.
    + rewrite (decodeUrl_catch c s E).
      eapply Nat.le_trans; [apply basic_cleanup_length|exact Hstrip].
  - intros s. destruct (decodeURIComponent s) as [r|] eqn:E; [|exact I].
    apply decode_loop_length in E. exact E.
Qed.

End LengthFacts.

Module EndToEndFacts.
Import RegexFacts ValidatorFacts PipelineFacts.

Section WithLibs.

Variable L : Libs.

(** The reply to a source that passes the checks of the route, when
    [extractVideos] returns something. *)
Lemma route_replies_with_result src :
  1000 <= length src ->
  (N.of_nat (length src) <= 50 * 1024 * 1024)%N ->
  includes src (js "<html") || includes src (js "<!DOCTYPE") = true ->
  extractVideos L src <> [] ->
  Server.extract_videos_route L (Str src) =
  Server.status_200
    {| Server.resp_videos := extractVideos L src;
       Server.count := length (extractVideos L src);
       Server.message := Server.extracted;
       Server.totalFound := length (extractVideos L src);
       Server.filteredCount := length (extractVideos L src) |}.
Proof.
  intros Hlen Hmax Hhtml Hsome.
  destruct src as [|c s]; [cbn in Hlen; lia|].
  unfold Server.extract_videos_route.
  apply Nat.ltb_ge in Hlen. rewrite Hlen.
  apply N.ltb_ge in Hmax. rewrite Hmax.
  replace (negb (includes (c :: s) (js "<html")) && negb (includes (c :: s) (js "<!DOCTYPE")))
    with false
    by (rewrite <- negb_orb, Hhtml; reflexivity).
  cbv zeta. rewrite RouteFacts.facebook_filter_id.
  destruct (extractVideos L (c :: s)) as [|v vs]; [contradiction|]. reflexivity.
Qed.

(** X24: the route answers a page that passes its checks and in which a
    pattern finds a candidate that passes the guards and the Validator
    with status 200 and the message of a successful extraction; the
    videos of the reply are the result of [extractVideos], the candidate
    among them. *)
Theorem route_returns_valid_candidates (src : jsstring) (i : nat) (p : RegExp)
    (m : rmatch_result) :
  1000 <= length src ->
  (N.of_nat (length src) <= 50 * 1024 * 1024)%N ->
  includes src (js "<html") || includes src (js "<!DOCTYPE") = true ->
  nth_error videoPatterns i = Some p ->
  List.In m (exec_all p (cleanHtml src)) ->
  passes_guards (candidate m) = true ->
  isValidVideoUrl L (Str (candidate m)) = true ->
  exists reply,
    Server.extract_videos_route L (Str src) = Server.status_200 reply /\
    Server.message reply = Server.extracted /\
    Server.resp_videos reply = extractVideos L src /\
    Server.count reply = length (extractVideos L src) /\
    List.In (candidate m) (List.map url (Server.resp_videos reply)).
Proof.
  intros Hlen Hmax Hhtml Hp Hm Hg Hv.
  assert (Hin : List.In (candidate m) (List.map url (extractVideos L src))).
  { apply scanned_in_result, pattern_loop_in_scanned.
    apply (CompletenessFacts.pattern_finds L _ i p m);
      [apply CompletenessFacts.indexed_nth_error, Hp|assumption..]. }
  eexists. split; [apply route_replies_with_result; try assumption|].
  - intros E. rewrite E in Hin. destruct Hin.
  - cbn [Server.message Server.resp_videos Server.count]. auto.
Qed.

End WithLibs.

(** A page of 1096 characters that carries the url of [Samples.cdn_url] in
    a member [hd_src] of a script. *)
Definition video_page : jsstring :=
  js "<!DOCTYPE html><html><head><script>" ++ Samples.hd_src_page ++
  js "</script></head><body>" ++ List.repeat 32%N 560 ++ js "</body></html>".

Definition video_page_match : rmatch_result :=
  hd {| index := 0; matched := []; groups := []; endIndex := 0; after := [] |}
    (exec_all (nth 0 videoPatterns last_pattern) (cleanHtml video_page)).

Lemma route_returns_valid_candidates_witness :
  candidate video_page_match = Samples.cdn_url /\
  exists reply,
    Server.extract_videos_route Samples.plain_libs (Str video_page) =
      Server.status_200 reply /\
    Server.message reply = Server.extracted /\
    Server.resp_videos reply = extractVideos Samples.plain_libs video_page /\
    Server.count reply = length (extractVideos Samples.plain_libs video_page) /\
    List.In (candidate video_page_match) (List.map url (Server.resp_videos reply)).
Proof.
  split; [vm_compute; reflexivity|].
  apply (route_returns_valid_candidates Samples.plain_libs video_page 0
           (nth 0 videoPatterns last_pattern) video_page_match).
  - vm_compute. lia.
  - vm_compute. discriminate.
  - vm_compute. reflexivity.
  - reflexivity.
  - vm_compute. left. reflexivity.
  - vm_compute. reflexivity.
  - vm_compute. reflexivity.
Defined.

End EndToEndFacts.

Module LabelFacts.
Import RegexFacts.

(** The pattern of a row of [qualityPatterns]. *)
Definition row_pattern (words : list string) : RegExp :=
  {| source := alt (List.map lit words); rflags := i_ |}.

Definition HD_words : list string := ["hd"; "720p"; "1080p"; "high"]%string.
Definition SD_words : list string := ["sd"; "480p"; "medium"]%string.
Definition Low_words : list string := ["low"; "240p"; "360p"]%string.
Definition Q4K_words : list string := ["4k"; "2160p"; "ultra"]%string.
Definition Q2K_words : list string := ["2k"; "1440p"]%string.

Definition by_default (url : jsstring) : quality_label :=
  if includes url (js "hd") || includes url (js "720") || includes url (js "1080") then HD
  else if includes url (js "sd") || includes url (js "480") then SD
  else UnknownQuality.

(** [detectQuality], row by row. *)
Lemma detectQuality_rows url :
  detectQuality url =
  if test (row_pattern HD_words) url then HD
  else if test (row_pattern SD_words) url then SD
  else if test (row_pattern Low_words) url then Low
  else if test (row_pattern Q4K_words) url then Q4K
  else if test (row_pattern Q2K_words) url then Q2K
  else by_default url.
Proof.
  unfold detectQuality.
  change qualityPatterns
    with [(row_pattern HD_words, HD); (row_pattern SD_words, SD); (row_pattern Low_words, Low);
          (row_pattern Q4K_words, Q4K); (row_pattern Q2K_words, Q2K)].
  cbn [List.find fst snd].
  destruct (test (row_pattern HD_words) url); [reflexivity|].
  destruct (test (row_pattern SD_words) url); [reflexivity|].
  destruct (test (row_pattern Low_words) url); [reflexivity|].
  destruct (test (row_pattern Q4K_words) url); [reflexivity|].
  destruct (test (row_pattern Q2K_words) url); reflexivity.
Qed.

(** The lower-case form of a letter of [A-Z]; any other character is kept.
    Under the flag [i] without the flag [u], a character of a pattern that
    is no upper-case letter matches the characters with this form. *)
Definition fold (c : char) : char :=
  if ((65 <=? c) && (c <=? 90))%N then (c + 32)%N else c.

Definition not_upper (c : char) : bool := negb ((65 <=? c) && (c <=? 90))%N.

Lemma lit_eq_fold p c : not_upper p = true -> lit_eq true p c = char_eqb (fold c) p.
Proof.
  unfold not_upper, lit_eq, char_eqb, swap_case, fold. intros Hp. cbn [andb].
  apply negb_true_iff, andb_false_iff in Hp. rewrite !N.leb_gt in Hp.
  apply eq_true_iff_eq. rewrite orb_true_iff, !N.eqb_eq.
  destruct ((65 <=? c) && (c <=? 90))%N eqn:U.
  - apply andb_true_iff in U. rewrite !N.leb_le in U. lia.
  - apply andb_false_iff in U. rewrite !N.leb_gt in U.
    destruct ((97 <=? c) && (c <=? 122))%N eqn:W; [|lia].
    apply andb_true_iff in W. rewrite !N.leb_le in W. lia.
Qed.

(** A literal without upper-case letters matches, under the flag [i], where
    the folded input starts with it. *)
Lemma rmatch_lit_folded ds s k x :
  forallb not_upper (js s) = true ->
  rmatch true ds (lit s) k x =
  if startsWith (List.map fold (rest x)) (js s)
  then k (moved x (js s) (skipn (length (js s)) (rest x)))
  else None.
Proof.
  revert k x. induction s as [|a s IH]; intros k x Hs.
  - cbn [lit js rmatch startsWith length skipn]. rewrite moved_nil.
    destruct (List.map fold (rest x)); reflexivity.
  - change (js (String a s)) with (code a :: js s) in Hs. cbn [forallb] in Hs.
    apply andb_true_iff in Hs. destruct Hs as [Ha Hs].
    assert (Hone : forall k x,
      one_char (lit_eq true (code a)) k x =
      match rest x with
      | c :: t => if char_eqb (fold c) (code a) then k (step x t) else None
      | [] => None
      end).
    { intros k0 x0. unfold one_char.
      destruct (rest x0) as [|c t]; [reflexivity|]. rewrite (lit_eq_fold _ c Ha).
      reflexivity. }
    destruct s as [|b s].
    + cbn [lit js rmatch length skipn]. rewrite Hone.
      destruct (rest x) as [|c t]; [reflexivity|]. cbn [List.map startsWith].
      destruct (char_eqb (fold c) (code a)); [|reflexivity].
      replace (startsWith (List.map fold t) []) with true
        by (destruct (List.map fold t); reflexivity).
      cbn [andb]. f_equal. unfold moved, step. simpl. f_equal. lia.
    + change (lit (String a (String b s))) with (RSeq (RChar (code a)) (lit (String b s))).
      cbn [rmatch]. rewrite Hone.
      change (js (String a (String b s))) with (code a :: js (String b s)).
      cbn [length skipn].
      destruct (rest x) as [|c t]; [reflexivity|]. cbn [List.map startsWith].
      destruct (char_eqb (fold c) (code a)); [|reflexivity]. cbn [andb].
      rewrite (IH _ _ Hs). cbn [rest step].
      destruct (startsWith (List.map fold t) (js (String b s))); [|reflexivity].
      f_equal. unfold moved, step. simpl. f_equal. lia.
Qed.

(** An alternative of such literals matches where the folded input starts
    with one of them. *)
Lemma rmatch_alt_folded ds w0 words x :
  forallb (fun w => forallb not_upper (js w)) (w0 :: words) = true ->
  is_Some (rmatch true ds (alt (List.map lit (w0 :: words))) Some x) <->
  existsb (fun w => startsWith (List.map fold (rest x)) (js w)) (w0 :: words) = true.
Proof.
  revert w0. induction words as [|w1 words IH]; intros w0 Hw; cbn [forallb] in Hw;
    apply andb_true_iff in Hw; destruct Hw as [H0 Hw].
  - cbn [List.map alt existsb]. rewrite (rmatch_lit_folded _ _ _ _ H0), orb_false_r.
    destruct (startsWith (List.map fold (rest x)) (js w0)); split; eauto;
      try discriminate; intros [? H]; discriminate.
  - change (alt (List.map lit (w0 :: w1 :: words)))
      with (RAlt (lit w0) (alt (List.map lit (w1 :: words)))).
    cbn [rmatch]. rewrite or_else_is_Some, (IH w1 Hw), (rmatch_lit_folded _ _ _ _ H0).
    change (existsb (fun w => startsWith (List.map fold (rest x)) (js w)) (w0 :: w1 :: words))
      with (startsWith (List.map fold (rest x)) (js w0) ||
            existsb (fun w => startsWith (List.map fold (rest x)) (js w)) (w1 :: words)).
    rewrite orb_true_iff.
    destruct (startsWith (List.map fold (rest x)) (js w0)); split; eauto.
    + intros [[? H]|H]; [discriminate|auto].
    + intros [H|H]; [discriminate|auto].
Qed.

Lemma includes_map_split (f : char -> char) s p :
  includes (List.map f s) p = true <->
  exists pre post, s = pre ++ post /\ startsWith (List.map f post) p = true.
Proof.
  induction s as [|c s IH]; cbn [List.map includes].
  - rewrite orb_false_r. split.
    + intros H. exists [], []. auto.
    + intros (pre & post & E & H). symmetry in E. apply List.app_eq_nil in E.
      destruct E as [_ ->]. exact H.
  - rewrite orb_true_iff, IH. split.
    + intros [H|(pre & post & -> & H)]; [exists [], (c :: s); auto|].
      exists (c :: pre), post. auto.
    + intros ([|c' pre] & post & E & H).
      * left. cbn [app] in E. subst post. exact H.
      * right. injection E as -> ->. eauto.
Qed.

(** The url includes one of the words, its letters in any case. *)
Definition said (url : jsstring) (words : list string) : bool :=
  existsb (fun w => includes (List.map fold url) (js w)) words.

(** [pattern.test(url)] for a row of the table. *)
Lemma test_row w0 words url :
  forallb (fun w => forallb not_upper (js w)) (w0 :: words) = true ->
  test (row_pattern (w0 :: words)) url = said url (w0 :: words).
Proof.
  intros Hw. apply eq_true_iff_eq. unfold said.
  rewrite test_true, List.existsb_exists. split.
  - intros (pre & post & -> & H). rewrite match_at_is_Some in H.
    cbn [row_pattern source rflags ignoreCase dotAll i_] in H.
    apply (rmatch_alt_folded _ _ _ _ Hw), List.existsb_exists in H. cbn [rest] in H.
    destruct H as (w & Hin & H). exists w. split; [exact Hin|].
    apply includes_map_split. eauto.
  - intros (w & Hin & H). apply includes_map_split in H.
    destruct H as (pre & post & -> & H). exists pre, post. split; [reflexivity|].
    rewrite match_at_is_Some. cbn [row_pattern source rflags ignoreCase dotAll i_].
    apply (rmatch_alt_folded _ _ _ _ Hw), List.existsb_exists. cbn [rest]. eauto.
Qed.

Lemma includes_folded s w :
  forallb not_upper w = true -> includes s w = true -> includes (List.map fold s) w = true.
Proof.
  intros Hw. rewrite !includes_spec. intros (pre & post & ->).
  exists (List.map fold pre), (List.map fold post). rewrite !List.map_app. do 2 f_equal.
  clear -Hw. induction w as [|c w IH]; [reflexivity|]. cbn [forallb] in Hw.
  apply andb_true_iff in Hw. destruct Hw as [Hc Hw]. cbn [List.map].
  rewrite (IH Hw). f_equal. unfold fold, not_upper in *.
  apply negb_true_iff in Hc. rewrite Hc. reflexivity.
Qed.

(** X25: [detectQuality] returns the label of the first row of the table,
    in the order HD, SD, Low, 4K, 2K, one of whose words the url includes,
    its letters in any case; when no row has one, HD if the url includes
    720 or 1080, SD if it includes 480, and Unknown otherwise (the words hd
    and sd of the default are those of the rows HD and SD, which have been
    tried).  So a url is labelled Low, 4K or 2K exactly when it includes a
    word of that row and none of the rows before it. *)
Theorem detectQuality_tries_HD_first (url : jsstring) :
  detectQuality url =
    (if said url HD_words then HD
     else if said url SD_words then SD
     else if said url Low_words then Low
     else if said url Q4K_words then Q4K
     else if said url Q2K_words then Q2K
     else if includes url (js "720") || includes url (js "1080") then HD
     else if includes url (js "480") then SD
     else UnknownQuality) /\
  (detectQuality url = Low <->
   said url HD_words = false /\ said url SD_words = false /\ said url Low_words = true) /\
  (detectQuality url = Q4K <->
   said url HD_words = false /\ said url SD_words = false /\ said url Low_words = false /\
   said url Q4K_words = true) /\
  (detectQuality url = Q2K <->
   said url HD_words = false /\ said url SD_words = false /\ said url Low_words = false /\
   said url Q4K_words = false /\ said url Q2K_words = true).
Proof.
  assert (Hhd : said url HD_words = false -> includes url (js "hd") = false).
  { intros H. destruct (includes url (js "hd")) eqn:E; [|reflexivity].
    apply (includes_folded url (js "hd") eq_refl) in E. unfold said, HD_words in H.
    cbn [existsb] in H. rewrite E in H. discriminate. }
  assert (Hsd : said url SD_words = false -> includes url (js "sd") = false).
  { intros H. destruct (includes url (js "sd")) eqn:E; [|reflexivity].
    apply (includes_folded url (js "sd") eq_refl) in E. unfold said, SD_words in H.
    cbn [existsb] in H. rewrite E in H. discriminate. }
  assert (E : detectQuality url =
    (if said url HD_words then HD
     else if said url SD_words then SD
     else if said url Low_words then Low
     else if said url Q4K_words then Q4K
     else if said url Q2K_words then Q2K
     else if includes url (js "720") || includes url (js "1080") then HD
     else if includes url (js "480") then SD
     else UnknownQuality)).
  { rewrite detectQuality_rows.
    rewrite (test_row "hd" ["720p"; "1080p"; "high"]%string url eq_refl
             : test (row_pattern HD_words) url = said url HD_words).
    rewrite (test_row "sd" ["480p"; "medium"]%string url eq_refl
             : test (row_pattern SD_words) url = said url SD_words).
    rewrite (test_row "low" ["240p"; "360p"]%string url eq_refl
             : test (row_pattern Low_words) url = said url Low_words).
    rewrite (test_row "4k" ["2160p"; "ultra"]%string url eq_refl
             : test (row_pattern Q4K_words) url = said url Q4K_words).
    rewrite (test_row "2k" ["1440p"]%string url eq_refl
             : test (row_pattern Q2K_words) url = said url Q2K_words).
    unfold by_default.
    destruct (said url HD_words); [reflexivity|]. rewrite (Hhd eq_refl).
    destruct (said url SD_words); [reflexivity|]. rewrite (Hsd eq_refl).
    reflexivity. }
  split; [exact E|]. rewrite E.
  destruct (said url HD_words), (said url SD_words), (said url Low_words),
    (said url Q4K_words), (said url Q2K_words),
    (includes url (js "720") || includes url (js "1080")), (includes url (js "480"));
    repeat split; try discriminate; try reflexivity; intros; intuition discriminate.
Qed.

End LabelFacts.

Module CaptureFacts.
Import RegexFacts.

Definition range_eqb (a b : char * char) : bool :=
  N.eqb (fst a) (fst b) && N.eqb (snd a) (snd b).

Fixpoint ranges_eqb (l l' : list (char * char)) : bool :=
  match l, l' with
  | [], [] => true
  | a :: l, b :: l' => range_eqb a b && ranges_eqb l l'
  | _, _ => false
  end.

Lemma ranges_eqb_eq l l' : ranges_eqb l l' = true -> l = l'.
Proof.
  revert l'. induction l as [|[a1 a2] l IH]; intros [|[b1 b2] l']; cbn; try discriminate; auto.
  unfold range_eqb. cbn. rewrite !andb_true_iff, !N.eqb_eq.
  intros [[-> ->] H]. rewrite (IH l' H). reflexivity.
Qed.

(** A run of characters of a class [ok], at least [min] of them, given to
    the continuation. *)
Lemma repeat_class_Some ok greedy k :
  forall fuel min x z,
    repeat_matcher (one_char ok) [] fuel min None greedy k x = Some z ->
    exists w t, rest x = w ++ t /\ min <= length w /\ forallb ok w = true /\
                k (moved x w t) = Some z.
Proof.
  induction fuel as [|fuel IH]; intros min x z; cbn [repeat_matcher]; [discriminate|].
  rewrite clear_caps_nil. set (d := fun y : mstate => _).
  assert (Hk : k x = Some z ->
               Nat.eqb min 0 = true ->
               exists w t, rest x = w ++ t /\ min <= length w /\ forallb ok w = true /\
                           k (moved x w t) = Some z).
  { intros H E. apply Nat.eqb_eq in E. subst min. exists [], (rest x).
    rewrite moved_nil. cbn. repeat split; auto. }
  assert (Hd : one_char ok d x = Some z ->
               exists w t, rest x = w ++ t /\ min <= length w /\ forallb ok w = true /\
                           k (moved x w t) = Some z).
  { unfold one_char. destruct (rest x) as [|c t'] eqn:E; [discriminate|].
    destruct (ok c) eqn:Hc; [|discriminate]. subst d. cbn beta.
    destruct (Nat.eqb min 0 && Nat.eqb (pos (step x t')) (pos x)); [discriminate|].
    intros H. apply IH in H. destruct H as (w & t & Hr & Hm & Hw & H).
    cbn [rest step] in Hr. subst t'. exists (c :: w), t.
    rewrite (moved_step x c) in H. cbn [forallb length]. rewrite Hc, Hw.
    repeat split; auto. lia. }
  destruct (Nat.eqb min 0) eqn:E; cbn [negb]; [|exact Hd].
  destruct greedy; intros H; apply or_else_Some in H; destruct H as [H|H]; auto.
Qed.

Section Group.

(** The group [n] of a pattern, where it is a run of at least [min0]
    characters of the class [ranges0] (negated when [neg0]). *)
Variables (n : nat) (ic : bool) (neg0 : bool) (ranges0 : list (char * char)) (min0 : nat).

Definition in_class (c : char) : bool := xorb neg0 (class_has ic ranges0 c).

Definition run (v : jsstring) : Prop := min0 <= length v /\ forallb in_class v = true.

Definition is_run (a : regex) : bool :=
  match a with
  | RRep min None _ (RClass neg ranges) =>
      (min0 <=? min) && Bool.eqb neg neg0 && ranges_eqb ranges ranges0
  | _ => false
  end.

Fixpoint groups_ok (r : regex) : bool :=
  match r with
  | RGroup m a => if Nat.eqb m n then is_run a else groups_ok a
  | RSeq a b | RAlt a b => groups_ok a && groups_ok b
  | RRep _ _ _ a => groups_ok a
  | _ => true
  end.

(** Every capture of the group [n] is such a run. *)
Definition runs (cs : list (nat * jsstring)) : Prop :=
  List.Forall (fun e => fst e = n -> run (snd e)) cs.

Definition keeps (m : cont -> cont) : Prop :=
  forall k s z, runs (caps s) -> m k s = Some z ->
    exists s', runs (caps s') /\ k s' = Some z.

Lemma runs_filter p cs : runs cs -> runs (List.filter p cs).
Proof.
  unfold runs. rewrite !List.Forall_forall. intros H e He.
  apply List.filter_In in He. apply H, He.
Qed.

Lemma get_cap_runs cs v : runs cs -> get_cap n cs = Some v -> run v.
Proof.
  unfold get_cap, runs. rewrite List.Forall_forall. intros H.
  destruct (List.find _ cs) as [e|] eqn:E; [|discriminate].
  intros [= <-]. apply List.find_some in E. destruct E as [He Hn].
  apply H; [exact He|]. apply Nat.eqb_eq, Hn.
Qed.

Lemma one_char_keeps ok : keeps (one_char ok).
Proof.
  intros k s z Hs. unfold one_char. destruct (rest s) as [|c t]; [discriminate|].
  destruct (ok c); [|discriminate]. intros H. exists (step s t). split; [exact Hs|exact H].
Qed.

Lemma repeat_matcher_keeps m gs :
  keeps m -> forall fuel min max greedy, keeps (repeat_matcher m gs fuel min max greedy).
Proof.
  intros Hm fuel. induction fuel as [|fuel IH]; intros min max greedy k x z Hx;
    cbn [repeat_matcher]; [discriminate|].
  set (d := fun y : mstate => _).
  assert (Hk : k x = Some z -> exists s', runs (caps s') /\ k s' = Some z) by eauto.
  assert (Hd : m d (clear_caps gs x) = Some z -> exists s', runs (caps s') /\ k s' = Some z).
  { intros H. apply Hm in H; [|apply runs_filter, Hx].
    destruct H as (y & Hy & H). subst d. cbn beta in H.
    destruct (Nat.eqb min 0 && Nat.eqb (pos y) (pos x)); [discriminate|].
    apply (IH _ _ _ _ _ _ Hy H). }
  destruct max as [[|mx]|]; auto;
    (destruct (negb (Nat.eqb min 0)); auto;
     destruct greedy; intros H; apply or_else_Some in H; destruct H; auto).
Qed.

Lemma rmatch_keeps ds r : groups_ok r = true -> keeps (rmatch ic ds r).
Proof.
  induction r as [| c | | neg rs | a IHa b IHb | a IHa b IHb
                  | min max greedy a IHa | m a IHa | | ]; cbn [groups_ok]; intros Hok.
  - intros k s z Hs H. eauto.
  - apply one_char_keeps.
  - apply one_char_keeps.
  - apply one_char_keeps.
  - apply andb_true_iff in Hok. destruct Hok as [Ha Hb].
    intros k s z Hs H. cbn [rmatch] in H.
    apply (IHa Ha) in H; [|exact Hs]. destruct H as (s1 & H1 & H).
    apply (IHb Hb) in H; [|exact H1]. exact H.
  - apply andb_true_iff in Hok. destruct Hok as [Ha Hb].
    intros k s z Hs H. cbn [rmatch] in H. apply or_else_Some in H.
    destruct H as [H|H]; [apply (IHa Ha) in H|apply (IHb Hb) in H]; auto.
  - intros k s z Hs H. cbn [rmatch] in H.
    eapply repeat_matcher_keeps; [apply IHa, Hok|exact Hs|exact H].
  - destruct (Nat.eqb_spec m n) as [->|Hmn].
    + destruct a as [| | | | | | min [mx|] greedy a | | | ]; try discriminate.
      destruct a as [| | | neg rs | | | | | | ]; try discriminate.
      cbn [is_run] in Hok. rewrite !andb_true_iff in Hok. destruct Hok as [[Hmin Hneg] Hrs].
      apply Nat.leb_le in Hmin. apply Bool.eqb_prop in Hneg. apply ranges_eqb_eq in Hrs.
      subst neg rs.
      intros k s z Hs H. cbn [rmatch groups_of] in H.
      change (fun (k0 : cont) (s0 : mstate) =>
                one_char (fun c => xorb neg0 (class_has ic ranges0 c)) k0 s0)
        with (one_char in_class) in H.
      apply repeat_class_Some in H. destruct H as (w & t & Hr & Hw & Hall & H).
      eexists. split; [|exact H]. cbn [caps set_cap moved pos].
      constructor; [|apply runs_filter, Hs].
      intros _. cbn [snd]. rewrite Hr.
      replace (pos s + length w - pos s) with (length w) by lia.
      rewrite List.firstn_app, Nat.sub_diag, List.firstn_all. cbn [firstn].
      rewrite List.app_nil_r. split; [lia|exact Hall].
    + intros k s z Hs H. cbn [rmatch] in H. apply (IHa Hok) in H; [|exact Hs].
      destruct H as (s' & Hs' & H). eexists. split; [|exact H].
      cbn [caps set_cap]. constructor; [|apply runs_filter, Hs'].
      cbn [fst]. intros E. contradiction.
  - intros k s z Hs H. cbn [rmatch] in H. destruct (Nat.eqb (pos s) 0); [eauto|discriminate].
  - intros k s z Hs H. cbn [rmatch] in H. destruct (rest s); [eauto|discriminate].
Qed.

Lemma match_at_runs re s i m :
  ignoreCase (rflags re) = ic -> groups_ok (source re) = true ->
  match_at re s i = Some m -> runs (groups m).
Proof.
  intros Hic Hok. unfold match_at. rewrite Hic.
  destruct (rmatch _ _ _ _ _) as [e|] eqn:E; [|discriminate].
  intros [= <-]. cbn [groups]. apply (rmatch_keeps _ _ Hok) in E; [|constructor].
  destruct E as (s' & Hs' & [= ->]). exact Hs'.
Qed.

Lemma search_runs re s i m :
  ignoreCase (rflags re) = ic -> groups_ok (source re) = true ->
  search re s i = Some m -> runs (groups m).
Proof.
  intros Hic Hok. revert i. induction s as [|c s IH]; intros i; cbn [search].
  - destruct (match_at re [] i) eqn:E; [|discriminate].
    intros [= <-]. eapply match_at_runs; eauto.
  - destruct (match_at re (c :: s) i) eqn:E.
    + intros [= <-]. eapply match_at_runs; eauto.
    + apply IH.
Qed.

Lemma exec_all_runs re s m :
  ignoreCase (rflags re) = ic -> groups_ok (source re) = true ->
  List.In m (exec_all re s) -> runs (groups m).
Proof.
  intros Hic Hok. unfold exec_all. generalize (S (length s)) as fuel. generalize 0 as i.
  intros i fuel. revert s i. induction fuel as [|fuel IH]; intros s i; cbn [exec_loop]; [intros []|].
  destruct (search re s i) as [m0|] eqn:E; [|intros []].
  intros [<-|H].
  - eapply search_runs; eauto.
  - destruct (Nat.eqb (endIndex m0) (index m0)); [destruct H|]. eapply IH, H.
Qed.

End Group.

End CaptureFacts.

Module IdentifierFacts.
Import RegexFacts ValidatorFacts PipelineFacts CaptureFacts.

Definition word_ranges : list (char * char) :=
  [rng "A" "Z"; rng "a" "z"; rng "0" "9"; ch (code "_"); ch (code "-")].

Definition is_digit (c : char) : bool := ((48 <=? c) && (c <=? 57))%N.

(** A string of word characters: letters, digits, underscore and hyphen. *)
Definition word (s : jsstring) : Prop := forallb is_word_char s = true.

(** A string of decimal digits. *)
Definition number (s : jsstring) : Prop := forallb is_digit s = true.

Lemma run_word min v : run false false word_ranges min v -> min <= length v /\ word v.
Proof.
  intros [Hlen Hall]. split; [exact Hlen|]. unfold word.
  rewrite <- Hall. apply forallb_ext. intros c. symmetry. apply word_class.
Qed.

Lemma run_number min v : run false false digit_ranges min v -> min <= length v /\ number v.
Proof.
  intros [Hlen Hall]. split; [exact Hlen|]. unfold number.
  rewrite <- Hall. apply forallb_ext. intros c.
  unfold in_class, class_has, digit_ranges, rng, in_range, is_digit. cbn.
  rewrite !orb_false_r. reflexivity.
Qed.

(** The first group of the first match of a pattern whose group is a
    run. *)
Lemma group1_run neg0 ranges0 min0 re url v :
  ignoreCase (rflags re) = false ->
  groups_ok 1 neg0 ranges0 min0 (source re) = true ->
  group1 (match_first re url) = Some v -> run false neg0 ranges0 min0 v.
Proof.
  intros Hic Hok. unfold group1, match_first.
  destruct (search re url 0) as [m|] eqn:E; [|discriminate].
  apply (get_cap_runs 1 false neg0 ranges0 min0).
  apply (search_runs 1 false neg0 ranges0 min0 re url 0 m Hic Hok E).
Qed.

Lemma extractVideoHash_word url :
  extractVideoHash url = [] \/ (30 <= length (extractVideoHash url) /\ word (extractVideoHash url)).
Proof.
  unfold extractVideoHash.
  destruct (group1 (match_first hash_in_path url)) as [h|] eqn:E; [|left; reflexivity].
  right. apply run_word. apply (group1_run false word_ranges 30 hash_in_path url h); auto.
Qed.

Lemma extractVideoId_number url id :
  extractVideoId url = Some id -> id <> [] /\ number id.
Proof.
  unfold extractVideoId.
  assert (Hall : List.Forall
            (fun p => ignoreCase (rflags p) = false /\
                      groups_ok 1 false digit_ranges 1 (source p) = true) urlIdPatterns).
  { repeat constructor. }
  induction Hall as [|p ps [Hic Hok] _ IH]; cbn [List.fold_right]; [discriminate|].
  destruct (group1 (match_first p url)) as [[|c v]|] eqn:E; try exact IH.
  intros [= <-]. split; [discriminate|].
  apply (group1_run false digit_ranges 1 p url (c :: v) Hic Hok) in E.
  apply run_number in E. apply E.
Qed.

Lemma extractVideoIdsFromContext_numbers sourceCode id :
  id ∈ extractVideoIdsFromContext sourceCode -> 5 < length id /\ number id.
Proof.
  unfold extractVideoIdsFromContext. revert id.
  assert (Hall : List.Forall
            (fun p => ignoreCase (rflags p) = false /\
                      groups_ok 1 false digit_ranges 1 (source p) = true) videoIdPatterns).
  { repeat constructor. }
  rewrite List.Forall_forall in Hall.
  apply (fold_left_keeps (fun ids : gset jsstring => forall id, id ∈ ids -> 5 < length id /\ number id)).
  - intros ids p Hp Hids. destruct (Hall p Hp) as [Hic Hok].
    apply (fold_left_keeps
             (fun ids : gset jsstring => forall id, id ∈ ids -> 5 < length id /\ number id));
      [|exact Hids].
    intros ids' m Hm Hids' id.
    destruct (get_cap 1 (groups m)) as [[|c v]|] eqn:E; try apply Hids'.
    destruct (Nat.ltb_spec 5 (length (c :: v))) as [Hlen|Hlen]; [|apply Hids'].
    rewrite elem_of_union, elem_of_singleton. intros [->|Hid]; [|apply Hids', Hid].
    split; [exact Hlen|].
    pose proof (exec_all_runs 1 false false digit_ranges 1 p sourceCode m Hic Hok Hm) as Hr.
    apply (get_cap_runs 1 false false digit_ranges 1 _ _ Hr) in E.
    apply run_number in E. apply E.
  - intros id Hid. apply elem_of_empty in Hid. destruct Hid.
Qed.

Lemma firstn_forallb {A} (f : A -> bool) n l :
  forallb f l = true -> forallb f (firstn n l) = true.
Proof.
  rewrite !List.forallb_forall. intros H x Hx. apply H. eapply CapFacts.firstn_In, Hx.
Qed.

Lemma extractBaseVideoId_shape url :
  match group1 (match_first main_hash url), group1 (match_first f2_path url) with
  | Some _, _ => length (extractBaseVideoId url) = 30 /\ word (extractBaseVideoId url)
  | None, Some _ => extractBaseVideoId url <> [] /\ word (extractBaseVideoId url)
  | None, None => length (extractBaseVideoId url) <= 20
  end.
Proof.
  unfold extractBaseVideoId.
  destruct (group1 (match_first main_hash url)) as [hash|] eqn:E1.
  - apply (group1_run false word_ranges 40 main_hash url hash) in E1; auto.
    apply run_word in E1. destruct E1 as [Hlen Hw]. unfold substring0. split.
    + rewrite List.length_firstn. lia.
    + apply firstn_forallb, Hw.
  - destruct (group1 (match_first f2_path url)) as [id|] eqn:E2.
    + apply (group1_run false word_ranges 1 f2_path url id) in E2; auto.
      apply run_word in E2. destruct E2 as [Hlen Hw].
      split; [|exact Hw]. intros ->. cbn in Hlen. lia.
    + unfold substring0. rewrite List.length_firstn. lia.
Qed.

(** X26: the identifiers that the extractor reads off a url or a page are
    well formed.  [extractVideoHash] returns the empty string or at least
    30 word characters; [extractVideoId], where it returns an identifier,
    returns a non-empty string of digits; every identifier of
    [extractVideoIdsFromContext] is a string of more than 5 digits; and
    [extractBaseVideoId] returns 30 word characters when the url has a
    hash of 40 or more, else the word characters after [/f2/], else at
    most 20 characters of the file name. *)
Theorem identifiers_are_well_formed (url : jsstring) :
  (extractVideoHash url = [] \/
   (30 <= length (extractVideoHash url) /\ word (extractVideoHash url))) /\
  match extractVideoId url with
  | Some id => id <> [] /\ number id
  | None => True
  end /\
  (forall sourceCode id,
     id ∈ extractVideoIdsFromContext sourceCode -> 5 < length id /\ number id) /\
  match group1 (match_first main_hash url), group1 (match_first f2_path url) with
  | Some _, _ => length (extractBaseVideoId url) = 30 /\ word (extractBaseVideoId url)
  | None, Some _ => extractBaseVideoId url <> [] /\ word (extractBaseVideoId url)
  | None, None => length (extractBaseVideoId url) <= 20
  end.
Proof.
  split; [apply extractVideoHash_word|]. split; [|split].
  - destruct (extractVideoId url) as [id|] eqn:E; [|exact I].
    apply (extractVideoId_number url id E).
  - apply extractVideoIdsFromContext_numbers.
  - apply extractBaseVideoId_shape.
Qed.

End IdentifierFacts.
